(** * Verification of burrow's storage forest (storage/forest.go)

    A shallow embedding of [MutableForest] / [ImmutableForest] and of the
    CommitID serialisation, with the properties of the forest's
    specification stated and proved (or refuted) over it. *)

From Stdlib Require Import ZArith Lia.
From stdpp Require Import base option list gmap strings.

Local Open Scope Z_scope.

(** Go's [[]byte]: a sequence of 8-bit values, each carried as a [Z].  Go's
    [string(prefix)] and [[]byte(s)] conversions copy the same bytes, so map
    keys of type [string] are carried as [bytes] too. *)
Abbreviation bytes := (list Z).

(** [bz] of the repository's tests: the bytes of a string literal. *)
Fixpoint bz (s : string) : bytes :=
  match s with
  | EmptyString => []
  | String a s' => Z.of_nat (Ascii.nat_of_ascii a) :: bz s'
  end.

(** ** Errors *)

Inductive error :=
| ErrUnexpectedEOF
| ErrOverflow
| ErrBadWireType (field wire : Z)
| ErrUnknownField (field : Z)
| ErrCacheSize
| ErrVersionMissing (region : bytes) (version : Z)
| ErrStore (region : bytes) (version : Z)
| ErrNilValue
| Errorf (context : string) (cause : error).

Inductive result (A : Type) :=
| Ok (a : A)
| Err (e : error).
Arguments Ok {A} a.
Arguments Err {A} e.

Definition is_Ok {A} (r : result A) : bool :=
  match r with Ok _ => true | Err _ => false end.

Module Codec.

(** ** Fixed-width conversions *)

Definition uint64 (x : Z) : Z := x mod 2 ^ 64.

Definition int64 (x : Z) : Z :=
  let u := x mod 2 ^ 64 in if u <? 2 ^ 63 then u else u - 2 ^ 64.

(** ** CommitID *)

(** Modelled from the spec: the declaration of [CommitID] (generated from the
    repository's protobuf schema) is not part of forest.go.  The spec gives
    [{version: int64, hash: byte sequence, possibly empty}]; the generated
    message carries [Version] as varint field 1 and [Hash] as length-delimited
    field 2.  A nil and an empty [Hash] are the same byte sequence (forest.go
    never compares [Hash] with nil), so the field is a plain [bytes]. *)
Record CommitID := mkCommitID { Version : Z; Hash : bytes }.

(** [new(CommitID)] *)
Definition zeroCommitID : CommitID := mkCommitID 0 [].

(** ** Protobuf wire format *)

(** Modelled from the spec: [proto.Buffer] and the code generated for
    [CommitID] are not part of forest.go; the spec only asks for a compact,
    deterministic binary form whose zero value is structurally empty.  The
    definitions below follow the protobuf wire format that forest.go selects
    through [proto.NewBuffer]: base-128 varints, a tag byte per field
    ([field << 3 | wiretype]) and proto3's omission of zero-valued fields. *)
Fixpoint EncodeVarint_loop (fuel : nat) (x : Z) : bytes :=
  match fuel with
  | O => [x]
  | S f =>
      if 127 <? x
      then Z.lor 128 (Z.land x 127) :: EncodeVarint_loop f (Z.shiftr x 7)
      else [x]
  end.

(** A 64-bit value needs at most nine continuation bytes. *)
Definition EncodeVarint (x : Z) : bytes := EncodeVarint_loop 9 (uint64 x).

Fixpoint DecodeVarint_loop (fuel : nat) (shift x : Z) (buf : bytes)
  : result (Z * bytes) :=
  match fuel with
  | O => Err ErrOverflow
  | S f =>
      match buf with
      | [] => Err ErrUnexpectedEOF
      | b :: rest =>
          let x' := Z.lor x (uint64 (Z.shiftl (Z.land b 127) shift)) in
          if b <? 128 then Ok (x', rest)
          else DecodeVarint_loop f (shift + 7) x' rest
      end
  end.

(** [for shift := uint(0); shift < 64; shift += 7]: ten rounds. *)
Definition DecodeVarint (buf : bytes) : result (Z * bytes) :=
  DecodeVarint_loop 10 0 0 buf.

Definition tagVersion : Z := Z.lor (Z.shiftl 1 3) 0.
Definition tagHash : Z := Z.lor (Z.shiftl 2 3) 2.

Definition encodeCommitID (cid : CommitID) : bytes :=
  (if Version cid =? 0 then []
   else tagVersion :: EncodeVarint (Version cid))
  ++
  (if (length (Hash cid) =? 0)%nat then []
   else tagHash :: EncodeVarint (Z.of_nat (length (Hash cid))) ++ Hash cid).

Definition decodeField (buf : bytes) (cid : CommitID)
  : result (CommitID * bytes) :=
  match DecodeVarint buf with
  | Err e => Err e
  | Ok (wire, rest) =>
      let fieldNum := Z.shiftr wire 3 in
      let wireType := Z.land wire 7 in
      if fieldNum =? 1 then
        if wireType =? 0 then
          match DecodeVarint rest with
          | Err e => Err e
          | Ok (v, rest') => Ok (mkCommitID (int64 v) (Hash cid), rest')
          end
        else Err (ErrBadWireType fieldNum wireType)
      else if fieldNum =? 2 then
        if wireType =? 2 then
          match DecodeVarint rest with
          | Err e => Err e
          | Ok (n, rest') =>
              if Z.of_nat (length rest') <? n then Err ErrUnexpectedEOF
              else Ok (mkCommitID (Version cid) (take (Z.to_nat n) rest'),
                       drop (Z.to_nat n) rest')
          end
        else Err (ErrBadWireType fieldNum wireType)
      else Err (ErrUnknownField fieldNum)
  end.

(** Every field consumes at least its tag byte, so [length buf] rounds
    always suffice; a message produced by [encodeCommitID] needs two. *)
Fixpoint decodeFields (fuel : nat) (buf : bytes) (cid : CommitID)
  : result CommitID :=
  match buf with
  | [] => Ok cid
  | _ :: _ =>
      match fuel with
      | O => Err ErrUnexpectedEOF
      | S f =>
          match decodeField buf cid with
          | Err e => Err e
          | Ok (cid', rest) => decodeFields f rest cid'
          end
      end
  end.

(** ** forest.go: CommitID serialisation *)

(** [cid.UnmarshalBinary(data)]: [proto.NewBuffer(data).Unmarshal(cid)]. *)
Definition UnmarshalBinary (cid : CommitID) (data : bytes) : result CommitID :=
  decodeFields (length data) data cid.

(** [cid.MarshalBinary()].  The buffer starts as [proto.NewBuffer(nil)]; when
    the message encodes to no byte at all nothing is appended and
    [buf.Bytes()] is still the nil slice, here [None]. *)
Definition MarshalBinary (cid : CommitID) : result (option bytes) :=
  match encodeCommitID cid with
  | [] => Ok None
  | b :: bs => Ok (Some (b :: bs))
  end.

Definition marshalCommitID (hash : bytes) (version : Z)
  : result (option bytes) :=
  let commitID := mkCommitID version hash in
  match MarshalBinary commitID with
  | Err err => Err (Errorf "MarshalCommitID() could not encode CommitID" err)
  | Ok None => Ok (Some [])
  | Ok (Some bs) => Ok (Some bs)
  end.

Definition unmarshalCommitID (bs : bytes) : result CommitID :=
  let commitID := zeroCommitID in
  match UnmarshalBinary commitID bs with
  | Err err => Err (Errorf "could not unmarshal CommitID" err)
  | Ok commitID' => Ok commitID'
  end.

End Codec.


(** * A state-and-error monad

    Go methods mutate their receiver and the objects it points to, and return
    an [error] besides their result.  A computation takes the state and
    returns a result together with the state it leaves behind: an error does
    not roll anything back. *)

Definition M (S A : Type) : Type := S -> result A * S.

Definition ret {S A} (a : A) : M S A := fun s => (Ok a, s).

Definition throw {S A} (e : error) : M S A := fun s => (Err e, s).

Definition bind {S A B} (m : M S A) (k : A -> M S B) : M S B :=
  fun s =>
    match m s with
    | (Ok a, s') => k a s'
    | (Err e, s') => (Err e, s')
    end.

Definition get {S} : M S S := fun s => (Ok s, s).

Definition modify {S} (f : S -> S) : M S unit := fun s => (Ok tt, f s).

(** [if err != nil { return fmt.Errorf("context: %v", err) }] *)
Definition wrap {S A} (context : string) (m : M S A) : M S A :=
  fun s =>
    match m s with
    | (Ok a, s') => (Ok a, s')
    | (Err e, s') => (Err (Errorf context e), s')
    end.

(** A pure fallible step. *)
Definition lift_result {S A} (r : result A) : M S A := fun s => (r, s).

(** Run a computation on the second component of a pair of states. *)
Definition inWorld {F W A} (m : M W A) : M (F * W) A :=
  fun '(f, w) => let '(r, w') := m w in (r, (f, w')).

Declare Scope monad_scope.
Delimit Scope monad_scope with monad.
Notation "x <- m ;; k" := (bind m (fun x => k))
  (at level 100, m at next level, right associativity) : monad_scope.
Notation "m ;; k" := (bind m (fun _ => k))
  (at level 100, right associativity) : monad_scope.
Local Open Scope monad_scope.

(** * Collaborators *)

(** Addresses of tree instances ([*RWTree]). *)
Abbreviation loc := nat.

(** Contents of a versioned tree: every write applied to it, the most
    recent first; [None] records a deletion. *)
Abbreviation log := (list (bytes * option bytes)).

Fixpoint log_get (key : bytes) (l : log) : option bytes :=
  match l with
  | [] => None
  | (k, v) :: l' => if decide (k = key) then v else log_get key l'
  end.

(** Modelled from the spec: RWTree (the repository's versioned tree, in
    storage/rwtree.go) is not part of forest.go.  The spec's collaborator
    contract gives: [Get(key)], [Set(key, value)] "buffered, visible to
    subsequent Get on the same instance, not yet durable", [Delete(key)]
    returning the old value and whether one was removed, [Load(version,
    overwriting)] "attach to an existing version; overwriting permits
    discarding any later on-disk state", [Save()] "persist buffered writes,
    advance version, return new hash", [GetImmutable(version)] "an
    independent read-only snapshot pinned at version", [Updated()] "whether
    buffered writes exist since the last Save", [Version()].  A tree is
    created empty at version 0. *)
Record RWTree := mkRWTree {
  tdb : bytes;          (* the prefix-db view the tree persists to *)
  tlog : log;           (* contents seen by Get *)
  tversion : Z;
  tupdated : bool;
}.

(** The world outside the forest structs: the tree instances on the heap,
    the backing store (what each prefix-db view holds for each saved
    version) and the [Load] calls issued so far, most recent first. *)
Record World := mkWorld {
  heap : gmap loc RWTree;
  store : gmap (bytes * Z) log;
  loads : list (bytes * Z * bool);
}.

Definition set_heap (f : gmap loc RWTree -> gmap loc RWTree) (w : World) : World :=
  mkWorld (f (heap w)) (store w) (loads w).

Definition set_store (f : gmap (bytes * Z) log -> gmap (bytes * Z) log)
    (w : World) : World :=
  mkWorld (heap w) (f (store w)) (loads w).

Definition log_load (ev : bytes * Z * bool) (w : World) : World :=
  mkWorld (heap w) (store w) (ev :: loads w).

(** What the tree primitive leaves open: the Merkle hash of a tree (it may
    depend on the order of the writes) and when the store refuses to persist
    a version. *)
Class Collab := {
  hashfn : log -> bytes;
  save_fault : bytes -> Z -> bool;
}.

(** The Go runtime hands out the address of each new object; all that is
    known is that it is not the address of a live one. *)
Class Allocator := {
  alloc : gset loc -> loc;
  alloc_fresh : forall live, alloc live ∉ live;
}.

(** Modelled from the spec: the namespaced byte store (NewPrefixDB) is not
    part of forest.go; "given a base store and a namespace tag, exposes a
    store view whose key space is isolated from all other tags".  A view is
    named by the tags on the way to it. *)
Definition NewPrefixDB (db : bytes) (prefix : bytes) : bytes := db ++ prefix.

Section Trees.
Context {collab : Collab} {allocator : Allocator}.

(** A method called through a pointer that holds no tree panics. *)
Definition with_tree {A} (t : loc) (k : RWTree -> M World A) : M World A :=
  fun w =>
    match heap w !! t with
    | Some tr => k tr w
    | None => (Err ErrNilValue, w)
    end.

Definition NewRWTree (db : bytes) (cacheSize : Z) : M World loc :=
  fun w =>
    let t := alloc (dom (heap w)) in
    (Ok t, set_heap (insert t (mkRWTree db [] 0 false)) w).

Definition RWTree_Get (t : loc) (key : bytes) : M World (option bytes) :=
  with_tree t (fun tr => ret (log_get key (tlog tr))).

Definition RWTree_Set (t : loc) (key value : bytes) : M World unit :=
  with_tree t (fun tr =>
    modify (set_heap (insert t
      (mkRWTree (tdb tr) ((key, Some value) :: tlog tr) (tversion tr) true)))).

Definition RWTree_Delete (t : loc) (key : bytes) : M World (bytes * bool) :=
  with_tree t (fun tr =>
    match log_get key (tlog tr) with
    | None => ret ([], false)
    | Some old =>
        modify (set_heap (insert t
          (mkRWTree (tdb tr) ((key, None) :: tlog tr) (tversion tr) true)));;
        ret (old, true)
    end).

Definition RWTree_Updated (t : loc) : M World bool :=
  with_tree t (fun tr => ret (tupdated tr)).

Definition RWTree_Version (t : loc) : M World Z :=
  with_tree t (fun tr => ret (tversion tr)).

Definition RWTree_Save (t : loc) : M World (bytes * Z) :=
  with_tree t (fun tr =>
    let version := tversion tr + 1 in
    if save_fault (tdb tr) version then throw (ErrStore (tdb tr) version)
    else
      modify (set_store (insert (tdb tr, version) (tlog tr)));;
      modify (set_heap (insert t (mkRWTree (tdb tr) (tlog tr) version false)));;
      ret (hashfn (tlog tr), version)).

(** What an overwriting load discards: the versions of the view after
    [version]. *)
Definition discard_later (db : bytes) (version : Z)
    (st : gmap (bytes * Z) log) : gmap (bytes * Z) log :=
  filter (fun kv => ~ (kv.1.1 = db /\ version < kv.1.2)) st.

Definition RWTree_Load (t : loc) (version : Z) (overwriting : bool)
  : M World unit :=
  with_tree t (fun tr =>
    modify (log_load (tdb tr, version, overwriting));;
    w <- get;;
    match store w !! (tdb tr, version) with
    | None => throw (ErrVersionMissing (tdb tr) version)
    | Some l =>
        modify (set_heap (insert t (mkRWTree (tdb tr) l version false)));;
        if overwriting then modify (set_store (discard_later (tdb tr) version))
        else ret tt
    end).

Definition RWTree_GetImmutable (t : loc) (version : Z) : M World loc :=
  with_tree t (fun tr =>
    w <- get;;
    match store w !! (tdb tr, version) with
    | None => throw (ErrVersionMissing (tdb tr) version)
    | Some l =>
        let t' := alloc (dom (heap w)) in
        modify (set_heap (insert t' (mkRWTree (tdb tr) l version false)));;
        ret t'
    end).

End Trees.

(** * The tree cache *)

(** Modelled from the spec: the tree cache is the [lru.Cache] of the
    golang-lru dependency, "a bounded recency-ordered cache (capacity = a
    configured size) mapping namespace identifier to namespace tree
    instance".  The entries are kept most recently used first. *)
Record Cache := mkCache {
  lru_size : Z;
  lru_items : list (bytes * loc);
}.

Definition lru_New (size : Z) : result Cache :=
  if size <=? 0 then Err ErrCacheSize else Ok (mkCache size []).

Fixpoint lru_find (key : bytes) (items : list (bytes * loc)) : option loc :=
  match items with
  | [] => None
  | (k, v) :: items' => if decide (k = key) then Some v else lru_find key items'
  end.

Fixpoint lru_remove (key : bytes) (items : list (bytes * loc))
  : list (bytes * loc) :=
  match items with
  | [] => []
  | (k, v) :: items' =>
      if decide (k = key) then items' else (k, v) :: lru_remove key items'
  end.

(** [Get]: a hit moves the entry to the front. *)
Definition lru_Get (key : bytes) (c : Cache) : option loc * Cache :=
  match lru_find key (lru_items c) with
  | Some v => (Some v, mkCache (lru_size c) ((key, v) :: lru_remove key (lru_items c)))
  | None => (None, c)
  end.

(** [Add]: an existing key is updated and moved to the front; a new one is
    pushed to the front and the oldest entry leaves when the capacity is
    exceeded. *)
Definition lru_Add (key : bytes) (value : loc) (c : Cache) : Cache :=
  match lru_find key (lru_items c) with
  | Some _ => mkCache (lru_size c) ((key, value) :: lru_remove key (lru_items c))
  | None =>
      let items := (key, value) :: lru_items c in
      if lru_size c <? Z.of_nat (length items)
      then mkCache (lru_size c) (removelast items)
      else mkCache (lru_size c) items
  end.

(** * forest.go *)

Definition commitsPrefix : bytes := bz "c".
Definition treePrefix : bytes := bz "t".

Record ImmutableForest := mkImmutableForest {
  (* Store of tree prefix -> last commitID *)
  imf_commitsTree : loc;
  treeDB : bytes;
  (* Cache for frequently used trees *)
  treeCache : Cache;
  cacheSize : Z;
  (* Whether LoadVersionForOverwriting is used on the underlying trees *)
  overwriting : bool;
}.

Record MutableForest := mkMutableForest {
  (* A tree containing a reference for all contained trees *)
  commitsTree : loc;
  (* The embedded *ImmutableForest *)
  imf : ImmutableForest;
  (* Map of prefix -> tree for trees that may require a save *)
  dirty : gmap bytes loc;
  (* List of dirty prefixes in deterministic order *)
  dirtyPrefixes : list bytes;
}.

Definition ForestOption : Type := ImmutableForest -> ImmutableForest.

Definition WithOverwriting : ForestOption :=
  fun imf =>
    mkImmutableForest (imf_commitsTree imf) (treeDB imf) (treeCache imf)
      (cacheSize imf) true.

Definition set_treeCache (f : Cache -> Cache) (imf : ImmutableForest)
  : ImmutableForest :=
  mkImmutableForest (imf_commitsTree imf) (treeDB imf) (f (treeCache imf))
    (cacheSize imf) (overwriting imf).

Definition set_imf (f : ImmutableForest -> ImmutableForest) (muf : MutableForest)
  : MutableForest :=
  mkMutableForest (commitsTree muf) (f (imf muf)) (dirty muf) (dirtyPrefixes muf).

Definition set_dirty (d : gmap bytes loc) (ps : list bytes) (muf : MutableForest)
  : MutableForest :=
  mkMutableForest (commitsTree muf) (imf muf) d ps.

(** State of the methods of [*ImmutableForest] and of [*MutableForest]. *)
Abbreviation IState := (ImmutableForest * World)%type.
Abbreviation MState := (MutableForest * World)%type.

(** A method of the embedded [*ImmutableForest] called on the
    [*MutableForest]. *)
Definition promoted {A} (m : M IState A) : M MState A :=
  fun '(muf, w) =>
    let '(r, (imf', w')) := m (imf muf, w) in
    (r, (set_imf (fun _ => imf') muf, w')).

Definition NewImmutableForest (commitsTree : loc) (treeDB : bytes)
    (cacheSize : Z) (options : list ForestOption) : result ImmutableForest :=
  match lru_New cacheSize with
  | Err err => Err (Errorf "NewImmutableForest() could not create cache" err)
  | Ok cache =>
      let imf := mkImmutableForest commitsTree treeDB cache cacheSize false in
      Ok (fold_left (fun imf opt => opt imf) options imf)
  end.

Section Forest.
Context {collab : Collab} {allocator : Allocator}.

Definition NewMutableForest (db : bytes) (cacheSize : Z) : M World MutableForest :=
  commitsTree <- NewRWTree (NewPrefixDB db commitsPrefix) cacheSize;;
  forest <- lift_result (NewImmutableForest commitsTree
              (NewPrefixDB db treePrefix) cacheSize [WithOverwriting]);;
  ret (mkMutableForest commitsTree forest ∅ []).

(** ** ImmutableForest: the shared implementation *)

(** Create a new in-memory tree *)
Definition newTree (prefix : bytes) : M IState loc :=
  s <- get;;
  tree <- inWorld (NewRWTree (NewPrefixDB (treeDB s.1) prefix) (cacheSize s.1));;
  modify (fun s : IState => (set_treeCache (lru_Add prefix tree) s.1, s.2));;
  ret tree.

Definition commitID (prefix : bytes) : M IState Codec.CommitID :=
  s <- get;;
  bs <- inWorld (RWTree_Get (imf_commitsTree s.1) prefix);;
  match bs with
  | None => ret Codec.zeroCommitID
  | Some bs =>
      wrap "could not get commitID for prefix"
        (lift_result (Codec.unmarshalCommitID bs))
  end.

Definition loadOrCreateTree (prefix : bytes) : M IState loc :=
  let errHeader := "ImmutableForest.loadOrCreateTree():"%string in
  tree <- newTree prefix;;
  commitID <- wrap errHeader (commitID prefix);;
  if Codec.Version commitID =? 0 then
    (* This is the first time we have been asked to load this tree *)
    newTree prefix
  else
    s <- get;;
    wrap (errHeader +:+ " could not load tree")
      (inWorld (RWTree_Load tree (Codec.Version commitID) (overwriting s.1)));;
    ret tree.

(** Lazy load tree *)
Definition tree (prefix : bytes) : M IState loc :=
  s <- get;;
  match lru_Get prefix (treeCache s.1) with
  | (Some value, cache) =>
      modify (fun s : IState => (set_treeCache (fun _ => cache) s.1, s.2));;
      ret value
  | (None, _) => loadOrCreateTree prefix
  end.

(** Get the tree at prefix for making reads *)
Definition Reader (prefix : bytes) : M IState loc := tree prefix.

(** ** MutableForest *)

(** Load mutable forest from database *)
Definition Load (version : Z) : M MState unit :=
  s <- get;;
  inWorld (RWTree_Load (commitsTree s.1) version true).

Definition setCommit (prefix hash : bytes) (version : Z) : M MState unit :=
  match Codec.marshalCommitID hash version with
  | Err err =>
      throw (Errorf "MutableForest.setCommit() could not marshal CommitID" err)
  | Ok None => throw ErrNilValue
  | Ok (Some bs) =>
      s <- get;;
      inWorld (RWTree_Set (commitsTree s.1) prefix bs)
  end.

Definition saveTree (prefix : bytes) (tree : loc) : M MState unit :=
  hv <- wrap "MutableForest.saveTree() could not save tree"
          (inWorld (RWTree_Save tree));;
  setCommit prefix hv.1 hv.2.

(** The loop of [Save]: [for _, prefix := range muf.dirtyPrefixes]. *)
Fixpoint Save_loop (prefixes : list bytes) : M MState unit :=
  match prefixes with
  | [] => ret tt
  | prefix :: prefixes' =>
      s <- get;;
      match dirty s.1 !! prefix with
      | None => throw ErrNilValue
      | Some tree =>
          updated <- inWorld (RWTree_Updated tree);;
          (if updated : bool then saveTree prefix tree else ret tt);;
          Save_loop prefixes'
      end
  end.

Definition Save : M MState (bytes * Z) :=
  s <- get;;
  (* Save each tree in forest that requires save *)
  Save_loop (dirtyPrefixes s.1);;
  (* empty dirty cache *)
  modify (fun s : MState => (set_dirty ∅ [] s.1, s.2));;
  inWorld (RWTree_Save (commitsTree s.1)).

Definition GetImmutable (version : Z) : M MState ImmutableForest :=
  s <- get;;
  commitsTree <- wrap "MutableForest.GetImmutable() could not get commits tree"
                   (inWorld (RWTree_GetImmutable (commitsTree s.1) version));;
  lift_result (NewImmutableForest commitsTree (treeDB (imf s.1))
                 (cacheSize (imf s.1)) []).

(** Calls to writer should be serialised as should writes to the tree *)
Definition Writer (prefix : bytes) : M MState loc :=
  s <- get;;
  (* Try dirty cache first *)
  match dirty s.1 !! prefix with
  | Some tree => ret tree
  | None =>
      tree <- promoted (tree prefix);;
      (* Mark tree as dirty *)
      modify (fun s : MState =>
        (set_dirty (<[prefix := tree]> (dirty s.1))
                   (dirtyPrefixes s.1 ++ [prefix]) s.1, s.2));;
      ret tree
  end.

(** Delete a tree - if the tree exists will return the CommitID of the
    latest saved version *)
Definition Delete (prefix : bytes) : M MState (option Codec.CommitID) :=
  s <- get;;
  r <- inWorld (RWTree_Delete (commitsTree s.1) prefix);;
  if negb r.2 then ret None
  else
    match Codec.unmarshalCommitID r.1 with
    | Err err => throw err
    | Ok commitID => ret (Some commitID)
    end.

(** Get the current global version for all versions of all trees *)
Definition Version : M MState Z :=
  s <- get;;
  inWorld (RWTree_Version (commitsTree s.1)).

End Forest.

(** * Well-formed forests *)

(** The tree instance registered for a prefix in the dirty map. *)
Definition dirty_tree (muf : MutableForest) (w : World) (prefix : bytes)
  : option RWTree :=
  match dirty muf !! prefix with
  | Some t => heap w !! t
  | None => None
  end.

(** The instance at [t] is a tree of the namespace [prefix] of the forest:
    it persists to the namespace's own view of the tree store. *)
Definition tree_for (treeDB prefix : bytes) (w : World) (t : loc) : Prop :=
  exists tr, heap w !! t = Some tr /\ tdb tr = NewPrefixDB treeDB prefix.

(** What holds of every forest built by [NewMutableForest] and used through
    its methods: the embedded forest reads the same commits tree, which is a
    live instance on a view of its own; the dirty-order list enumerates the
    dirty map without repetition; the dirty map and the tree cache hold, for
    a prefix, live trees of that prefix. *)
Record forest_wf (muf : MutableForest) (w : World) : Prop := mk_forest_wf {
  wf_embedded : imf_commitsTree (imf muf) = commitsTree muf;
  wf_commits : exists ctr, heap w !! commitsTree muf = Some ctr /\
                 forall p, tdb ctr <> NewPrefixDB (treeDB (imf muf)) p;
  wf_nodup : NoDup (dirtyPrefixes muf);
  wf_listed : forall p, p ∈ dirtyPrefixes muf <-> is_Some (dirty muf !! p);
  wf_dirty : forall p t, dirty muf !! p = Some t ->
               tree_for (treeDB (imf muf)) p w t;
  wf_cache : forall p t, (p, t) ∈ lru_items (treeCache (imf muf)) ->
               tree_for (treeDB (imf muf)) p w t;
}.

(** Every live tree is still live, on the same view of the store. *)
Definition heap_ext (w w' : World) : Prop :=
  forall t tr, heap w !! t = Some tr ->
    exists tr', heap w' !! t = Some tr' /\ tdb tr' = tdb tr.

(** The tree cache holds, for a prefix, live trees of that prefix. *)
Definition cache_ok (imf : ImmutableForest) (w : World) : Prop :=
  forall p t, (p, t) ∈ lru_items (treeCache imf) -> tree_for (treeDB imf) p w t.

(** What resolving a tree keeps and what it gives. *)
Record resolved (prefix : bytes) (imf : ImmutableForest) (w : World)
    (r : result loc) (imf' : ImmutableForest) (w' : World) : Prop := mk_resolved {
  rs_ext : heap_ext w w';
  rs_cache : cache_ok imf' w';
  rs_commits : imf_commitsTree imf' = imf_commitsTree imf;
  rs_treeDB : treeDB imf' = treeDB imf;
  rs_size : cacheSize imf' = cacheSize imf;
  rs_overwriting : overwriting imf' = overwriting imf;
  rs_tree : forall t, r = Ok t -> tree_for (treeDB imf) prefix w' t;
}.

(** The same, as a check that can be run on a concrete forest. *)
Definition tree_forb (treeDB prefix : bytes) (w : World) (t : loc) : bool :=
  match heap w !! t with
  | Some tr => bool_decide (tdb tr = NewPrefixDB treeDB prefix)
  | None => false
  end.

Definition forest_wfb (muf : MutableForest) (w : World) : bool :=
  bool_decide (imf_commitsTree (imf muf) = commitsTree muf)
  && match heap w !! commitsTree muf with
     | Some ctr => negb (bool_decide (treeDB (imf muf) `prefix_of` tdb ctr))
     | None => false
     end
  && bool_decide (NoDup (dirtyPrefixes muf))
  && bool_decide (dom (dirty muf) = list_to_set (dirtyPrefixes muf))
  && forallb (fun p => match dirty muf !! p with
                       | Some t => tree_forb (treeDB (imf muf)) p w t
                       | None => false
                       end) (dirtyPrefixes muf)
  && forallb (fun pt : bytes * loc => tree_forb (treeDB (imf muf)) pt.1 w pt.2)
       (lru_items (treeCache (imf muf))).

(** The tree a namespace starts from. *)
Definition emptyTree (treeDB prefix : bytes) : RWTree :=
  mkRWTree (NewPrefixDB treeDB prefix) [] 0 false.

(** The world after a load of the tree at [t] that found its version. *)
Definition loaded (t : loc) (tr : RWTree) (l : log) (version : Z)
    (overwriting : bool) (w : World) : World :=
  mkWorld (<[t := mkRWTree (tdb tr) l version false]> (heap w))
    (if overwriting then discard_later (tdb tr) version (store w) else store w)
    ((tdb tr, version, overwriting) :: loads w).

(** The world with the tree instance at [t] replaced. *)
Definition poke (t : loc) (tr : RWTree) (w : World) : World :=
  set_heap (insert t tr) w.

(** * What Save leaves behind *)

(** A tree as its own [Save] leaves it. *)
Definition saved (tr : RWTree) : RWTree :=
  mkRWTree (tdb tr) (tlog tr) (tversion tr + 1) false.

Section SaveEffect.
Context {collab : Collab}.

(** The entry the loop of [Save] writes into the commits tree for a dirty
    prefix: none unless its tree reports [Updated()]. *)
Definition commit_entry (muf : MutableForest) (w : World) (prefix : bytes)
  : option (bytes * option bytes) :=
  match dirty_tree muf w prefix with
  | Some tr =>
      if tupdated tr then
        match Codec.marshalCommitID (hashfn (tlog tr)) (tversion tr + 1) with
        | Ok (Some bs) => Some (prefix, Some bs)
        | _ => None
        end
      else None
  | None => None
  end.

(** The entries written for a list of prefixes taken in order; as in a
    tree's contents the most recent comes first. *)
Definition commit_entries (muf : MutableForest) (w : World) (prefixes : list bytes)
  : log :=
  rev (omap (commit_entry muf w) prefixes).

(** Whether the store refuses the save of the tree of a dirty prefix. *)
Definition save_refused (muf : MutableForest) (w : World) (prefix : bytes) : bool :=
  match dirty_tree muf w prefix with
  | Some tr => tupdated tr && save_fault (tdb tr) (tversion tr + 1)
  | None => false
  end.

(** The commits tree counts as updated once an entry has been written. *)
Definition touched (entries : log) (updated : bool) : bool :=
  match entries with [] => updated | _ :: _ => true end.

(** The prefixes [ps] have, in the dirty map, live trees of their own that
    are not the commits tree. *)
Definition listed (muf : MutableForest) (w : World) (ps : list bytes) : Prop :=
  forall p, p ∈ ps ->
    exists t tr, dirty muf !! p = Some t /\ heap w !! t = Some tr /\
                 tdb tr = NewPrefixDB (treeDB (imf muf)) p /\
                 t <> commitsTree muf.

(** The world [w] reached from [w0] once the loop of [Save] has gone through
    the prefixes [done]: the commits tree (initially [ctr0]) has received
    their entries and nothing else, at the same version; their trees that
    were updated have been saved and persisted, the others and everything
    else are as they were. *)
Record loop_inv (muf : MutableForest) (w0 : World) (ctr0 : RWTree)
    (done : list bytes) (w : World) : Prop := mk_loop_inv {
  li_loads : loads w = loads w0;
  li_commits :
    heap w !! commitsTree muf
    = Some (mkRWTree (tdb ctr0) (commit_entries muf w0 done ++ tlog ctr0)
              (tversion ctr0)
              (touched (commit_entries muf w0 done) (tupdated ctr0)));
  li_frame : forall t, t <> commitsTree muf ->
    (forall p, p ∈ done -> dirty muf !! p <> Some t) ->
    heap w !! t = heap w0 !! t;
  li_trees : forall p t tr, p ∈ done ->
    dirty muf !! p = Some t -> heap w0 !! t = Some tr ->
    heap w !! t = Some (if tupdated tr then saved tr else tr);
  li_stored : forall p t tr, p ∈ done ->
    dirty muf !! p = Some t -> heap w0 !! t = Some tr -> tupdated tr = true ->
    store w !! (tdb tr, tversion tr + 1) = Some (tlog tr);
  li_store_frame : forall k,
    (forall p tr, p ∈ done -> dirty_tree muf w0 p = Some tr ->
       tupdated tr = true -> k <> (tdb tr, tversion tr + 1)) ->
    store w !! k = store w0 !! k;
  li_accepted : forall p, p ∈ done -> save_refused muf w0 p = false;
}.

End SaveEffect.

(** * Sequences of calls *)

(** What a caller does with a forest between its creation and a Save:
    acquire a writer, mutate a key through it, and save. *)
Inductive op :=
| OpWriter (prefix : bytes)               (* forest.Writer(prefix) *)
| OpSet (prefix key value : bytes)        (* forest.Writer(prefix).Set(key, value) *)
| OpDelete (prefix key : bytes)           (* forest.Writer(prefix).Delete(key) *)
| OpSave.                                 (* forest.Save() *)

Section Scripts.
Context {collab : Collab} {allocator : Allocator}.
Local Open Scope monad_scope.

(** One call; a Save yields the global hash and version. *)
Definition run_op (o : op) : M MState (option (bytes * Z)) :=
  match o with
  | OpWriter prefix => Writer prefix;; ret None
  | OpSet prefix key value =>
      t <- Writer prefix;; inWorld (RWTree_Set t key value);; ret None
  | OpDelete prefix key =>
      t <- Writer prefix;; inWorld (RWTree_Delete t key);; ret None
  | OpSave => hv <- Save;; ret (Some hv)
  end.

(** A sequence of calls, stopped by the first error; the result is what
    the Saves returned, in order. *)
Fixpoint run_ops (ops : list op) : M MState (list (bytes * Z)) :=
  match ops with
  | [] => ret []
  | o :: ops' =>
      r <- run_op o;;
      rs <- run_ops ops';;
      ret (match r with Some hv => hv :: rs | None => rs end)
  end.

(** A run: a forest is created on the store and the calls are made. *)
Definition session (db : bytes) (cacheSize : Z) (ops : list op)
  : M World (list (bytes * Z)) :=
  fun w =>
    match NewMutableForest db cacheSize w with
    | (Ok muf, w') => let '(r, s) := run_ops ops (muf, w') in (r, s.2)
    | (Err e, w') => (Err e, w')
    end.

End Scripts.

(** The prefix a call acquires a writer for. *)
Definition op_prefix (o : op) : option bytes :=
  match o with
  | OpWriter prefix | OpSet prefix _ _ | OpDelete prefix _ => Some prefix
  | OpSave => None
  end.

(** The prefixes in the order in which they were first met. *)
Definition touch (ps : list bytes) (p : bytes) : list bytes :=
  if decide (p ∈ ps) then ps else ps ++ [p].

Definition first_touched (ops : list op) : list bytes :=
  fold_left touch (omap op_prefix ops) [].

(** * Any use of a forest *)

(** The calls a client can make on a mutable forest and on the trees it
    hands out: those of [op], the other methods of the forest, and writes
    through a tree handle kept from an earlier call. *)
Inductive call :=
| CallOp (o : op)
| CallReader (prefix : bytes)             (* forest.Reader(prefix) *)
| CallDelete (prefix : bytes)             (* forest.Delete(prefix) *)
| CallLoad (version : Z)                  (* forest.Load(version) *)
| CallGetImmutable (version : Z)          (* forest.GetImmutable(version) *)
| CallTreeSet (t : loc) (key value : bytes)   (* tree.Set(key, value) *)
| CallTreeDelete (t : loc) (key : bytes).     (* tree.Delete(key) *)

Section Calls.
Context {collab : Collab} {allocator : Allocator}.
Local Open Scope monad_scope.

Definition run_call (c : call) : M MState unit :=
  match c with
  | CallOp o => run_op o;; ret tt
  | CallReader prefix => promoted (Reader prefix);; ret tt
  | CallDelete prefix => Delete prefix;; ret tt
  | CallLoad version => Load version
  | CallGetImmutable version => GetImmutable version;; ret tt
  | CallTreeSet t key value => inWorld (RWTree_Set t key value)
  | CallTreeDelete t key => inWorld (RWTree_Delete t key);; ret tt
  end.

(** The state after a sequence of calls, whether they succeed or fail: an
    error is returned to the client, which goes on with the same forest. *)
Definition run_calls (calls : list call) (s : MState) : MState :=
  fold_left (fun s c => (run_call c s).2) calls s.

End Calls.

(** * Two runs side by side *)

(** Two runs of the same calls need not receive the same addresses from the
    runtime.  A renaming pairs the addresses of the first run with those of
    the second. *)
Abbreviation renaming := (gmap loc loc).

Definition Rloc (f : renaming) (l1 l2 : loc) : Prop := f !! l1 = Some l2.

Definition Req {A} (f : renaming) (a b : A) : Prop := a = b.

(** The worlds agree up to the renaming: same store, same loads, and paired
    addresses hold the same tree. *)
Record sim_world (f : renaming) (w1 w2 : World) : Prop := mk_sim_world {
  sw_store : store w1 = store w2;
  sw_loads : loads w1 = loads w2;
  sw_heap : forall l1 l2, f !! l1 = Some l2 ->
    is_Some (heap w1 !! l1) /\ heap w1 !! l1 = heap w2 !! l2;
  sw_inj : forall l1 l1' l2, f !! l1 = Some l2 -> f !! l1' = Some l2 -> l1 = l1';
}.

Definition sim_entry (f : renaming) (e1 e2 : bytes * loc) : Prop :=
  e1.1 = e2.1 /\ f !! e1.2 = Some e2.2.

Record sim_imf (f : renaming) (i1 i2 : ImmutableForest) : Prop := mk_sim_imf {
  si_commits : f !! imf_commitsTree i1 = Some (imf_commitsTree i2);
  si_treeDB : treeDB i1 = treeDB i2;
  si_cacheSize : cacheSize i1 = cacheSize i2;
  si_overwriting : overwriting i1 = overwriting i2;
  si_size : lru_size (treeCache i1) = lru_size (treeCache i2);
  si_items : Forall2 (sim_entry f) (lru_items (treeCache i1))
               (lru_items (treeCache i2));
}.

Record sim_muf (f : renaming) (m1 m2 : MutableForest) : Prop := mk_sim_muf {
  sm_commits : f !! commitsTree m1 = Some (commitsTree m2);
  sm_imf : sim_imf f (imf m1) (imf m2);
  sm_prefixes : dirtyPrefixes m1 = dirtyPrefixes m2;
  sm_dirty : forall p, option_Forall2 (Rloc f) (dirty m1 !! p) (dirty m2 !! p);
}.

Definition sim_istate (f : renaming) (s1 s2 : IState) : Prop :=
  sim_imf f s1.1 s2.1 /\ sim_world f s1.2 s2.2.

Definition sim_mstate (f : renaming) (s1 s2 : MState) : Prop :=
  sim_muf f s1.1 s2.1 /\ sim_world f s1.2 s2.2.

(** Results agree: the same error, or values that agree. *)
Definition sim_result {A} (RA : renaming -> A -> A -> Prop) (f : renaming)
    (r1 r2 : result A) : Prop :=
  match r1, r2 with
  | Ok a1, Ok a2 => RA f a1 a2
  | Err e1, Err e2 => e1 = e2
  | _, _ => False
  end.

(** Two computations agree from a renaming on: run in states that agree up
    to an extension of it, they leave states and results that agree up to a
    further extension. *)
Definition sim {S A} (RS : renaming -> S -> S -> Prop)
    (RA : renaming -> A -> A -> Prop) (f : renaming) (m1 m2 : M S A) : Prop :=
  forall f0 s1 s2, f ⊆ f0 -> RS f0 s1 s2 ->
    exists f', f0 ⊆ f' /\ RS f' (m1 s1).2 (m2 s2).2 /\
               sim_result RA f' (m1 s1).1 (m2 s2).1.

(** * Concrete collaborators, for worked examples *)

(** A stand-in for the Merkle hash: the bytes of the writes, in order. *)
Definition example_hash (l : log) : bytes :=
  concat (map (fun kv : bytes * option bytes => kv.1 ++ default [] kv.2) l).

(** A store that persists everything. *)
Definition reliable : Collab :=
  {| hashfn := example_hash; save_fault := fun _ _ => false |}.

(** A store that refuses to persist the view [db]. *)
Definition failing (db : bytes) : Collab :=
  {| hashfn := example_hash; save_fault := fun d _ => bool_decide (d = db) |}.

(** Addresses handed out in increasing order. *)
Definition bump : Allocator :=
  {| alloc := fun live => fresh live; alloc_fresh := is_fresh |}.

(** Another allocator: it skips ten addresses at a time. *)
Definition sparse : Allocator.
Proof.
  refine {| alloc := fun live =>
              (10 + fresh (live ∪ set_map (fun l => l - 10)%nat live))%nat |}.
  intros live Hin.
  apply (is_fresh (live ∪ set_map (fun l => l - 10)%nat live)).
  apply elem_of_union_r. apply elem_of_map.
  eexists. split; [|exact Hin]. lia.
Defined.

Definition emptyWorld : World := mkWorld ∅ ∅ [].

(** The state a computation leaves behind. *)
Definition exec {S A} (m : M S A) (s : S) : S := (m s).2.

(** The tree instance at an address, if any. *)
Definition peek (t : loc) (w : World) : option RWTree := heap w !! t.

(** What [NewMutableForest [] cacheSize] builds in the empty world with the
    [bump] allocator: the commits tree at address 0. *)
Definition newForest (cacheSize : Z) : MState :=
  (mkMutableForest 0%nat
     (mkImmutableForest 0%nat (bz "t") (mkCache cacheSize []) cacheSize true)
     ∅ [],
   mkWorld {[ 0%nat := mkRWTree (bz "c") [] 0 false ]} ∅ []).

(** [Writer(prefix).Set(key, value)] *)
Definition WriterSet {allocator : Allocator} (prefix key value : bytes)
  : M MState unit :=
  (t <- Writer prefix;; inWorld (RWTree_Set t key value))%monad.

Section ExampleForests.
Local Existing Instance reliable.
Local Existing Instance bump.

(** A forest of capacity 2 after [Writer("a").Set("k", "v")] and
    [Writer("b").Set("k", "w")]: the trees are at addresses 2 and 4. *)
Definition twoDirty : MState :=
  exec (WriterSet (bz "a") (bz "k") (bz "v");;
        WriterSet (bz "b") (bz "k") (bz "w"))%monad (newForest 2).

(** The same forest after a Save that went through. *)
Definition committed : MState := exec Save twoDirty.

(** A forest of capacity 1 after [Writer("a").Set("k", "v")] and then
    [Reader("b")], which pushes the tree of "a" out of the tree cache. *)
Definition evicted : MState :=
  exec (WriterSet (bz "a") (bz "k") (bz "v");;
        promoted (Reader (bz "b")))%monad (newForest 1).

(** Calls of one epoch: "b" is acquired first, then "a", then "b" again. *)
Definition oneEpoch : list op :=
  [OpSet (bz "b") (bz "k") (bz "w"); OpSet (bz "a") (bz "k") (bz "v");
   OpWriter (bz "b")].

(** The same calls, a Save, a deletion and another Save. *)
Definition twoEpochs : list op :=
  oneEpoch ++ [OpSave; OpDelete (bz "a") (bz "k"); OpSave].

(** What the commits tree of [committed] holds. *)
Definition commitsLog : log :=
  [(bz "b", Some [8; 1; 18; 2; 107; 119]); (bz "a", Some [8; 1; 18; 2; 107; 118])].

(** A second forest on the database of [committed], as NewMutableForest
    builds it and [Load(1)] leaves it: its commits tree is at address 5. *)
Definition reopened : MState :=
  (mkMutableForest 5%nat
     (mkImmutableForest 5%nat (bz "t") (mkCache 2 []) 2 true) ∅ [],
   mkWorld (<[5%nat := mkRWTree (bz "c") commitsLog 1 false]> (heap committed.2))
     (store committed.2) [(bz "c", 1, true)]).

(** The same forest on a database that has lost version 1 of the
    namespace "a". *)
Definition orphaned : MState :=
  (reopened.1, set_store (delete (bz "ta", 1)) reopened.2).

(** Calls of every kind, some of which fail. *)
Definition anyUse : list call :=
  [CallOp (OpSet (bz "a") (bz "k") (bz "v")); CallReader (bz "b");
   CallGetImmutable 7; CallOp OpSave; CallTreeSet 2%nat (bz "k") (bz "w");
   CallLoad 1; CallDelete (bz "a"); CallTreeDelete 9%nat (bz "k");
   CallOp (OpWriter (bz "a")); CallGetImmutable 1; CallLoad 3].

End ExampleForests.
(** * Properties of the CommitID serialisation *)

Section CodecFacts.
Import Codec.

Lemma land_low_high (x k s : Z) :
  0 <= s -> 0 <= x < 2 ^ s -> Z.land x (k * 2 ^ s) = 0.
Proof.
  intros Hs Hx. apply Z.bits_inj'. intros i Hi.
  rewrite Z.land_spec, Z.bits_0.
  destruct (Z.lt_ge_cases i s) as [Hlt | Hge].
  - rewrite Z.mul_pow2_bits_low by lia. apply andb_false_r.
  - rewrite <- (Z.mod_small x (2 ^ s)) by lia.
    rewrite Z.mod_pow2_bits_high by lia. reflexivity.
Qed.

Lemma lor_low_high (x k s : Z) :
  0 <= s -> 0 <= x < 2 ^ s -> Z.lor x (k * 2 ^ s) = x + k * 2 ^ s.
Proof.
  intros Hs Hx. pose proof (land_low_high x k s Hs Hx) as Hd.
  rewrite <- (Z.lxor_lor _ _ Hd). symmetry. apply Z.add_nocarry_lxor, Hd.
Qed.

Lemma land_127 (x : Z) : Z.land x 127 = x mod 128.
Proof. change 127 with (Z.ones 7). rewrite Z.land_ones by lia. reflexivity. Qed.

Lemma continuation_byte (m : Z) :
  0 <= m < 128 -> Z.lor 128 m = 128 + m.
Proof.
  intros Hm. rewrite Z.lor_comm.
  change (Z.lor m 128) with (Z.lor m (1 * 2 ^ 7)).
  rewrite (lor_low_high m 1 7) by lia. change (1 * 2 ^ 7) with 128. lia.
Qed.

Lemma uint64_small (x : Z) : 0 <= x < 2 ^ 64 -> uint64 x = x.
Proof. intros Hx. unfold uint64. apply Z.mod_small, Hx. Qed.

Lemma int64_uint64 (v : Z) : - 2 ^ 63 <= v < 2 ^ 63 -> int64 (uint64 v) = v.
Proof.
  intros Hv. unfold int64, uint64. rewrite Z.mod_mod by lia.
  destruct (Z.ltb_spec (v mod 2 ^ 64) (2 ^ 63)) as [Hlt | Hge].
  - destruct (Z.lt_ge_cases v 0) as [Hn | Hp].
    + rewrite <- (Z.mod_add v 1 (2 ^ 64)) in Hlt by lia.
      rewrite Z.mod_small in Hlt by lia. lia.
    + apply Z.mod_small. lia.
  - destruct (Z.lt_ge_cases v 0) as [Hn | Hp].
    + rewrite <- (Z.mod_add v 1 (2 ^ 64)) by lia.
      rewrite Z.mod_small by lia. lia.
    + rewrite Z.mod_small in Hge by lia. lia.
Qed.

(** The decoding loop inverts the encoding loop, whatever follows in the
    buffer, as long as the decoder has one more round than the encoder and
    the accumulated value stays below 2^64. *)
Lemma DecodeVarint_loop_Encode (fe : nat) :
  forall (fd : nat) (shift x n : Z) (rest : bytes),
    (fe < fd)%nat -> 0 <= shift -> 0 <= x < 2 ^ shift ->
    0 <= n < 2 ^ (7 * Z.of_nat fe + 7) ->
    x + n * 2 ^ shift < 2 ^ 64 ->
    DecodeVarint_loop fd shift x (EncodeVarint_loop fe n ++ rest)
    = Ok (x + n * 2 ^ shift, rest).
Proof.
  assert (Hlast : forall fd shift x n rest,
             (0 < fd)%nat -> 0 <= shift -> 0 <= x < 2 ^ shift ->
             0 <= n < 128 -> x + n * 2 ^ shift < 2 ^ 64 ->
             DecodeVarint_loop fd shift x ([n] ++ rest)
             = Ok (x + n * 2 ^ shift, rest)).
  { intros fd shift x n rest Hfd Hs Hx Hn Hb.
    destruct fd as [|fd]; [lia|]. simpl.
    destruct (Z.ltb_spec n 128) as [_|]; [|lia].
    rewrite land_127, Z.mod_small by lia.
    rewrite Z.shiftl_mul_pow2 by lia.
    assert (0 <= n * 2 ^ shift) by (apply Z.mul_nonneg_nonneg; lia).
    rewrite uint64_small by lia.
    rewrite lor_low_high by lia. reflexivity. }
  induction fe as [|fe IH]; intros fd shift x n rest Hfd Hs Hx Hn Hb.
  - simpl EncodeVarint_loop. apply Hlast; try lia.
  - cbn [EncodeVarint_loop].
    destruct (Z.ltb_spec 127 n) as [Hbig | Hsmall].
    2:{ apply Hlast; lia. }
    destruct fd as [|fd]; [lia|].
    assert (Hm : 0 <= n mod 128 < 128) by (apply Z.mod_pos_bound; lia).
    cbn [app DecodeVarint_loop].
    rewrite land_127, continuation_byte by exact Hm.
    destruct (Z.ltb_spec (128 + n mod 128) 128) as [|_]; [lia|].
    rewrite land_127.
    replace ((128 + n mod 128) mod 128) with (n mod 128).
    2:{ replace (128 + n mod 128) with (n mod 128 + 1 * 128) by lia.
        rewrite Z.mod_add by lia. rewrite Z.mod_mod by lia. reflexivity. }
    rewrite Z.shiftl_mul_pow2 by lia.
    rewrite Z.shiftr_div_pow2 by lia. change (2 ^ 7) with 128.
    assert (Hpow : 2 ^ (shift + 7) = 128 * 2 ^ shift).
    { rewrite Z.pow_add_r by lia. change (2 ^ 7) with 128. lia. }
    assert (Hp : 0 < 2 ^ shift) by (apply Z.pow_pos_nonneg; lia).
    assert (Hdm : n = 128 * (n / 128) + n mod 128) by (apply Z.div_mod; lia).
    assert (Hq : 0 <= n / 128) by (apply Z.div_pos; lia).
    assert (Hlow : 0 <= n mod 128 * 2 ^ shift) by (apply Z.mul_nonneg_nonneg; lia).
    assert (Hhigh : 0 <= n / 128 * (128 * 2 ^ shift)) by (apply Z.mul_nonneg_nonneg; lia).
    assert (Hsplit : n * 2 ^ shift
                     = n mod 128 * 2 ^ shift + n / 128 * (128 * 2 ^ shift)).
    { rewrite Hdm at 1. ring. }
    rewrite uint64_small by lia.
    rewrite lor_low_high by lia.
    rewrite IH.
    + f_equal. f_equal. rewrite Hpow. lia.
    + lia.
    + lia.
    + rewrite Hpow. split; [lia|].
      assert (n mod 128 * 2 ^ shift <= 127 * 2 ^ shift)
        by (apply Z.mul_le_mono_nonneg_r; lia).
      lia.
    + split; [exact Hq|].
      apply Z.div_lt_upper_bound; [lia|].
      replace (7 * Z.of_nat (S fe) + 7) with (7 + (7 * Z.of_nat fe + 7)) in Hn by lia.
      rewrite Z.pow_add_r in Hn by lia. change (2 ^ 7) with 128 in Hn. lia.
    + rewrite Hpow. lia.
Qed.

Lemma DecodeVarint_Encode (n : Z) (rest : bytes) :
  0 <= n < 2 ^ 64 ->
  DecodeVarint (EncodeVarint n ++ rest) = Ok (n, rest).
Proof.
  intros Hn. unfold DecodeVarint, EncodeVarint.
  rewrite uint64_small by exact Hn.
  rewrite DecodeVarint_loop_Encode.
  - f_equal. f_equal. change (2 ^ 0) with 1. lia.
  - lia.
  - lia.
  - change (2 ^ 0) with 1. lia.
  - change (7 * Z.of_nat 9 + 7) with 70.
    assert (2 ^ 64 < 2 ^ 70) by (apply Z.pow_lt_mono_r; lia). lia.
  - change (2 ^ 0) with 1. lia.
Qed.

Lemma EncodeVarint_uint64 (v : Z) : EncodeVarint (uint64 v) = EncodeVarint v.
Proof. unfold EncodeVarint, uint64. rewrite Z.mod_mod by lia. reflexivity. Qed.

Lemma decodeField_Version (v : Z) (cid : CommitID) (rest : bytes) :
  - 2 ^ 63 <= v < 2 ^ 63 ->
  decodeField (tagVersion :: EncodeVarint v ++ rest) cid
  = Ok (mkCommitID v (Hash cid), rest).
Proof.
  intros Hv. unfold decodeField.
  change (DecodeVarint (tagVersion :: EncodeVarint v ++ rest))
    with (@Ok (Z * bytes) (8, EncodeVarint v ++ rest)).
  change (Z.shiftr 8 3 =? 1) with true. change (Z.land 8 7 =? 0) with true.
  cbv iota beta.
  rewrite <- EncodeVarint_uint64, DecodeVarint_Encode.
  - rewrite int64_uint64 by exact Hv. reflexivity.
  - apply Z.mod_pos_bound. lia.
Qed.

Lemma decodeField_Hash (h : bytes) (cid : CommitID) :
  Z.of_nat (length h) < 2 ^ 64 ->
  decodeField (tagHash :: EncodeVarint (Z.of_nat (length h)) ++ h) cid
  = Ok (mkCommitID (Version cid) h, []).
Proof.
  intros Hh. unfold decodeField.
  change (DecodeVarint (tagHash :: EncodeVarint (Z.of_nat (length h)) ++ h))
    with (@Ok (Z * bytes) (18, EncodeVarint (Z.of_nat (length h)) ++ h)).
  change (Z.shiftr 18 3 =? 1) with false.
  change (Z.shiftr 18 3 =? 2) with true.
  change (Z.land 18 7 =? 2) with true.
  cbv iota beta.
  rewrite DecodeVarint_Encode by lia.
  rewrite Z.ltb_irrefl, Nat2Z.id, firstn_all, drop_all. reflexivity.
Qed.

Lemma decodeFields_nil (fuel : nat) (cid : CommitID) :
  decodeFields fuel [] cid = Ok cid.
Proof. destruct fuel; reflexivity. Qed.

End CodecFacts.

(** Decoding inverts encoding, for any int64 version. *)
Lemma unmarshal_marshal (v : Z) (h : bytes) :
  - 2 ^ 63 <= v < 2 ^ 63 ->
  Z.of_nat (length h) < 2 ^ 63 ->
  exists bs : bytes,
    Codec.marshalCommitID h v = Ok (Some bs) /\
    Codec.unmarshalCommitID bs = Ok (Codec.mkCommitID v h).
Proof.
  intros Hv64 Hh.
  assert (Hh64 : Z.of_nat (length h) < 2 ^ 64).
  { assert (2 ^ 63 < 2 ^ 64) by (apply Z.pow_lt_mono_r; lia). lia. }
  unfold Codec.marshalCommitID, Codec.MarshalBinary, Codec.encodeCommitID.
  cbn [Codec.Version Codec.Hash].
  destruct (Z.eqb_spec v 0) as [-> | Hnz]; destruct h as [|b h'].
  - exists []. split; reflexivity.
  - cbn [length Nat.eqb app]. eexists. split; [reflexivity|].
    unfold Codec.unmarshalCommitID, Codec.UnmarshalBinary.
    cbn [length Codec.decodeFields].
    rewrite (decodeField_Hash (b :: h')) by exact Hh64.
    rewrite decodeFields_nil. reflexivity.
  - cbn [length Nat.eqb app]. eexists. split; [reflexivity|].
    unfold Codec.unmarshalCommitID, Codec.UnmarshalBinary.
    cbn [length Codec.decodeFields].
    rewrite decodeField_Version by exact Hv64.
    rewrite decodeFields_nil. reflexivity.
  - cbn [length Nat.eqb app]. eexists. split; [reflexivity|].
    unfold Codec.unmarshalCommitID, Codec.UnmarshalBinary.
    cbn [length Codec.decodeFields].
    rewrite decodeField_Version by exact Hv64.
    rewrite length_app. cbn [length]. rewrite Nat.add_succ_r.
    cbn [Codec.decodeFields Codec.Hash].
    rewrite (decodeField_Hash (b :: h')) by exact Hh64.
    rewrite decodeFields_nil. reflexivity.
Qed.

(** C8. Round trip: for every version [0 <= v] (an int64) and every byte
    sequence [h], the empty one included, [marshalCommitID h v] succeeds with
    a non-nil buffer and [unmarshalCommitID] of that buffer returns, without
    error, the CommitID with version [v] and hash [h]. *)
Theorem unmarshalCommitID_marshalCommitID (v : Z) (h : bytes) :
  0 <= v < 2 ^ 63 ->
  Z.of_nat (length h) < 2 ^ 63 ->
  exists bs : bytes,
    Codec.marshalCommitID h v = Ok (Some bs) /\
    Codec.unmarshalCommitID bs = Ok (Codec.mkCommitID v h).
Proof. intros Hv Hh. apply unmarshal_marshal; [lia | exact Hh]. Qed.

Lemma unmarshalCommitID_marshalCommitID_witness :
  0 <= 300 < 2 ^ 63 /\ Z.of_nat (length [1; 2; 3]) < 2 ^ 63 /\
  exists bs : bytes,
    Codec.marshalCommitID [1; 2; 3] 300 = Ok (Some bs) /\
    Codec.unmarshalCommitID bs = Ok (Codec.mkCommitID 300 [1; 2; 3]).
Proof.
  split; [lia|]. split; [vm_compute; reflexivity|].
  apply (unmarshalCommitID_marshalCommitID 300 [1; 2; 3]);
    [lia | vm_compute; reflexivity].
Defined.

(** C9. Encoding the zero-value CommitID (version 0, empty hash) succeeds
    with the explicit empty, non-nil byte sequence, the underlying
    [MarshalBinary] having produced nil; and whatever the CommitID,
    [marshalCommitID] never returns a nil buffer: a nil result of
    [MarshalBinary] is always replaced by the empty sequence. *)
Theorem marshalCommitID_zero_non_nil :
  Codec.MarshalBinary Codec.zeroCommitID = Ok None /\
  Codec.marshalCommitID [] 0 = Ok (Some []) /\
  (forall (hash : bytes) (version : Z),
      Codec.marshalCommitID hash version <> Ok None) /\
  (forall (hash : bytes) (version : Z),
      Codec.MarshalBinary (Codec.mkCommitID version hash) = Ok None ->
      Codec.marshalCommitID hash version = Ok (Some [])).
Proof.
  split; [reflexivity|]. split; [reflexivity|]. split.
  - intros hash version. unfold Codec.marshalCommitID.
    destruct (Codec.MarshalBinary _) as [[bs|]|e]; discriminate.
  - intros hash version H. unfold Codec.marshalCommitID. rewrite H. reflexivity.
Qed.
(** * Properties of the forest *)

(** Unfold the monad. *)
Ltac run_monad :=
  cbv [bind ret throw get modify wrap lift_result inWorld promoted with_tree].

(** Rewrite with the equations of the context for as long as one applies,
    reducing the matches they unblock. *)
Ltac settle :=
  repeat (match goal with
          | E : ?l = _ |- context [?l] => rewrite E
          end;
          cbv beta iota;
          cbn [fst snd set_heap set_store log_load heap store loads]).

Section ForestFacts.
Context {collab : Collab} {allocator : Allocator}.
Local Open Scope monad_scope.

(** ** Writer *)

Lemma Writer_dirty (prefix : bytes) (muf : MutableForest) (w : World) (t : loc) :
  dirty muf !! prefix = Some t ->
  Writer prefix (muf, w) = (Ok t, (muf, w)).
Proof. intros Hd. unfold Writer. run_monad. cbn [fst snd]. rewrite Hd. reflexivity. Qed.

Lemma Writer_first (prefix : bytes) (muf : MutableForest) (w : World) :
  dirty muf !! prefix = None ->
  Writer prefix (muf, w) =
  match tree prefix (imf muf, w) with
  | (Ok t, (imf', w')) =>
      (Ok t, (mkMutableForest (commitsTree muf) imf'
                (<[prefix := t]> (dirty muf)) (dirtyPrefixes muf ++ [prefix]), w'))
  | (Err e, (imf', w')) => (Err e, (set_imf (fun _ => imf') muf, w'))
  end.
Proof.
  intros Hd. unfold Writer. run_monad. cbn [fst snd]. rewrite Hd.
  destruct (tree prefix (imf muf, w)) as [[t|e] [imf' w']]; reflexivity.
Qed.

(** C7. Within one write epoch, repeated calls to Writer with the same prefix
    return the exact same tree instance.  Whenever [Writer prefix] succeeds
    with instance [t]: if the prefix was already in the dirty map, [t] is the
    stored instance and nothing at all changed (no tree was resolved, nothing
    was appended to the dirty-order list); otherwise the prefix was appended
    to the dirty-order list, once, and registered in the dirty map; and in
    both cases calling [Writer prefix] again returns [t] and leaves the state
    as it is. *)
Theorem Writer_same_instance (prefix : bytes) (s s' : MState) (t : loc) :
  Writer prefix s = (Ok t, s') ->
  Writer prefix s' = (Ok t, s') /\
  dirty s'.1 !! prefix = Some t /\
  match dirty s.1 !! prefix with
  | Some t0 => t = t0 /\ s' = s
  | None =>
      dirty s'.1 = <[prefix := t]> (dirty s.1) /\
      dirtyPrefixes s'.1 = dirtyPrefixes s.1 ++ [prefix]
  end.
Proof.
  destruct s as [muf w]. intros Hw. cbn [fst snd].
  destruct (dirty muf !! prefix) as [t0|] eqn:Hd.
  - rewrite (Writer_dirty _ _ _ _ Hd) in Hw. inversion Hw; subst.
    split; [apply Writer_dirty, Hd|]. split; [exact Hd|]. split; reflexivity.
  - rewrite (Writer_first _ _ _ Hd) in Hw.
    destruct (tree prefix (imf muf, w)) as [[t1|e] [imf' w']]; [|discriminate].
    inversion Hw; subst. cbn [fst snd dirty dirtyPrefixes].
    split; [|split; [apply lookup_insert_eq | split; reflexivity]].
    apply Writer_dirty. cbn [dirty]. apply lookup_insert_eq.
Qed.

(** Acquiring other prefixes does not disturb an entry of the dirty map. *)
Lemma Writer_keeps_dirty (prefix q : bytes) (s s' : MState) (r : result loc)
    (t : loc) :
  dirty s.1 !! prefix = Some t ->
  Writer q s = (r, s') ->
  dirty s'.1 !! prefix = Some t.
Proof.
  destruct s as [muf w]. cbn [fst]. intros Hp Hw.
  destruct (dirty muf !! q) as [t0|] eqn:Hd.
  - rewrite (Writer_dirty _ _ _ _ Hd) in Hw. inversion Hw; subst. exact Hp.
  - rewrite (Writer_first _ _ _ Hd) in Hw.
    destruct (tree q (imf muf, w)) as [[t1|e] [imf' w']];
      inversion Hw; subst; cbn [fst dirty set_imf]; [|exact Hp].
    rewrite lookup_insert_ne; [exact Hp|]. intros ->. congruence.
Qed.

(** What the constructor builds. *)
Lemma NewMutableForest_eq (db : bytes) (cacheSize : Z) (w : World) :
  NewMutableForest db cacheSize w
  = if cacheSize <=? 0
    then (Err (Errorf "NewImmutableForest() could not create cache" ErrCacheSize),
          set_heap (insert (alloc (dom (heap w)))
                      (mkRWTree (NewPrefixDB db commitsPrefix) [] 0 false)) w)
    else (Ok (mkMutableForest (alloc (dom (heap w)))
                (mkImmutableForest (alloc (dom (heap w))) (NewPrefixDB db treePrefix)
                   (mkCache cacheSize []) cacheSize true)
                ∅ []),
          set_heap (insert (alloc (dom (heap w)))
                      (mkRWTree (NewPrefixDB db commitsPrefix) [] 0 false)) w).
Proof.
  unfold NewMutableForest, NewRWTree, NewImmutableForest, lru_New. run_monad.
  destruct (cacheSize <=? 0); reflexivity.
Qed.

(** ** Resolving a tree *)

Lemma newTree_eq (prefix : bytes) (imf : ImmutableForest) (w : World) :
  newTree prefix (imf, w)
  = (Ok (alloc (dom (heap w))),
     (set_treeCache (lru_Add prefix (alloc (dom (heap w)))) imf,
      set_heap (insert (alloc (dom (heap w)))
                  (mkRWTree (NewPrefixDB (treeDB imf) prefix) [] 0 false)) w)).
Proof. reflexivity. Qed.

Lemma commitID_eq (prefix : bytes) (imf : ImmutableForest) (w : World)
    (ctr : RWTree) :
  heap w !! imf_commitsTree imf = Some ctr ->
  commitID prefix (imf, w)
  = (match log_get prefix (tlog ctr) with
     | None => Ok Codec.zeroCommitID
     | Some bs =>
         match Codec.unmarshalCommitID bs with
         | Ok c => Ok c
         | Err e => Err (Errorf "could not get commitID for prefix" e)
         end
     end, (imf, w)).
Proof.
  intros Hct. unfold commitID, RWTree_Get. run_monad. cbn [fst snd].
  rewrite Hct. destruct (log_get prefix (tlog ctr)) as [bs|]; [|reflexivity].
  destruct (Codec.unmarshalCommitID bs); reflexivity.
Qed.

Lemma alloc_None (h : gmap loc RWTree) : h !! alloc (dom h) = None.
Proof. apply not_elem_of_dom, alloc_fresh. Qed.

Lemma alloc_ne (h : gmap loc RWTree) (t : loc) (tr : RWTree) :
  h !! t = Some tr -> alloc (dom h) <> t.
Proof. intros Ht Heq. rewrite <- Heq, alloc_None in Ht. discriminate. Qed.

Lemma tree_cached (prefix : bytes) (imf : ImmutableForest) (w : World) (t : loc) :
  lru_find prefix (lru_items (treeCache imf)) = Some t ->
  tree prefix (imf, w)
  = (Ok t, (set_treeCache (fun _ => (lru_Get prefix (treeCache imf)).2) imf, w)).
Proof.
  intros Hc. unfold tree, lru_Get. run_monad. cbn [fst snd].
  rewrite Hc. reflexivity.
Qed.

Lemma tree_not_cached (prefix : bytes) (imf : ImmutableForest) (w : World) :
  lru_find prefix (lru_items (treeCache imf)) = None ->
  tree prefix (imf, w) = loadOrCreateTree prefix (imf, w).
Proof.
  intros Hc. unfold tree, lru_Get. run_monad. cbn [fst snd].
  rewrite Hc. reflexivity.
Qed.

(** With no entry in the commits tree, two trees are created and the second
    one is returned; nothing is loaded. *)
Lemma loadOrCreateTree_no_entry (prefix : bytes) (imf : ImmutableForest)
    (w : World) (ctr : RWTree) :
  heap w !! imf_commitsTree imf = Some ctr ->
  log_get prefix (tlog ctr) = None ->
  loadOrCreateTree prefix (imf, w)
  = newTree prefix (newTree prefix (imf, w)).2.
Proof.
  intros Hct Hno. unfold loadOrCreateTree.
  unfold bind at 1. rewrite newTree_eq.
  unfold bind at 1. unfold wrap.
  erewrite commitID_eq.
  2:{ cbn [set_treeCache imf_commitsTree set_heap heap].
      rewrite lookup_insert_ne by (eapply alloc_ne; exact Hct). exact Hct. }
  rewrite Hno. cbn [Codec.zeroCommitID Codec.Version Z.eqb snd]. reflexivity.
Qed.

(** C5 (amended). For a prefix with no entry in the commits tree that the
    tree cache does not hold, Reader returns, without error, a new tree that
    is empty and at version 0, and issues no Load and leaves the backing
    store alone; when the cache holds an instance for the prefix, Reader
    returns that instance as it is (it may carry buffered writes), again
    without error and without touching heap, store or loads. *)
Theorem Reader_no_commit_entry (prefix : bytes) (imf : ImmutableForest)
    (w : World) (ctr : RWTree) :
  heap w !! imf_commitsTree imf = Some ctr ->
  log_get prefix (tlog ctr) = None ->
  match lru_find prefix (lru_items (treeCache imf)) with
  | Some t0 => exists imf', Reader prefix (imf, w) = (Ok t0, (imf', w))
  | None =>
      exists t imf' w',
        Reader prefix (imf, w) = (Ok t, (imf', w')) /\
        heap w !! t = None /\
        heap w' !! t
        = Some (mkRWTree (NewPrefixDB (treeDB imf) prefix) [] 0 false) /\
        loads w' = loads w /\
        store w' = store w
  end.
Proof.
  intros Hct Hno. unfold Reader.
  destruct (lru_find prefix (lru_items (treeCache imf))) as [t0|] eqn:Hc.
  - eexists. apply tree_cached, Hc.
  - rewrite (tree_not_cached _ _ _ Hc).
    rewrite (loadOrCreateTree_no_entry _ _ _ _ Hct Hno).
    rewrite !newTree_eq. cbn [snd set_heap heap store loads].
    eexists _, _, _. split; [reflexivity|].
    cbn [heap store loads].
    split; [|split; [apply lookup_insert_eq | split; reflexivity]].
    pose proof (alloc_None (<[alloc (dom (heap w)) :=
      mkRWTree (NewPrefixDB (treeDB imf) prefix) [] 0 false]> (heap w))) as Hf.
    apply lookup_insert_None in Hf. apply Hf.
Qed.

(** ** Delete *)

(** C6. If the commits tree holds an entry for the prefix, the serialised
    CommitID of version [v] and hash [h], Delete removes that entry (and no
    other) and returns that CommitID with no error; if it holds none, Delete
    returns nil and no error and changes nothing.  In both cases the forest
    struct, with its dirty map and dirty-order list, is left as it was. *)
Theorem Delete_commit_entry (prefix : bytes) (muf : MutableForest) (w : World)
    (ctr : RWTree) :
  heap w !! commitsTree muf = Some ctr ->
  (log_get prefix (tlog ctr) = None ->
   Delete prefix (muf, w) = (Ok None, (muf, w))) /\
  (forall (h : bytes) (v : Z) (bs : bytes),
      0 <= v < 2 ^ 63 ->
      Z.of_nat (length h) < 2 ^ 63 ->
      Codec.marshalCommitID h v = Ok (Some bs) ->
      log_get prefix (tlog ctr) = Some bs ->
      exists w',
        Delete prefix (muf, w) = (Ok (Some (Codec.mkCommitID v h)), (muf, w')) /\
        (RWTree_Get (commitsTree muf) prefix w').1 = Ok None /\
        (forall q, q <> prefix ->
           (RWTree_Get (commitsTree muf) q w').1
           = (RWTree_Get (commitsTree muf) q w).1) /\
        store w' = store w).
Proof.
  intros Hct. split.
  - intros Hno. unfold Delete, RWTree_Delete. run_monad. cbn [fst snd].
    rewrite Hct, Hno. reflexivity.
  - intros h v bs Hv Hh Hm Hbs.
    destruct (unmarshal_marshal v h) as (bs' & Hm' & Hu); [lia | exact Hh |].
    rewrite Hm in Hm'. inversion Hm'; subst bs'.
    unfold Delete, RWTree_Delete, RWTree_Get. run_monad. cbn [fst snd].
    rewrite Hct, Hbs. cbn [negb fst snd]. rewrite Hu.
    eexists. split; [reflexivity|].
    cbn [set_heap heap store]. rewrite !lookup_insert_eq. cbn [tlog log_get].
    rewrite decide_True by reflexivity.
    split; [reflexivity|]. split; [|reflexivity].
    intros q Hq. cbn [fst]. rewrite decide_False by congruence.
    reflexivity.
Qed.

End ForestFacts.
(** * Save *)

Section SaveFacts.
Context {collab : Collab} {allocator : Allocator}.
Local Open Scope monad_scope.

Lemma marshalCommitID_total (hash : bytes) (version : Z) :
  exists bs, Codec.marshalCommitID hash version = Ok (Some bs).
Proof.
  unfold Codec.marshalCommitID, Codec.MarshalBinary.
  destruct (Codec.encodeCommitID _); eexists; reflexivity.
Qed.

(** One round of the loop of Save, by cases. *)
Lemma Save_loop_skip (p : bytes) (ps : list bytes) (muf : MutableForest)
    (w : World) (t : loc) (tr : RWTree) :
  dirty muf !! p = Some t -> heap w !! t = Some tr -> tupdated tr = false ->
  Save_loop (p :: ps) (muf, w) = Save_loop ps (muf, w).
Proof.
  intros Hd Ht Hu. cbn [Save_loop]. unfold RWTree_Updated. run_monad.
  cbn [fst snd]. settle. reflexivity.
Qed.

Lemma Save_loop_fault (p : bytes) (ps : list bytes) (muf : MutableForest)
    (w : World) (t : loc) (tr : RWTree) :
  dirty muf !! p = Some t -> heap w !! t = Some tr -> tupdated tr = true ->
  save_fault (tdb tr) (tversion tr + 1) = true ->
  Save_loop (p :: ps) (muf, w)
  = (Err (Errorf "MutableForest.saveTree() could not save tree"
            (ErrStore (tdb tr) (tversion tr + 1))), (muf, w)).
Proof.
  intros Hd Ht Hu Hf. cbn [Save_loop]. unfold RWTree_Updated, saveTree, RWTree_Save.
  run_monad. cbn [fst snd]. settle. reflexivity.
Qed.

Lemma Save_loop_save (p : bytes) (ps : list bytes) (muf : MutableForest)
    (w : World) (t : loc) (tr ctr : RWTree) (bs : bytes) :
  dirty muf !! p = Some t -> heap w !! t = Some tr -> tupdated tr = true ->
  save_fault (tdb tr) (tversion tr + 1) = false ->
  t <> commitsTree muf -> heap w !! commitsTree muf = Some ctr ->
  Codec.marshalCommitID (hashfn (tlog tr)) (tversion tr + 1) = Ok (Some bs) ->
  Save_loop (p :: ps) (muf, w)
  = Save_loop ps
      (muf,
       mkWorld
         (<[commitsTree muf :=
              mkRWTree (tdb ctr) ((p, Some bs) :: tlog ctr) (tversion ctr) true]>
            (<[t := saved tr]> (heap w)))
         (<[(tdb tr, tversion tr + 1) := tlog tr]> (store w))
         (loads w)).
Proof.
  intros Hd Ht Hu Hf Hne Hct Hm. cbn [Save_loop].
  unfold RWTree_Updated, saveTree, RWTree_Save, setCommit, RWTree_Set.
  run_monad. cbn [fst snd]. settle.
  rewrite lookup_insert_ne by exact Hne. settle. reflexivity.
Qed.

(** ** The loop of Save, from its first round to where it stops *)

Lemma commit_entries_snoc (muf : MutableForest) (w0 : World) (done : list bytes)
    (p : bytes) :
  commit_entries muf w0 (done ++ [p])
  = match commit_entry muf w0 p with
    | Some e => e :: commit_entries muf w0 done
    | None => commit_entries muf w0 done
    end.
Proof.
  unfold commit_entries. rewrite omap_app, rev_app_distr.
  cbn [omap list_omap]. destruct (commit_entry muf w0 p); reflexivity.
Qed.

Lemma listed_distinct (muf : MutableForest) (w0 : World) (ps : list bytes)
    (p q : bytes) (t : loc) :
  listed muf w0 ps -> p ∈ ps -> q ∈ ps ->
  dirty muf !! p = Some t -> dirty muf !! q = Some t -> p = q.
Proof.
  intros Hl Hp Hq Hdp Hdq.
  destruct (Hl p Hp) as (t1 & tr1 & Hd1 & Hh1 & Hdb1 & _).
  destruct (Hl q Hq) as (t2 & tr2 & Hd2 & Hh2 & Hdb2 & _).
  rewrite Hdp in Hd1. rewrite Hdq in Hd2.
  inversion Hd1; inversion Hd2; subst t1 t2.
  rewrite Hh1 in Hh2. inversion Hh2; subst tr2.
  rewrite Hdb1 in Hdb2. unfold NewPrefixDB in Hdb2.
  apply app_inv_head in Hdb2. exact Hdb2.
Qed.

Lemma loop_inv_init (muf : MutableForest) (w0 : World) (ctr0 : RWTree) :
  heap w0 !! commitsTree muf = Some ctr0 ->
  loop_inv muf w0 ctr0 [] w0.
Proof.
  intros Hct. split; try reflexivity.
  - rewrite Hct. destruct ctr0; reflexivity.
  - intros p t tr Hin. apply elem_of_nil in Hin as [].
  - intros p t tr Hin. apply elem_of_nil in Hin as [].
  - intros p Hin. apply elem_of_nil in Hin as [].
Qed.

Section Round.
Variables (muf : MutableForest) (w0 : World) (ctr0 : RWTree).
Variables (done : list bytes) (p : bytes) (t : loc) (tr : RWTree).
Hypothesis Hlisted : listed muf w0 (done ++ [p]).
Hypothesis Hfresh : p ∉ done.
Hypothesis Hd : dirty muf !! p = Some t.
Hypothesis Ht : heap w0 !! t = Some tr.
Hypothesis Hne : t <> commitsTree muf.

Lemma round_tree_untouched (w : World) :
  loop_inv muf w0 ctr0 done w -> heap w !! t = Some tr.
Proof.
  intros Hinv. rewrite (li_frame _ _ _ _ _ Hinv t Hne); [exact Ht|].
  intros q Hq Hdq. apply Hfresh.
  rewrite (listed_distinct muf w0 (done ++ [p]) p q t Hlisted); try assumption.
  - apply elem_of_app. right. apply list_elem_of_singleton. reflexivity.
  - apply elem_of_app. left. exact Hq.
Qed.

Lemma other_tree (q : bytes) (t' : loc) :
  q ∈ done -> dirty muf !! q = Some t' -> t' <> t.
Proof.
  intros Hq Hdq ->. apply Hfresh.
  rewrite (listed_distinct muf w0 (done ++ [p]) p q t Hlisted); try assumption.
  - apply elem_of_app. right. apply list_elem_of_singleton. reflexivity.
  - apply elem_of_app. left. exact Hq.
Qed.

Lemma other_view (q : bytes) (tr' : RWTree) :
  q ∈ done -> dirty_tree muf w0 q = Some tr' -> tdb tr' <> tdb tr.
Proof.
  intros Hq Hdt Heq. apply Hfresh.
  destruct (Hlisted q) as (t1 & tr1 & Hd1 & Hh1 & Hdb1 & _).
  { apply elem_of_app. left. exact Hq. }
  destruct (Hlisted p) as (t2 & tr2 & Hd2 & Hh2 & Hdb2 & _).
  { apply elem_of_app. right. apply list_elem_of_singleton. reflexivity. }
  unfold dirty_tree in Hdt. rewrite Hd1, Hh1 in Hdt. inversion Hdt; subst tr1.
  rewrite Hd in Hd2. inversion Hd2; subst t2.
  rewrite Ht in Hh2. inversion Hh2; subst tr2.
  rewrite Heq, Hdb2 in Hdb1. unfold NewPrefixDB in Hdb1.
  apply app_inv_head in Hdb1. subst q. exact Hq.
Qed.

(** A round over a tree without buffered writes changes nothing. *)
Lemma loop_inv_skip (w : World) :
  tupdated tr = false ->
  loop_inv muf w0 ctr0 done w -> loop_inv muf w0 ctr0 (done ++ [p]) w.
Proof.
  intros Hu Hinv.
  assert (Hentry : commit_entry muf w0 p = None).
  { unfold commit_entry, dirty_tree. rewrite Hd, Ht, Hu. reflexivity. }
  split.
  - apply (li_loads _ _ _ _ _ Hinv).
  - rewrite commit_entries_snoc, Hentry. apply (li_commits _ _ _ _ _ Hinv).
  - intros t' Hne' Hnot. apply (li_frame _ _ _ _ _ Hinv t' Hne').
    intros q Hq. apply Hnot, elem_of_app. left. exact Hq.
  - intros q t' tr' Hq Hdq Hh'. apply elem_of_app in Hq as [Hq | Hq].
    + apply (li_trees _ _ _ _ _ Hinv q t' tr' Hq Hdq Hh').
    + apply list_elem_of_singleton in Hq. subst q.
      rewrite Hd in Hdq. inversion Hdq; subst t'.
      rewrite Ht in Hh'. inversion Hh'; subst tr'.
      rewrite Hu. apply round_tree_untouched, Hinv.
  - intros q t' tr' Hq Hdq Hh' Hu'. apply elem_of_app in Hq as [Hq | Hq].
    + apply (li_stored _ _ _ _ _ Hinv q t' tr' Hq Hdq Hh' Hu').
    + apply list_elem_of_singleton in Hq. subst q.
      rewrite Hd in Hdq. inversion Hdq; subst t'.
      rewrite Ht in Hh'. inversion Hh'; subst tr'. congruence.
  - intros k Hk. apply (li_store_frame _ _ _ _ _ Hinv k).
    intros q tr' Hq. apply Hk, elem_of_app. left. exact Hq.
  - intros q Hq. apply elem_of_app in Hq as [Hq | Hq].
    + apply (li_accepted _ _ _ _ _ Hinv q Hq).
    + apply list_elem_of_singleton in Hq. subst q.
      unfold save_refused, dirty_tree. rewrite Hd, Ht, Hu. reflexivity.
Qed.

(** A round over an updated tree that the store accepts. *)
Lemma loop_inv_save (w : World) (ctr : RWTree) (bs : bytes) :
  tupdated tr = true ->
  save_fault (tdb tr) (tversion tr + 1) = false ->
  Codec.marshalCommitID (hashfn (tlog tr)) (tversion tr + 1) = Ok (Some bs) ->
  heap w !! commitsTree muf = Some ctr ->
  loop_inv muf w0 ctr0 done w ->
  loop_inv muf w0 ctr0 (done ++ [p])
    (mkWorld
       (<[commitsTree muf :=
            mkRWTree (tdb ctr) ((p, Some bs) :: tlog ctr) (tversion ctr) true]>
          (<[t := saved tr]> (heap w)))
       (<[(tdb tr, tversion tr + 1) := tlog tr]> (store w))
       (loads w)).
Proof.
  intros Hu Hf Hm Hct Hinv.
  assert (Hentry : commit_entry muf w0 p = Some (p, Some bs)).
  { unfold commit_entry, dirty_tree. rewrite Hd, Ht, Hu, Hm. reflexivity. }
  pose proof (li_commits _ _ _ _ _ Hinv) as Hc. rewrite Hct in Hc.
  inversion Hc; subst ctr. clear Hc.
  split; cbn [heap store loads].
  - apply (li_loads _ _ _ _ _ Hinv).
  - rewrite lookup_insert_eq, commit_entries_snoc, Hentry. reflexivity.
  - intros t' Hne' Hnot.
    rewrite lookup_insert_ne by congruence.
    rewrite lookup_insert_ne.
    + apply (li_frame _ _ _ _ _ Hinv t' Hne').
      intros q Hq. apply Hnot, elem_of_app. left. exact Hq.
    + intros <-. apply (Hnot p); [|exact Hd].
      apply elem_of_app. right. apply list_elem_of_singleton. reflexivity.
  - intros q t' tr' Hq Hdq Hh'. apply elem_of_app in Hq as [Hq | Hq].
    + assert (t' <> commitsTree muf) as Hne'.
      { destruct (Hlisted q) as (t1 & tr1 & Hd1 & _ & _ & Hn1).
        { apply elem_of_app. left. exact Hq. }
        rewrite Hdq in Hd1. inversion Hd1; subst t1. exact Hn1. }
      rewrite lookup_insert_ne by congruence.
      rewrite lookup_insert_ne
        by (intros Heq; apply (other_tree q t' Hq Hdq); congruence).
      apply (li_trees _ _ _ _ _ Hinv q t' tr' Hq Hdq Hh').
    + apply list_elem_of_singleton in Hq. subst q.
      rewrite Hd in Hdq. inversion Hdq; subst t'.
      rewrite Ht in Hh'. inversion Hh'; subst tr'.
      rewrite lookup_insert_ne by congruence.
      rewrite lookup_insert_eq, Hu. reflexivity.
  - intros q t' tr' Hq Hdq Hh' Hu'. apply elem_of_app in Hq as [Hq | Hq].
    + rewrite lookup_insert_ne.
      * apply (li_stored _ _ _ _ _ Hinv q t' tr' Hq Hdq Hh' Hu').
      * intros Heq. inversion Heq as [[Hdb Hv]].
        apply (other_view q tr' Hq); [|congruence].
        unfold dirty_tree. rewrite Hdq. exact Hh'.
    + apply list_elem_of_singleton in Hq. subst q.
      rewrite Hd in Hdq. inversion Hdq; subst t'.
      rewrite Ht in Hh'. inversion Hh'; subst tr'.
      apply lookup_insert_eq.
  - intros k Hk. rewrite lookup_insert_ne.
    + apply (li_store_frame _ _ _ _ _ Hinv k).
      intros q tr' Hq. apply Hk, elem_of_app. left. exact Hq.
    + intros <-. eapply (Hk p tr); [| |exact Hu|reflexivity].
      * apply elem_of_app. right. apply list_elem_of_singleton. reflexivity.
      * unfold dirty_tree. rewrite Hd. exact Ht.
  - intros q Hq. apply elem_of_app in Hq as [Hq | Hq].
    + apply (li_accepted _ _ _ _ _ Hinv q Hq).
    + apply list_elem_of_singleton in Hq. subst q.
      unfold save_refused, dirty_tree. rewrite Hd, Ht, Hu, Hf. reflexivity.
Qed.

End Round.

(** The loop either goes through all the prefixes, or stops at the first
    one whose save the store refuses, with everything before it done. *)
Lemma Save_loop_spec (muf : MutableForest) (w0 : World) (ctr0 : RWTree)
    (ps : list bytes) :
  forall (done : list bytes) (w : World),
    NoDup (done ++ ps) -> listed muf w0 (done ++ ps) ->
    loop_inv muf w0 ctr0 done w ->
    exists done' rest w',
      done ++ ps = done' ++ rest /\
      loop_inv muf w0 ctr0 done' w' /\
      match rest with
      | [] => Save_loop ps (muf, w) = (Ok tt, (muf, w'))
      | p :: _ =>
          exists tr,
            dirty_tree muf w0 p = Some tr /\ tupdated tr = true /\
            save_fault (tdb tr) (tversion tr + 1) = true /\
            Save_loop ps (muf, w)
            = (Err (Errorf "MutableForest.saveTree() could not save tree"
                      (ErrStore (tdb tr) (tversion tr + 1))), (muf, w'))
      end.
Proof.
  induction ps as [|p ps IH]; intros done w Hnd Hl Hinv.
  - exists done, [], w. split; [reflexivity|]. split; [exact Hinv|reflexivity].
  - assert (Hmid : done ++ p :: ps = (done ++ [p]) ++ ps)
      by (rewrite <- app_assoc; reflexivity).
    assert (Hl1 : listed muf w0 (done ++ [p])).
    { intros q Hq. apply Hl. rewrite Hmid. apply elem_of_app. left. exact Hq. }
    assert (Hfresh : p ∉ done).
    { apply NoDup_app in Hnd as (_ & Hdisj & _). intros Hin.
      apply (Hdisj p Hin). apply elem_of_cons. left. reflexivity. }
    destruct (Hl1 p) as (t & tr & Hd & Ht & Hdb & Hne).
    { apply elem_of_app. right. apply list_elem_of_singleton. reflexivity. }
    pose proof (round_tree_untouched muf w0 ctr0 done p t tr Hl1 Hfresh Hd Ht Hne
                  w Hinv) as Htw.
    rewrite Hmid in Hnd, Hl.
    destruct (tupdated tr) eqn:Hu.
    + destruct (save_fault (tdb tr) (tversion tr + 1)) eqn:Hf.
      * exists done, (p :: ps), w. split; [reflexivity|]. split; [exact Hinv|].
        exists tr. unfold dirty_tree. rewrite Hd.
        split; [exact Ht|]. split; [exact Hu|]. split; [exact Hf|].
        apply (Save_loop_fault p ps muf w t tr Hd Htw Hu Hf).
      * destruct (marshalCommitID_total (hashfn (tlog tr)) (tversion tr + 1))
          as [bs Hm].
        pose proof (li_commits _ _ _ _ _ Hinv) as Hct.
        rewrite (Save_loop_save p ps muf w t tr _ bs Hd Htw Hu Hf Hne Hct Hm).
        rewrite Hmid. apply (IH (done ++ [p])); [exact Hnd | exact Hl |].
        apply (loop_inv_save muf w0 ctr0 done p t tr Hl1 Hfresh Hd Ht Hne
                 w _ bs Hu Hf Hm Hct Hinv).
    + rewrite (Save_loop_skip p ps muf w t tr Hd Htw Hu).
      rewrite Hmid. apply (IH (done ++ [p])); [exact Hnd | exact Hl |].
      apply (loop_inv_skip muf w0 ctr0 done p t tr Hl1 Hfresh Hd Ht Hne w Hu Hinv).
Qed.

Lemma forest_wf_listed (muf : MutableForest) (w : World) :
  forest_wf muf w -> listed muf w (dirtyPrefixes muf).
Proof.
  intros Hwf p Hp.
  apply (wf_listed _ _ Hwf) in Hp as [t Hd].
  destruct (wf_dirty _ _ Hwf p t Hd) as (tr & Ht & Hdb).
  exists t, tr. split; [exact Hd|]. split; [exact Ht|]. split; [exact Hdb|].
  intros ->. destruct (wf_commits _ _ Hwf) as (ctr & Hct & Hview).
  rewrite Hct in Ht. inversion Ht; subst ctr. apply (Hview p Hdb).
Qed.

(** Save, in terms of its loop. *)
Lemma Save_eq (muf : MutableForest) (w : World) :
  Save (muf, w)
  = match Save_loop (dirtyPrefixes muf) (muf, w) with
    | (Ok _, (muf1, w1)) =>
        inWorld (RWTree_Save (commitsTree muf)) (set_dirty ∅ [] muf1, w1)
    | (Err e, s) => (Err e, s)
    end.
Proof.
  unfold Save. unfold bind at 1. unfold get at 1. cbn [fst].
  unfold bind at 1.
  destruct (Save_loop (dirtyPrefixes muf) (muf, w)) as [[[]|e] [muf1 w1]];
    reflexivity.
Qed.

(** The keys of the entries are the prefixes themselves. *)
Lemma commit_entry_key (muf : MutableForest) (w : World) (p : bytes)
    (e : bytes * option bytes) :
  commit_entry muf w p = Some e -> exists bs, e = (p, Some bs).
Proof.
  unfold commit_entry. destruct (dirty_tree muf w p) as [tr|]; [|discriminate].
  destruct (tupdated tr); [|discriminate].
  destruct (Codec.marshalCommitID _ _) as [[bs|]|]; try discriminate.
  intros Heq. inversion Heq. eexists. reflexivity.
Qed.

Lemma log_get_commit_entries_other (muf : MutableForest) (w : World)
    (ps : list bytes) (p : bytes) (l : log) :
  (p ∈ ps -> commit_entry muf w p = None) ->
  log_get p (commit_entries muf w ps ++ l) = log_get p l.
Proof.
  revert l. induction ps as [|a ps IH]; intros l Hp; [reflexivity|].
  change (a :: ps) with ([a] ++ ps). unfold commit_entries.
  rewrite omap_app, rev_app_distr, <- app_assoc.
  fold (commit_entries muf w ps). rewrite IH.
  2:{ intros Hin. apply Hp. apply elem_of_cons. right. exact Hin. }
  cbn [omap list_omap]. destruct (commit_entry muf w a) as [e|] eqn:He;
    [|reflexivity].
  destruct (commit_entry_key _ _ _ _ He) as [bs ->].
  cbn [rev app log_get]. destruct (decide (a = p)) as [->|Hne]; [|reflexivity].
  rewrite Hp in He; [discriminate|]. apply elem_of_cons. left. reflexivity.
Qed.

Lemma log_get_commit_entries (muf : MutableForest) (w : World)
    (ps : list bytes) (p : bytes) (bs : bytes) (l : log) :
  NoDup ps -> p ∈ ps -> commit_entry muf w p = Some (p, Some bs) ->
  log_get p (commit_entries muf w ps ++ l) = Some bs.
Proof.
  revert l. induction ps as [|a ps IH]; intros l Hnd Hin He.
  - apply elem_of_nil in Hin as [].
  - apply NoDup_cons in Hnd as [Ha Hnd].
    change (a :: ps) with ([a] ++ ps). unfold commit_entries.
    rewrite omap_app, rev_app_distr, <- app_assoc.
    fold (commit_entries muf w ps).
    apply elem_of_cons in Hin as [-> | Hin].
    + rewrite log_get_commit_entries_other by (intros Hin; contradiction).
      cbn [omap list_omap]. rewrite He. cbn [rev app log_get].
      rewrite decide_True by reflexivity. reflexivity.
    + apply IH; assumption.
Qed.

(** A successful Save: its loop went through the whole dirty-order list,
    then the dirty set was emptied and the commits tree saved. *)
Lemma Save_ok_inv (muf muf' : MutableForest) (w w' : World) (ctr : RWTree)
    (hash : bytes) (version : Z) :
  forest_wf muf w ->
  heap w !! commitsTree muf = Some ctr ->
  Save (muf, w) = (Ok (hash, version), (muf', w')) ->
  exists w1,
    loop_inv muf w ctr (dirtyPrefixes muf) w1 /\
    muf' = set_dirty ∅ [] muf /\
    w' = mkWorld
           (<[commitsTree muf :=
                mkRWTree (tdb ctr)
                  (commit_entries muf w (dirtyPrefixes muf) ++ tlog ctr)
                  (tversion ctr + 1) false]> (heap w1))
           (<[(tdb ctr, tversion ctr + 1) :=
                commit_entries muf w (dirtyPrefixes muf) ++ tlog ctr]> (store w1))
           (loads w1) /\
    hash = hashfn (commit_entries muf w (dirtyPrefixes muf) ++ tlog ctr) /\
    version = tversion ctr + 1.
Proof.
  intros Hwf Hct Hsave.
  pose proof (forest_wf_listed _ _ Hwf) as Hl.
  destruct (Save_loop_spec muf w ctr (dirtyPrefixes muf) [] w
              (wf_nodup _ _ Hwf) Hl (loop_inv_init muf w ctr Hct))
    as (done & rest & w1 & Hsplit & Hinv & Hrun).
  rewrite Save_eq in Hsave. cbn [app] in Hsplit.
  destruct rest as [|p rest].
  2:{ destruct Hrun as (tr & _ & _ & _ & Hrun). rewrite Hrun in Hsave.
      discriminate. }
  rewrite app_nil_r in Hsplit. subst done. rewrite Hrun in Hsave.
  pose proof (li_commits _ _ _ _ _ Hinv) as Hc1.
  unfold inWorld, RWTree_Save, with_tree in Hsave. rewrite Hc1 in Hsave.
  cbn [tdb tversion tlog] in Hsave.
  destruct (save_fault (tdb ctr) (tversion ctr + 1)); [discriminate|].
  cbv [bind modify ret] in Hsave. inversion Hsave; subst. clear Hsave.
  exists w1. split; [exact Hinv|]. repeat split.
Qed.

(** C3. On a successful Save of a well-formed forest: every prefix of the
    dirty-order list whose tree reports Updated() has had the tree's own Save
    run (the tree is at its next version with nothing buffered, its contents
    persisted) and the marshaled CommitID of the hash and version that Save
    returned is bound to the prefix in the commits tree; the trees that were
    dirty but not updated are left alone, as are their entries; the dirty
    map and dirty-order list are empty; the commits tree itself has been
    saved, and the hash and version returned are its own. *)
Theorem Save_success (muf muf' : MutableForest) (w w' : World) (ctr : RWTree)
    (hash : bytes) (version : Z) :
  forest_wf muf w ->
  heap w !! commitsTree muf = Some ctr ->
  Save (muf, w) = (Ok (hash, version), (muf', w')) ->
  muf' = set_dirty ∅ [] muf /\
  dirty muf' = ∅ /\ dirtyPrefixes muf' = [] /\
  exists ctr',
    heap w' !! commitsTree muf = Some ctr' /\
    tlog ctr' = commit_entries muf w (dirtyPrefixes muf) ++ tlog ctr /\
    tversion ctr' = tversion ctr + 1 /\ tupdated ctr' = false /\
    version = tversion ctr' /\ hash = hashfn (tlog ctr') /\
    store w' !! (tdb ctr, version) = Some (tlog ctr') /\
    forall p t tr,
      p ∈ dirtyPrefixes muf -> dirty muf !! p = Some t ->
      heap w !! t = Some tr ->
      if tupdated tr then
        (RWTree_Save t w).1 = Ok (hashfn (tlog tr), tversion tr + 1) /\
        heap w' !! t = Some (saved tr) /\
        store w' !! (tdb tr, tversion tr + 1) = Some (tlog tr) /\
        exists bs,
          Codec.marshalCommitID (hashfn (tlog tr)) (tversion tr + 1)
          = Ok (Some bs) /\
          log_get p (tlog ctr') = Some bs
      else
        heap w' !! t = Some tr /\
        log_get p (tlog ctr') = log_get p (tlog ctr).
Proof.
  intros Hwf Hct Hsave.
  pose proof (forest_wf_listed _ _ Hwf) as Hl.
  destruct (Save_ok_inv _ _ _ _ _ _ _ Hwf Hct Hsave)
    as (w1 & Hinv & -> & -> & -> & ->).
  split; [reflexivity|]. split; [reflexivity|]. split; [reflexivity|].
  cbn [heap store].
  eexists. split; [apply lookup_insert_eq|]. cbn [tlog tversion tupdated].
  split; [reflexivity|]. split; [reflexivity|]. split; [reflexivity|].
  split; [reflexivity|]. split; [reflexivity|].
  split; [apply lookup_insert_eq|].
  intros p t tr Hp Hd Ht.
  destruct (Hl p Hp) as (t1 & tr1 & Hd1 & Ht1 & Hdb & Hne).
  rewrite Hd in Hd1. inversion Hd1; subst t1.
  rewrite Ht in Ht1. inversion Ht1; subst tr1.
  assert (Hview : (tdb ctr, tversion ctr + 1) <> (tdb tr, tversion tr + 1)).
  { destruct (wf_commits _ _ Hwf) as (ctr1 & Hct1 & Hv).
    rewrite Hct in Hct1. inversion Hct1; subst ctr1.
    intros Heq. inversion Heq as [[Hdb' Hv']]. apply (Hv p). congruence. }
  pose proof (li_trees _ _ _ _ _ Hinv p t tr Hp Hd Ht) as Htree.
  rewrite lookup_insert_ne by congruence.
  destruct (tupdated tr) eqn:Hu.
  - pose proof (li_accepted _ _ _ _ _ Hinv p Hp) as Hacc.
    unfold save_refused, dirty_tree in Hacc. rewrite Hd, Ht, Hu in Hacc.
    cbn [andb] in Hacc.
    split.
    { unfold RWTree_Save, with_tree. rewrite Ht, Hacc. reflexivity. }
    split; [exact Htree|].
    split.
    { rewrite lookup_insert_ne by exact Hview.
      apply (li_stored _ _ _ _ _ Hinv p t tr Hp Hd Ht Hu). }
    destruct (marshalCommitID_total (hashfn (tlog tr)) (tversion tr + 1))
      as [bs Hm].
    exists bs. split; [exact Hm|].
    apply log_get_commit_entries; [apply (wf_nodup _ _ Hwf) | exact Hp |].
    unfold commit_entry, dirty_tree. rewrite Hd, Ht, Hu, Hm. reflexivity.
  - split; [exact Htree|].
    apply log_get_commit_entries_other. intros _.
    unfold commit_entry, dirty_tree. rewrite Hd, Ht, Hu. reflexivity.
Qed.


(** C1 (amended). If the store refuses the save of some dirty namespace
    tree, Save returns the error of the first such tree of the dirty-order
    list, without saving the commits tree: the forest struct, with its dirty
    map and dirty-order list, is exactly as before, the commits tree is at
    the same version and nothing of it has been persisted.  The commits tree
    has however received, as buffered writes, the entries of the trees saved
    before the failing one (it is untouched when there was none). *)
Theorem Save_tree_failure (muf : MutableForest) (w : World) (ctr : RWTree)
    (q : bytes) :
  forest_wf muf w ->
  heap w !! commitsTree muf = Some ctr ->
  q ∈ dirtyPrefixes muf ->
  save_refused muf w q = true ->
  exists done p rest tr w',
    dirtyPrefixes muf = done ++ p :: rest /\
    (forall p', p' ∈ done -> save_refused muf w p' = false) /\
    dirty_tree muf w p = Some tr /\ save_refused muf w p = true /\
    Save (muf, w)
    = (Err (Errorf "MutableForest.saveTree() could not save tree"
              (ErrStore (tdb tr) (tversion tr + 1))), (muf, w')) /\
    heap w' !! commitsTree muf
    = Some (mkRWTree (tdb ctr) (commit_entries muf w done ++ tlog ctr)
              (tversion ctr) (touched (commit_entries muf w done) (tupdated ctr))) /\
    (commit_entries muf w done = [] -> heap w' !! commitsTree muf = Some ctr) /\
    (forall v, store w' !! (tdb ctr, v) = store w !! (tdb ctr, v)) /\
    (Version (muf, w')).1 = (Version (muf, w)).1.
Proof.
  intros Hwf Hct Hq Hrefused.
  pose proof (forest_wf_listed _ _ Hwf) as Hl.
  destruct (Save_loop_spec muf w ctr (dirtyPrefixes muf) [] w
              (wf_nodup _ _ Hwf) Hl (loop_inv_init muf w ctr Hct))
    as (done & rest & w1 & Hsplit & Hinv & Hrun).
  cbn [app] in Hsplit. destruct rest as [|p rest].
  { rewrite app_nil_r in Hsplit. subst done.
    rewrite (li_accepted _ _ _ _ _ Hinv q Hq) in Hrefused. discriminate. }
  destruct Hrun as (tr & Hdt & Hu & Hf & Hrun).
  pose proof (li_commits _ _ _ _ _ Hinv) as Hc1.
  exists done, p, rest, tr, w1.
  split; [exact Hsplit|]. split; [apply (li_accepted _ _ _ _ _ Hinv)|].
  split; [exact Hdt|].
  split. { unfold save_refused. rewrite Hdt, Hu, Hf. reflexivity. }
  split. { rewrite Save_eq, Hrun. reflexivity. }
  split; [exact Hc1|].
  split. { intros Hnone. rewrite Hc1, Hnone. destruct ctr; reflexivity. }
  split.
  - intros v. apply (li_store_frame _ _ _ _ _ Hinv).
    intros p' tr' Hp' Hdt' _ Heq. inversion Heq as [[Hdb Hv]].
    assert (Hin : p' ∈ dirtyPrefixes muf)
      by (rewrite Hsplit; apply elem_of_app; left; exact Hp').
    destruct (Hl p' Hin) as (t1 & tr1 & Hd1 & Ht1 & Hdb1 & _).
    unfold dirty_tree in Hdt'. rewrite Hd1, Ht1 in Hdt'.
    inversion Hdt'; subst tr1.
    destruct (wf_commits _ _ Hwf) as (ctr1 & Hct1 & Hview).
    rewrite Hct in Hct1. inversion Hct1; subst ctr1.
    apply (Hview p'). congruence.
  - unfold Version, RWTree_Version. run_monad. cbn [fst snd].
    rewrite Hc1, Hct. reflexivity.
Qed.

End SaveFacts.
(** * Resolving trees: loads, other forests *)

Section ResolveFacts.
Context {collab : Collab} {allocator : Allocator}.
Local Open Scope monad_scope.

Lemma RWTree_Load_eq (t : loc) (tr : RWTree) (version : Z) (overwriting : bool)
    (w : World) :
  heap w !! t = Some tr ->
  RWTree_Load t version overwriting w
  = match store w !! (tdb tr, version) with
    | None => (Err (ErrVersionMissing (tdb tr) version),
               log_load (tdb tr, version, overwriting) w)
    | Some l => (Ok tt, loaded t tr l version overwriting w)
    end.
Proof.
  intros Ht. unfold RWTree_Load. run_monad. rewrite Ht.
  cbn [log_load store heap loads].
  destruct (store w !! (tdb tr, version)) as [l|]; [|reflexivity].
  destruct overwriting; reflexivity.
Qed.

(** Resolving a prefix that the cache does not hold, by cases on what the
    commits tree says. *)
Lemma loadOrCreateTree_eq (prefix : bytes) (imf : ImmutableForest) (w : World)
    (ctr : RWTree) :
  heap w !! imf_commitsTree imf = Some ctr ->
  let t := alloc (dom (heap w)) in
  let imf1 := set_treeCache (lru_Add prefix t) imf in
  let w1 := set_heap (insert t (emptyTree (treeDB imf) prefix)) w in
  let create := newTree prefix (imf1, w1) in
  loadOrCreateTree prefix (imf, w)
  = match log_get prefix (tlog ctr) with
    | None => create
    | Some bs =>
        match Codec.unmarshalCommitID bs with
        | Err e =>
            (Err (Errorf "ImmutableForest.loadOrCreateTree():"
                    (Errorf "could not get commitID for prefix" e)), (imf1, w1))
        | Ok c =>
            if Codec.Version c =? 0 then create
            else
              match store w !! (NewPrefixDB (treeDB imf) prefix, Codec.Version c) with
              | None =>
                  (Err (Errorf "ImmutableForest.loadOrCreateTree(): could not load tree"
                          (ErrVersionMissing (NewPrefixDB (treeDB imf) prefix)
                             (Codec.Version c))),
                   (imf1, log_load (NewPrefixDB (treeDB imf) prefix,
                                    Codec.Version c, overwriting imf) w1))
              | Some l =>
                  (Ok t, (imf1, loaded t (emptyTree (treeDB imf) prefix) l
                                  (Codec.Version c) (overwriting imf) w1))
              end
        end
    end.
Proof.
  intros Hct t imf1 w1 create.
  assert (Hct1 : heap w1 !! imf_commitsTree imf1 = Some ctr).
  { subst w1 imf1. cbn [set_treeCache imf_commitsTree set_heap heap].
    rewrite lookup_insert_ne by (eapply alloc_ne; exact Hct). exact Hct. }
  unfold loadOrCreateTree.
  unfold bind at 1. rewrite newTree_eq. fold t. fold (emptyTree (treeDB imf) prefix).
  fold imf1. fold w1.
  unfold bind at 1. unfold wrap at 1.
  rewrite (commitID_eq prefix imf1 w1 ctr Hct1).
  destruct (log_get prefix (tlog ctr)) as [bs|]; [|reflexivity].
  destruct (Codec.unmarshalCommitID bs) as [c|e]; [|reflexivity].
  destruct (Codec.Version c =? 0); [reflexivity|].
  unfold bind at 1. unfold get at 1. cbn [fst].
  unfold bind at 1. unfold wrap, inWorld.
  rewrite (RWTree_Load_eq t (emptyTree (treeDB imf) prefix)).
  2:{ subst w1. cbn [set_heap heap]. apply lookup_insert_eq. }
  subst w1. cbn [set_heap store emptyTree tdb].
  destruct (store w !! _) as [l|]; reflexivity.
Qed.

Lemma commitID_state (prefix : bytes) (imf : ImmutableForest) (w : World) :
  (commitID prefix (imf, w)).2 = (imf, w).
Proof.
  unfold commitID, RWTree_Get. run_monad. cbn [fst snd].
  destruct (heap w !! imf_commitsTree imf) as [ctr|]; [|reflexivity].
  destruct (log_get prefix (tlog ctr)) as [bs|]; [|reflexivity].
  destruct (Codec.unmarshalCommitID bs); reflexivity.
Qed.

(** ** Read-only forests never load destructively *)

Lemma RWTree_Load_flag (t : loc) (version : Z) (overwriting : bool) (w : World) :
  (overwriting = false -> store (RWTree_Load t version overwriting w).2 = store w) /\
  exists new, loads (RWTree_Load t version overwriting w).2 = new ++ loads w /\
              Forall (fun ev : bytes * Z * bool => ev.2 = overwriting) new.
Proof.
  unfold RWTree_Load. run_monad.
  destruct (heap w !! t) as [tr|]; cbn [snd].
  2:{ split; [reflexivity|]. exists []. split; [reflexivity | constructor]. }
  cbn [log_load store heap loads].
  destruct (store w !! (tdb tr, version)) as [l|]; cbn [snd].
  - split.
    + intros ->. reflexivity.
    + exists [(tdb tr, version, overwriting)].
      destruct overwriting; (split; [reflexivity | repeat constructor]).
  - split; [reflexivity|].
    exists [(tdb tr, version, overwriting)]. split; [reflexivity | repeat constructor].
Qed.

Lemma tree_loads (prefix : bytes) (imf : ImmutableForest) (w : World) :
  overwriting (tree prefix (imf, w)).2.1 = overwriting imf /\
  (overwriting imf = false -> store (tree prefix (imf, w)).2.2 = store w) /\
  exists new, loads (tree prefix (imf, w)).2.2 = new ++ loads w /\
              Forall (fun ev : bytes * Z * bool => ev.2 = overwriting imf) new.
Proof.
  assert (Hnone : exists new, loads w = new ++ loads w /\
               Forall (fun ev : bytes * Z * bool => ev.2 = overwriting imf) new).
  { exists []. split; [reflexivity | constructor]. }
  destruct (tree prefix (imf, w)) as [r [imf' w']] eqn:Htree. cbn [fst snd].
  revert Htree. unfold tree. unfold bind at 1. unfold get at 1. cbn [fst].
  destruct (lru_Get prefix (treeCache imf)) as [[value|] cache].
  { cbn. intros Heq. inversion Heq; subst. cbn.
    split; [reflexivity|]. split; [reflexivity|]. apply Hnone. }
  unfold loadOrCreateTree. unfold bind at 1. rewrite newTree_eq.
  unfold bind at 1. unfold wrap at 1.
  pose proof (commitID_state prefix
                (set_treeCache (lru_Add prefix (alloc (dom (heap w)))) imf)
                (set_heap (insert (alloc (dom (heap w)))
                   (mkRWTree (NewPrefixDB (treeDB imf) prefix) [] 0 false)) w))
    as Hstate.
  destruct (commitID prefix _) as [[c|e] [imf2 w2]]; cbn [snd] in Hstate;
    inversion Hstate; subst imf2 w2; clear Hstate.
  2:{ intros Heq. inversion Heq; subst. cbn.
      split; [reflexivity|]. split; [reflexivity|]. apply Hnone. }
  destruct (Codec.Version c =? 0).
  { rewrite newTree_eq. intros Heq. inversion Heq; subst. cbn.
    split; [reflexivity|]. split; [reflexivity|]. apply Hnone. }
  unfold bind at 1. unfold get at 1. cbn [fst].
  unfold bind at 1. unfold wrap, inWorld.
  cbn [set_treeCache overwriting].
  match goal with
  | |- context [RWTree_Load ?t ?v ?o ?w2] =>
      pose proof (RWTree_Load_flag t v o w2) as [Hs Hl];
      destruct (RWTree_Load t v o w2) as [[[]|e] w3]
  end; cbn [fst snd set_heap store loads] in *;
    cbn [ret]; intros Heq; inversion Heq; subst; cbn [overwriting];
    (split; [reflexivity|]; split; [exact Hs | exact Hl]).
Qed.

(** C10. NewMutableForest builds its embedded ImmutableForest with
    overwriting loads enabled.  GetImmutable builds the derived forest
    without the option and with a new, empty tree cache, around a commits
    snapshot that is a new instance; it leaves the live forest, the store and
    the loads as they were.  And a forest without the option never loads
    destructively: resolving a tree leaves the option off and the store
    unchanged, and every Load it issues is a non-overwriting one. *)
Theorem GetImmutable_not_overwriting :
  (forall db cacheSize w muf w',
      NewMutableForest db cacheSize w = (Ok muf, w') ->
      overwriting (imf muf) = true) /\
  (forall version (s s' : MState) imf',
      GetImmutable version s = (Ok imf', s') ->
      overwriting imf' = false /\
      lru_items (treeCache imf') = [] /\
      heap s.2 !! imf_commitsTree imf' = None /\
      is_Some (heap s'.2 !! imf_commitsTree imf') /\
      s'.1 = s.1 /\ store s'.2 = store s.2 /\ loads s'.2 = loads s.2) /\
  (forall prefix imf' w,
      overwriting imf' = false ->
      overwriting (Reader prefix (imf', w)).2.1 = false /\
      store (Reader prefix (imf', w)).2.2 = store w /\
      exists new,
        loads (Reader prefix (imf', w)).2.2 = new ++ loads w /\
        Forall (fun ev : bytes * Z * bool => ev.2 = false) new).
Proof.
  split; [|split].
  - intros db cacheSize w muf w'. unfold NewMutableForest, NewRWTree.
    run_monad. unfold NewImmutableForest.
    destruct (lru_New cacheSize); intros Heq; inversion Heq; subst. reflexivity.
  - intros version [muf w] s' imf'. unfold GetImmutable, RWTree_GetImmutable.
    run_monad. cbn [fst snd]. unfold NewImmutableForest.
    destruct (heap w !! commitsTree muf) as [tr|]; [|discriminate].
    destruct (store w !! (tdb tr, version)) as [l|]; [|discriminate].
    unfold lru_New. destruct (cacheSize (imf muf) <=? 0); [discriminate|].
    cbn [fold_left]. intros Heq. inversion Heq; subst.
    cbn [overwriting treeCache lru_items imf_commitsTree fst snd set_heap heap
           store loads].
    split; [reflexivity|]. split; [reflexivity|].
    split; [apply alloc_None|]. rewrite lookup_insert_eq.
    split; [eexists; reflexivity|]. repeat split.
  - intros prefix imf' w Hoff. unfold Reader.
    destruct (tree_loads prefix imf' w) as (Ho & Hs & Hl).
    rewrite Hoff in *. split; [exact Ho|]. split; [apply Hs; reflexivity | exact Hl].
Qed.

(** ** A buffered write stays within its instance *)

Lemma RWTree_Set_eq (t : loc) (tr : RWTree) (key value : bytes) (w : World) :
  heap w !! t = Some tr ->
  RWTree_Set t key value w
  = (Ok tt, poke t (mkRWTree (tdb tr) ((key, Some value) :: tlog tr)
                      (tversion tr) true) w).
Proof. intros Ht. unfold RWTree_Set. run_monad. rewrite Ht. reflexivity. Qed.

Lemma RWTree_Get_eq (t : loc) (tr : RWTree) (key : bytes) (w : World) :
  heap w !! t = Some tr ->
  RWTree_Get t key w = (Ok (log_get key (tlog tr)), w).
Proof. intros Ht. unfold RWTree_Get. run_monad. rewrite Ht. reflexivity. Qed.

Lemma RWTree_Get_poke (t r : loc) (x : RWTree) (key : bytes) (w : World) :
  r <> t -> (RWTree_Get r key (poke t x w)).1 = (RWTree_Get r key w).1.
Proof.
  intros Hne. unfold RWTree_Get, poke. run_monad. cbn [set_heap heap].
  rewrite lookup_insert_ne by congruence.
  destruct (heap w !! r); reflexivity.
Qed.

Lemma poke_insert (t l : loc) (x e : RWTree) (w : World) :
  l <> t ->
  set_heap (insert l e) (poke t x w) = poke t x (set_heap (insert l e) w).
Proof.
  intros Hne. unfold poke, set_heap. cbn [heap store loads].
  f_equal. apply insert_insert_ne. exact Hne.
Qed.

Lemma poke_dom (t : loc) (x tr : RWTree) (w : World) :
  heap w !! t = Some tr -> dom (heap (poke t x w)) = dom (heap w).
Proof.
  intros Ht. unfold poke. cbn [set_heap heap].
  apply dom_insert_lookup_L. eexists. exact Ht.
Qed.

Lemma newTree_poke (prefix : bytes) (imf : ImmutableForest) (w : World)
    (t : loc) (x tr : RWTree) :
  heap w !! t = Some tr ->
  newTree prefix (imf, poke t x w)
  = ((newTree prefix (imf, w)).1,
     ((newTree prefix (imf, w)).2.1, poke t x (newTree prefix (imf, w)).2.2)).
Proof.
  intros Ht. rewrite !newTree_eq. cbn [fst snd].
  rewrite (poke_dom t x tr w Ht).
  rewrite poke_insert by (eapply alloc_ne; exact Ht). reflexivity.
Qed.

(** Resolving a tree in a forest that does not hold the instance [t] goes
    the same way whatever [t] holds, and does not return [t]. *)
Lemma tree_poke (prefix : bytes) (imf : ImmutableForest) (w : World)
    (t : loc) (x tr ctr : RWTree) :
  heap w !! t = Some tr ->
  heap w !! imf_commitsTree imf = Some ctr ->
  imf_commitsTree imf <> t ->
  lru_find prefix (lru_items (treeCache imf)) <> Some t ->
  tree prefix (imf, poke t x w)
  = ((tree prefix (imf, w)).1,
     ((tree prefix (imf, w)).2.1, poke t x (tree prefix (imf, w)).2.2)) /\
  (forall r, (tree prefix (imf, w)).1 = Ok r -> r <> t).
Proof.
  intros Ht Hct Hne Hcache.
  destruct (lru_find prefix (lru_items (treeCache imf))) as [t0|] eqn:Hfind.
  { rewrite !(tree_cached _ _ _ _ Hfind). cbn [fst snd].
    split; [reflexivity|]. intros r Hr. inversion Hr; subst. congruence. }
  rewrite !(tree_not_cached _ _ _ Hfind).
  assert (Hct' : heap (poke t x w) !! imf_commitsTree imf = Some ctr).
  { unfold poke. cbn [set_heap heap]. rewrite lookup_insert_ne by congruence.
    exact Hct. }
  rewrite (loadOrCreateTree_eq prefix imf (poke t x w) ctr Hct').
  rewrite (loadOrCreateTree_eq prefix imf w ctr Hct).
  cbv zeta. rewrite (poke_dom t x tr w Ht).
  set (l := alloc (dom (heap w))).
  assert (Hl : l <> t) by (eapply alloc_ne; exact Ht).
  rewrite (poke_insert t l) by exact Hl.
  assert (Ht1 : heap (set_heap (insert l (emptyTree (treeDB imf) prefix)) w) !! t
                = Some tr).
  { cbn [set_heap heap]. rewrite lookup_insert_ne by exact Hl. exact Ht. }
  assert (Hcreate :
    newTree prefix
      (set_treeCache (lru_Add prefix l) imf,
       poke t x (set_heap (insert l (emptyTree (treeDB imf) prefix)) w))
    = ((newTree prefix (set_treeCache (lru_Add prefix l) imf,
          set_heap (insert l (emptyTree (treeDB imf) prefix)) w)).1,
       ((newTree prefix (set_treeCache (lru_Add prefix l) imf,
          set_heap (insert l (emptyTree (treeDB imf) prefix)) w)).2.1,
        poke t x (newTree prefix (set_treeCache (lru_Add prefix l) imf,
          set_heap (insert l (emptyTree (treeDB imf) prefix)) w)).2.2)) /\
    (forall r, (newTree prefix (set_treeCache (lru_Add prefix l) imf,
          set_heap (insert l (emptyTree (treeDB imf) prefix)) w)).1 = Ok r ->
       r <> t)).
  { split; [apply (newTree_poke _ _ _ _ _ _ Ht1)|].
    intros r. rewrite newTree_eq. cbn [fst]. intros Hr. inversion Hr; subst.
    eapply alloc_ne. exact Ht1. }
  destruct (log_get prefix (tlog ctr)) as [bs|]; [|exact Hcreate].
  destruct (Codec.unmarshalCommitID bs) as [c|e].
  2:{ cbn [fst snd]. split; [reflexivity|]. intros r Hr. discriminate. }
  destruct (Codec.Version c =? 0); [exact Hcreate|].
  assert (Hstore : store (poke t x w) = store w) by reflexivity.
  rewrite Hstore.
  destruct (store w !! (NewPrefixDB (treeDB imf) prefix, Codec.Version c)) as [lg|];
    cbn [fst snd].
  - split.
    + unfold loaded, poke. cbn [set_heap heap store loads emptyTree tdb].
      do 3 f_equal. unfold set_heap. cbn [heap store loads]. f_equal.
      apply insert_insert_ne. exact Hl.
    + intros r Hr. inversion Hr; subst. exact Hl.
  - split; [reflexivity|]. intros r Hr. discriminate.
Qed.

(** C4 (amended). After [Writer(p).Set(k, v)] and before the next Save:
    Writer(p) returns the same instance, in which [k] reads [v]; a Reader(p)
    of the same forest returns that instance too, and so observes [v], as
    long as the tree cache still holds it for [p]; and in a forest that does
    not hold the instance (a separate forest on the same store) Reader(p)
    resolves as it would have without the write, to another instance, in
    which [k] reads what it would have read without the write. *)
Theorem write_buffering (p k v : bytes) (s s1 : MState) (t : loc) (w2 : World) :
  Writer p s = (Ok t, s1) ->
  RWTree_Set t k v s1.2 = (Ok tt, w2) ->
  Writer p (s1.1, w2) = (Ok t, (s1.1, w2)) /\
  (RWTree_Get t k w2).1 = Ok (Some v) /\
  (lru_find p (lru_items (treeCache (imf s1.1))) = Some t ->
   (Reader p (imf s1.1, w2)).1 = Ok t /\
   (Reader p (imf s1.1, w2)).2.2 = w2 /\
   (RWTree_Get t k (Reader p (imf s1.1, w2)).2.2).1 = Ok (Some v)) /\
  (forall (other : ImmutableForest) (ctr : RWTree),
      heap s1.2 !! imf_commitsTree other = Some ctr ->
      imf_commitsTree other <> t ->
      lru_find p (lru_items (treeCache other)) <> Some t ->
      (Reader p (other, w2)).1 = (Reader p (other, s1.2)).1 /\
      forall r, (Reader p (other, w2)).1 = Ok r ->
        r <> t /\
        (RWTree_Get r k (Reader p (other, w2)).2.2).1
        = (RWTree_Get r k (Reader p (other, s1.2)).2.2).1).
Proof.
  destruct s as [muf w], s1 as [muf1 w1]. cbn [fst snd]. intros Hw Hset.
  assert (Hd : dirty muf1 !! p = Some t).
  { destruct (dirty muf !! p) as [t0|] eqn:Hd0.
    - rewrite (Writer_dirty _ _ _ _ Hd0) in Hw. inversion Hw; subst. exact Hd0.
    - rewrite (Writer_first _ _ _ Hd0) in Hw.
      destruct (tree p (imf muf, w)) as [[t1|e] [imf' w']]; [|discriminate].
      inversion Hw; subst. cbn [dirty]. apply lookup_insert_eq. }
  destruct (heap w1 !! t) as [tr|] eqn:Ht.
  2:{ unfold RWTree_Set, with_tree in Hset. rewrite Ht in Hset. discriminate. }
  rewrite (RWTree_Set_eq t tr k v w1 Ht) in Hset. inversion Hset; subst w2.
  clear Hset.
  set (x := mkRWTree (tdb tr) ((k, Some v) :: tlog tr) (tversion tr) true).
  assert (Hx : heap (poke t x w1) !! t = Some x).
  { unfold poke. cbn [set_heap heap]. apply lookup_insert_eq. }
  assert (Hget : (RWTree_Get t k (poke t x w1)).1 = Ok (Some v)).
  { rewrite (RWTree_Get_eq t x k _ Hx). subst x. cbn [fst tlog log_get].
    rewrite decide_True by reflexivity. reflexivity. }
  split; [apply Writer_dirty, Hd|]. split; [exact Hget|]. split.
  - intros Hc. unfold Reader. rewrite (tree_cached _ _ _ _ Hc). cbn [fst snd].
    split; [reflexivity|]. split; [reflexivity | exact Hget].
  - intros other ctr Hct Hne Hc. unfold Reader.
    destruct (tree_poke p other w1 t x tr ctr Ht Hct Hne Hc) as [Heq Hr].
    rewrite Heq. cbn [fst snd]. split; [reflexivity|].
    intros r Hres. split; [apply Hr, Hres|].
    apply RWTree_Get_poke, Hr, Hres.
Qed.

End ResolveFacts.
(** * The well-formedness check is sound *)

Lemma tree_forb_sound (treeDB prefix : bytes) (w : World) (t : loc) :
  tree_forb treeDB prefix w t = true -> tree_for treeDB prefix w t.
Proof.
  unfold tree_forb, tree_for. destruct (heap w !! t) as [tr|]; [|discriminate].
  intros Hb. apply bool_decide_eq_true in Hb. exists tr. split; [reflexivity | exact Hb].
Qed.

Lemma forest_wfb_sound (muf : MutableForest) (w : World) :
  forest_wfb muf w = true -> forest_wf muf w.
Proof.
  unfold forest_wfb. rewrite !andb_true_iff.
  intros [[[[[He Hc] Hn] Hdom] Hd] Hcache].
  apply bool_decide_eq_true in He, Hn, Hdom.
  rewrite forallb_forall in Hd, Hcache.
  assert (Hlisted : forall p, p ∈ dirtyPrefixes muf <-> is_Some (dirty muf !! p)).
  { intros p. rewrite <- elem_of_dom, Hdom, elem_of_list_to_set. reflexivity. }
  split.
  - exact He.
  - destruct (heap w !! commitsTree muf) as [ctr|]; [|discriminate].
    exists ctr. split; [reflexivity|]. intros p Heq.
    apply negb_true_iff, bool_decide_eq_false in Hc. apply Hc.
    exists p. exact Heq.
  - exact Hn.
  - exact Hlisted.
  - intros p t Hp.
    assert (Hin : p ∈ dirtyPrefixes muf) by (apply Hlisted; eexists; exact Hp).
    apply list_elem_of_In in Hin. specialize (Hd p Hin). rewrite Hp in Hd.
    apply tree_forb_sound, Hd.
  - intros p t Hin. apply list_elem_of_In in Hin.
    apply (tree_forb_sound _ p w t), (Hcache (p, t) Hin).
Qed.
(** * Well-formedness is an invariant *)

Section Invariant.
Context {collab : Collab} {allocator : Allocator}.
Local Open Scope monad_scope.

Lemma heap_ext_refl (w : World) : heap_ext w w.
Proof. intros t tr Ht. exists tr. split; [exact Ht | reflexivity]. Qed.

Lemma heap_ext_trans (w1 w2 w3 : World) :
  heap_ext w1 w2 -> heap_ext w2 w3 -> heap_ext w1 w3.
Proof.
  intros H12 H23 t tr Ht. destruct (H12 t tr Ht) as (tr2 & Ht2 & Hdb2).
  destruct (H23 t tr2 Ht2) as (tr3 & Ht3 & Hdb3).
  exists tr3. split; [exact Ht3 | congruence].
Qed.

(** Replacing a live tree by one on the same view. *)
Lemma heap_ext_update (w : World) (t : loc) (tr x : RWTree)
    (st : gmap (bytes * Z) log) (lo : list (bytes * Z * bool)) :
  heap w !! t = Some tr -> tdb x = tdb tr ->
  heap_ext w (mkWorld (<[t := x]> (heap w)) st lo).
Proof.
  intros Ht Hdb t' tr' Ht'. cbn [heap].
  destruct (decide (t' = t)) as [->|Hne].
  - rewrite lookup_insert_eq. exists x. split; [reflexivity | congruence].
  - rewrite lookup_insert_ne by congruence. exists tr'. split; [exact Ht' | reflexivity].
Qed.

(** Adding a tree at a new address. *)
Lemma heap_ext_alloc (w : World) (x : RWTree) :
  heap_ext w (set_heap (insert (alloc (dom (heap w))) x) w).
Proof.
  intros t tr Ht. cbn [set_heap heap].
  rewrite lookup_insert_ne by (eapply alloc_ne; exact Ht).
  exists tr. split; [exact Ht | reflexivity].
Qed.

Lemma heap_ext_same_heap (w w' : World) : heap w' = heap w -> heap_ext w w'.
Proof. intros Heq t tr Ht. rewrite Heq. exists tr. split; [exact Ht | reflexivity]. Qed.

Lemma RWTree_Set_ext (t : loc) (key value : bytes) (w : World) :
  heap_ext w (RWTree_Set t key value w).2.
Proof.
  unfold RWTree_Set. run_monad. destruct (heap w !! t) as [tr|] eqn:Ht; cbn [snd].
  - apply (heap_ext_update w t tr); [exact Ht | reflexivity].
  - apply heap_ext_refl.
Qed.

Lemma RWTree_Delete_ext (t : loc) (key : bytes) (w : World) :
  heap_ext w (RWTree_Delete t key w).2.
Proof.
  unfold RWTree_Delete. run_monad. destruct (heap w !! t) as [tr|] eqn:Ht; cbn [snd].
  - destruct (log_get key (tlog tr)); cbn [snd].
    + apply (heap_ext_update w t tr); [exact Ht | reflexivity].
    + apply heap_ext_refl.
  - apply heap_ext_refl.
Qed.

Lemma RWTree_Save_ext (t : loc) (w : World) : heap_ext w (RWTree_Save t w).2.
Proof.
  unfold RWTree_Save. run_monad. destruct (heap w !! t) as [tr|] eqn:Ht; cbn [snd].
  - destruct (save_fault _ _); cbn [snd].
    + apply heap_ext_refl.
    + apply (heap_ext_update w t tr); [exact Ht | reflexivity].
  - apply heap_ext_refl.
Qed.

Lemma RWTree_Load_ext (t : loc) (version : Z) (overwriting : bool) (w : World) :
  heap_ext w (RWTree_Load t version overwriting w).2.
Proof.
  destruct (heap w !! t) as [tr|] eqn:Ht.
  - rewrite (RWTree_Load_eq t tr version overwriting w Ht).
    destruct (store w !! _); cbn [snd].
    + apply (heap_ext_update w t tr); [exact Ht | reflexivity].
    + apply heap_ext_same_heap. reflexivity.
  - unfold RWTree_Load, with_tree. rewrite Ht. apply heap_ext_refl.
Qed.

Lemma forest_wf_ext (muf : MutableForest) (w w' : World) :
  forest_wf muf w -> heap_ext w w' -> forest_wf muf w'.
Proof.
  intros Hwf Hext.
  assert (Hfor : forall p t, tree_for (treeDB (imf muf)) p w t ->
                             tree_for (treeDB (imf muf)) p w' t).
  { intros p t (tr & Ht & Hdb). destruct (Hext t tr Ht) as (tr' & Ht' & Hdb').
    exists tr'. split; [exact Ht' | congruence]. }
  split.
  - apply (wf_embedded _ _ Hwf).
  - destruct (wf_commits _ _ Hwf) as (ctr & Hct & Hview).
    destruct (Hext _ _ Hct) as (ctr' & Hct' & Hdb').
    exists ctr'. split; [exact Hct'|]. intros p. rewrite Hdb'. apply Hview.
  - apply (wf_nodup _ _ Hwf).
  - apply (wf_listed _ _ Hwf).
  - intros p t Hd. apply Hfor, (wf_dirty _ _ Hwf p t Hd).
  - intros p t Hc. apply Hfor, (wf_cache _ _ Hwf p t Hc).
Qed.

(** ** The tree cache *)

Lemma lru_find_Some (key : bytes) (items : list (bytes * loc)) (v : loc) :
  lru_find key items = Some v -> (key, v) ∈ items.
Proof.
  induction items as [|[k x] items IH]; [discriminate|]. cbn [lru_find].
  destruct (decide (k = key)) as [->|Hne].
  - intros Heq. inversion Heq; subst. apply elem_of_cons. left. reflexivity.
  - intros Hf. apply elem_of_cons. right. apply IH, Hf.
Qed.

Lemma lru_remove_subset (key : bytes) (items : list (bytes * loc))
    (e : bytes * loc) :
  e ∈ lru_remove key items -> e ∈ items.
Proof.
  induction items as [|[k x] items IH]; [intros Hin; exact Hin|].
  cbn [lru_remove]. destruct (decide (k = key)).
  - intros Hin. apply elem_of_cons. right. exact Hin.
  - intros Hin. apply elem_of_cons in Hin as [-> | Hin].
    + apply elem_of_cons. left. reflexivity.
    + apply elem_of_cons. right. apply IH, Hin.
Qed.

Lemma removelast_subset {A} (l : list A) (e : A) : e ∈ removelast l -> e ∈ l.
Proof.
  induction l as [|a l IH]; [intros Hin; exact Hin|]. cbn [removelast].
  destruct l as [|b l].
  - intros Hin. apply elem_of_nil in Hin as [].
  - intros Hin. apply elem_of_cons in Hin as [-> | Hin].
    + apply elem_of_cons. left. reflexivity.
    + apply elem_of_cons. right. apply IH, Hin.
Qed.

Lemma lru_Add_elem (key : bytes) (value : loc) (c : Cache) (e : bytes * loc) :
  e ∈ lru_items (lru_Add key value c) -> e = (key, value) \/ e ∈ lru_items c.
Proof.
  unfold lru_Add. destruct (lru_find key (lru_items c)); cbn [lru_items].
  - intros Hin. apply elem_of_cons in Hin as [-> | Hin]; [left; reflexivity|].
    right. eapply lru_remove_subset, Hin.
  - destruct (lru_size c <? _); cbn [lru_items]; intros Hin.
    + apply removelast_subset in Hin.
      apply elem_of_cons in Hin as [-> | Hin]; [left; reflexivity | right; exact Hin].
    + apply elem_of_cons in Hin as [-> | Hin]; [left; reflexivity | right; exact Hin].
Qed.

Lemma lru_Get_elem (key : bytes) (c : Cache) (e : bytes * loc) :
  e ∈ lru_items (lru_Get key c).2 -> e ∈ lru_items c.
Proof.
  unfold lru_Get. destruct (lru_find key (lru_items c)) as [v|] eqn:Hf;
    cbn [snd lru_items]; [|intros Hin; exact Hin].
  intros Hin. apply elem_of_cons in Hin as [-> | Hin].
  - apply lru_find_Some, Hf.
  - eapply lru_remove_subset, Hin.
Qed.

Lemma tree_for_ext (treeDB p : bytes) (w w' : World) (t : loc) :
  heap_ext w w' -> tree_for treeDB p w t -> tree_for treeDB p w' t.
Proof.
  intros Hext (tr & Ht & Hdb). destruct (Hext t tr Ht) as (tr' & Ht' & Hdb').
  exists tr'. split; [exact Ht' | congruence].
Qed.

Lemma cache_ok_ext (imf : ImmutableForest) (w w' : World) :
  heap_ext w w' -> cache_ok imf w -> cache_ok imf w'.
Proof. intros Hext Hok p t Hin. eapply tree_for_ext; [exact Hext | apply Hok, Hin]. Qed.

Lemma newTree_resolved (prefix : bytes) (imf : ImmutableForest) (w : World) :
  cache_ok imf w ->
  resolved prefix imf w (newTree prefix (imf, w)).1
    (newTree prefix (imf, w)).2.1 (newTree prefix (imf, w)).2.2.
Proof.
  intros Hok. rewrite newTree_eq. cbn [fst snd].
  assert (Hnew : tree_for (treeDB imf) prefix
            (set_heap (insert (alloc (dom (heap w)))
               (mkRWTree (NewPrefixDB (treeDB imf) prefix) [] 0 false)) w)
            (alloc (dom (heap w)))).
  { eexists. cbn [set_heap heap]. rewrite lookup_insert_eq.
    split; reflexivity. }
  split; try reflexivity.
  - apply heap_ext_alloc.
  - intros p t Hin. cbn [set_treeCache treeCache treeDB] in *.
    apply lru_Add_elem in Hin as [Heq | Hin].
    + inversion Heq; subst. exact Hnew.
    + eapply tree_for_ext; [apply heap_ext_alloc | apply Hok, Hin].
  - intros t Heq. inversion Heq; subst. exact Hnew.
Qed.

Lemma resolved_trans (prefix : bytes) (imf imf1 imf2 : ImmutableForest)
    (w w1 w2 : World) (r1 r2 : result loc) :
  resolved prefix imf w r1 imf1 w1 ->
  resolved prefix imf1 w1 r2 imf2 w2 ->
  resolved prefix imf w r2 imf2 w2.
Proof.
  intros H1 H2. split.
  - eapply heap_ext_trans; [apply (rs_ext _ _ _ _ _ _ H1) | apply (rs_ext _ _ _ _ _ _ H2)].
  - apply (rs_cache _ _ _ _ _ _ H2).
  - rewrite (rs_commits _ _ _ _ _ _ H2). apply (rs_commits _ _ _ _ _ _ H1).
  - rewrite (rs_treeDB _ _ _ _ _ _ H2). apply (rs_treeDB _ _ _ _ _ _ H1).
  - rewrite (rs_size _ _ _ _ _ _ H2). apply (rs_size _ _ _ _ _ _ H1).
  - rewrite (rs_overwriting _ _ _ _ _ _ H2). apply (rs_overwriting _ _ _ _ _ _ H1).
  - intros t Heq. rewrite <- (rs_treeDB _ _ _ _ _ _ H1).
    apply (rs_tree _ _ _ _ _ _ H2 t Heq).
Qed.

Lemma tree_resolved (prefix : bytes) (imf : ImmutableForest) (w : World) :
  cache_ok imf w ->
  resolved prefix imf w (tree prefix (imf, w)).1
    (tree prefix (imf, w)).2.1 (tree prefix (imf, w)).2.2.
Proof.
  intros Hok.
  destruct (lru_find prefix (lru_items (treeCache imf))) as [t0|] eqn:Hfind.
  { rewrite (tree_cached _ _ _ _ Hfind). cbn [fst snd].
    split; try reflexivity.
    - apply heap_ext_refl.
    - intros p t Hin. cbn [set_treeCache treeCache treeDB] in *.
      apply Hok. eapply lru_Get_elem, Hin.
    - intros t Heq. inversion Heq; subst. apply Hok, lru_find_Some, Hfind. }
  rewrite (tree_not_cached _ _ _ Hfind).
  pose proof (newTree_resolved prefix imf w Hok) as H1.
  destruct (loadOrCreateTree prefix (imf, w)) as [r [imf' w']] eqn:Hrun.
  cbn [fst snd]. revert Hrun.
  unfold loadOrCreateTree. unfold bind at 1.
  destruct (newTree prefix (imf, w)) as [[l|e] [imf1 w1]] eqn:Hnew;
    cbn [fst snd] in H1; [|rewrite newTree_eq in Hnew; discriminate].
  unfold bind at 1. unfold wrap at 1.
  pose proof (commitID_state prefix imf1 w1) as Hstate.
  destruct (commitID prefix (imf1, w1)) as [[c|e] [imf2 w2]]; cbn [snd] in Hstate;
    inversion Hstate; subst imf2 w2; clear Hstate; cbn [fst snd].
  2:{ intros Hrun. inversion Hrun; subst.
      destruct H1. split; try assumption. intros t Heq. discriminate. }
  destruct (Codec.Version c =? 0).
  { intros Hrun.
    pose proof (newTree_resolved prefix imf1 w1 (rs_cache _ _ _ _ _ _ H1)) as H2.
    rewrite Hrun in H2. cbn [fst snd] in H2.
    eapply resolved_trans; [exact H1 | exact H2]. }
  unfold bind at 1. unfold get at 1. cbn [fst].
  unfold bind at 1. unfold wrap, inWorld.
  pose proof (RWTree_Load_ext l (Codec.Version c) (overwriting imf1) w1) as Hload.
  destruct (RWTree_Load l (Codec.Version c) (overwriting imf1) w1) as [[[]|e] w3];
    cbn [fst snd ret] in *; intros Hrun; inversion Hrun; subst.
  - destruct H1. split; try assumption.
    + eapply heap_ext_trans; eassumption.
    + eapply cache_ok_ext; eassumption.
    + intros t Heq. inversion Heq; subst t.
      eapply tree_for_ext; [exact Hload | apply rs_tree0; reflexivity].
  - destruct H1. split; try assumption.
    + eapply heap_ext_trans; eassumption.
    + eapply cache_ok_ext; eassumption.
    + intros t Heq. discriminate.
Qed.

(** ** The methods of the forest *)

Lemma NewMutableForest_wf (db : bytes) (cacheSize : Z) (w : World)
    (muf : MutableForest) (w' : World) :
  NewMutableForest db cacheSize w = (Ok muf, w') ->
  forest_wf muf w' /\ heap_ext w w' /\ dirtyPrefixes muf = [].
Proof.
  unfold NewMutableForest, NewRWTree. run_monad. unfold NewImmutableForest.
  destruct (lru_New cacheSize) as [cache|e] eqn:Hc; [|discriminate].
  cbn [fold_left]. intros Heq. inversion Heq; subst. clear Heq.
  unfold lru_New in Hc. destruct (cacheSize <=? 0); [discriminate|].
  inversion Hc; subst cache. clear Hc.
  split; [|split; [apply heap_ext_alloc | reflexivity]].
  split; cbn [imf commitsTree imf_commitsTree WithOverwriting treeDB treeCache
                lru_items dirty dirtyPrefixes set_heap heap].
  - reflexivity.
  - eexists. rewrite lookup_insert_eq. split; [reflexivity|].
    intros p. cbn [tdb]. unfold NewPrefixDB. rewrite <- app_assoc.
    intros Heq. apply app_inv_head in Heq. discriminate.
  - constructor.
  - intros p. rewrite lookup_empty. split.
    + intros Hin. apply elem_of_nil in Hin as [].
    + intros [x Hx]. discriminate.
  - intros p t Hd. rewrite lookup_empty in Hd. discriminate.
  - intros p t Hin. apply elem_of_nil in Hin as [].
Qed.

Lemma forest_wf_cache (muf : MutableForest) (w : World) :
  forest_wf muf w -> cache_ok (imf muf) w.
Proof. intros Hwf p t Hin. apply (wf_cache _ _ Hwf p t Hin). Qed.

(** Reading through the embedded forest. *)
Lemma promoted_tree_wf (prefix : bytes) (muf : MutableForest) (w : World) :
  forest_wf muf w ->
  forest_wf (promoted (tree prefix) (muf, w)).2.1
            (promoted (tree prefix) (muf, w)).2.2 /\
  heap_ext w (promoted (tree prefix) (muf, w)).2.2.
Proof.
  intros Hwf. unfold promoted.
  pose proof (tree_resolved prefix (imf muf) w (forest_wf_cache _ _ Hwf)) as Hr.
  destruct (tree prefix (imf muf, w)) as [r [imf' w']]. cbn [fst snd] in *.
  destruct Hr. split; [|exact rs_ext0].
  pose proof (forest_wf_ext _ _ _ Hwf rs_ext0) as Hwf'.
  split; cbn [set_imf imf commitsTree dirty dirtyPrefixes].
  - rewrite rs_commits0. apply (wf_embedded _ _ Hwf).
  - rewrite rs_treeDB0. apply (wf_commits _ _ Hwf').
  - apply (wf_nodup _ _ Hwf).
  - apply (wf_listed _ _ Hwf).
  - rewrite rs_treeDB0. apply (wf_dirty _ _ Hwf').
  - exact rs_cache0.
Qed.

Lemma Writer_wf (prefix : bytes) (muf : MutableForest) (w : World) :
  forest_wf muf w ->
  forest_wf (Writer prefix (muf, w)).2.1 (Writer prefix (muf, w)).2.2 /\
  heap_ext w (Writer prefix (muf, w)).2.2 /\
  (forall t, (Writer prefix (muf, w)).1 = Ok t ->
     tree_for (treeDB (imf muf)) prefix (Writer prefix (muf, w)).2.2 t).
Proof.
  intros Hwf. destruct (dirty muf !! prefix) as [t0|] eqn:Hd.
  - rewrite (Writer_dirty _ _ _ _ Hd). cbn [fst snd].
    split; [exact Hwf|]. split; [apply heap_ext_refl|].
    intros t Heq. inversion Heq; subst. apply (wf_dirty _ _ Hwf _ _ Hd).
  - rewrite (Writer_first _ _ _ Hd).
    pose proof (tree_resolved prefix (imf muf) w (forest_wf_cache _ _ Hwf)) as Hr.
    pose proof (promoted_tree_wf prefix muf w Hwf) as [Hp _]. unfold promoted in Hp.
    destruct (tree prefix (imf muf, w)) as [[t|e] [imf' w']]; cbn [fst snd] in *.
    2:{ split; [exact Hp|]. split; [apply (rs_ext _ _ _ _ _ _ Hr)|].
        intros t Heq. discriminate. }
    pose proof (rs_tree _ _ _ _ _ _ Hr t eq_refl) as Ht.
    split; [|split; [apply (rs_ext _ _ _ _ _ _ Hr)|]].
    2:{ intros t' Heq. inversion Heq; subst. exact Ht. }
    destruct Hp. cbn [set_imf imf commitsTree dirty dirtyPrefixes] in *.
    assert (Hnot : prefix ∉ dirtyPrefixes muf).
    { intros Hin. apply wf_listed0 in Hin as [x Hx]. congruence. }
    split; cbn [imf commitsTree dirty dirtyPrefixes]; try assumption.
    + apply NoDup_app. split; [exact wf_nodup0|]. split; [|apply NoDup_singleton].
      intros x Hx Hx'. apply list_elem_of_singleton in Hx'. subst x. contradiction.
    + intros q. rewrite elem_of_app, list_elem_of_singleton, wf_listed0.
      destruct (decide (q = prefix)) as [->|Hne].
      * rewrite lookup_insert_eq. split; [intros _; eexists; reflexivity | right; reflexivity].
      * rewrite lookup_insert_ne by congruence. split; [intros [Hq|Hq]; [exact Hq|contradiction] | left; assumption].
    + intros q t' Hq. destruct (decide (q = prefix)) as [->|Hne].
      * rewrite lookup_insert_eq in Hq. inversion Hq; subst.
        rewrite (rs_treeDB _ _ _ _ _ _ Hr). exact Ht.
      * rewrite lookup_insert_ne in Hq by congruence. apply wf_dirty0, Hq.
Qed.

Lemma Save_loop_ext (ps : list bytes) :
  forall (muf : MutableForest) (w : World) (r : result unit)
         (muf' : MutableForest) (w' : World),
    Save_loop ps (muf, w) = (r, (muf', w')) ->
    muf' = muf /\ heap_ext w w'.
Proof.
  induction ps as [|p ps IH]; intros muf w r muf' w'.
  - intros Heq. inversion Heq; subst. split; [reflexivity | apply heap_ext_refl].
  - cbn [Save_loop]. unfold bind at 1. unfold get at 1. cbn [fst].
    destruct (dirty muf !! p) as [t|].
    2:{ intros Heq. inversion Heq; subst. split; [reflexivity | apply heap_ext_refl]. }
    unfold bind at 1. unfold inWorld at 1. unfold RWTree_Updated, with_tree.
    destruct (heap w !! t) as [tr|].
    2:{ intros Heq. inversion Heq; subst. split; [reflexivity | apply heap_ext_refl]. }
    cbn [ret]. unfold bind at 1.
    destruct (tupdated tr).
    2:{ cbn [ret]. apply IH. }
    unfold saveTree. unfold bind at 1. unfold wrap, inWorld.
    pose proof (RWTree_Save_ext t w) as Hs.
    destruct (RWTree_Save t w) as [[hv|e] w1]; cbn [snd] in Hs.
    2:{ intros Heq. inversion Heq; subst. split; [reflexivity | exact Hs]. }
    unfold setCommit.
    destruct (Codec.marshalCommitID hv.1 hv.2) as [[bs|]|e];
      try (intros Heq; inversion Heq; subst; split; [reflexivity | exact Hs]).
    unfold bind at 1. unfold get at 1. cbn [fst]. unfold inWorld.
    pose proof (RWTree_Set_ext (commitsTree muf) p bs w1) as Hc.
    destruct (RWTree_Set (commitsTree muf) p bs w1) as [[[]|e] w2]; cbn [snd] in Hc.
    + intros Heq. destruct (IH muf w2 _ _ _ Heq) as [Hm He]. split; [exact Hm|].
      eapply heap_ext_trans; [exact Hs|]. eapply heap_ext_trans; eassumption.
    + intros Heq. inversion Heq; subst. split; [reflexivity|].
      eapply heap_ext_trans; eassumption.
Qed.

Lemma forest_wf_clean (muf : MutableForest) (w : World) :
  forest_wf muf w -> forest_wf (set_dirty ∅ [] muf) w.
Proof.
  intros Hwf. destruct Hwf. split; cbn [set_dirty imf commitsTree dirty dirtyPrefixes];
    try assumption.
  - constructor.
  - intros p. rewrite lookup_empty. split.
    + intros Hin. apply elem_of_nil in Hin as [].
    + intros [x Hx]. discriminate.
  - intros p t Hd. rewrite lookup_empty in Hd. discriminate.
Qed.

Lemma Save_wf (muf : MutableForest) (w : World) :
  forest_wf muf w ->
  forest_wf (Save (muf, w)).2.1 (Save (muf, w)).2.2 /\
  heap_ext w (Save (muf, w)).2.2 /\
  (is_Ok (Save (muf, w)).1 = true -> dirtyPrefixes (Save (muf, w)).2.1 = []).
Proof.
  intros Hwf. rewrite Save_eq.
  destruct (Save_loop (dirtyPrefixes muf) (muf, w)) as [[[]|e] [muf1 w1]] eqn:Hl;
    destruct (Save_loop_ext _ _ _ _ _ _ Hl) as [Hm He];
    cbn [fst snd] in *; subst muf1.
  - unfold inWorld. pose proof (RWTree_Save_ext (commitsTree muf) w1) as Hs.
    destruct (RWTree_Save (commitsTree muf) w1) as [r w2]. cbn [fst snd] in *.
    split; [|split; [eapply heap_ext_trans; eassumption | reflexivity]].
    apply forest_wf_clean. eapply forest_wf_ext; [exact Hwf|].
    eapply heap_ext_trans; eassumption.
  - split; [eapply forest_wf_ext; eassumption|]. split; [exact He | discriminate].
Qed.

Lemma Delete_wf (prefix : bytes) (muf : MutableForest) (w : World) :
  forest_wf muf w ->
  forest_wf (Delete prefix (muf, w)).2.1 (Delete prefix (muf, w)).2.2.
Proof.
  intros Hwf. unfold Delete. unfold bind at 1 3. unfold get at 1 2. cbn [fst].
  unfold bind at 1 2. unfold inWorld.
  pose proof (RWTree_Delete_ext (commitsTree muf) prefix w) as He.
  destruct (RWTree_Delete (commitsTree muf) prefix w) as [[r|e] w1]; cbn [snd] in *.
  - destruct (negb r.2); cbn [ret snd fst].
    + eapply forest_wf_ext; eassumption.
    + destruct (Codec.unmarshalCommitID r.1); cbn [ret throw snd fst];
        eapply forest_wf_ext; eassumption.
  - eapply forest_wf_ext; eassumption.
Qed.

End Invariant.
(** * Sequences of calls: the order of the dirty list *)

Section Epoch.
Context {collab : Collab} {allocator : Allocator}.
Local Open Scope monad_scope.

Lemma Writer_touch (prefix : bytes) (s s' : MState) (t : loc) :
  forest_wf s.1 s.2 ->
  Writer prefix s = (Ok t, s') ->
  dirtyPrefixes s'.1 = touch (dirtyPrefixes s.1) prefix /\
  commitsTree s'.1 = commitsTree s.1 /\
  tree_for (treeDB (imf s.1)) prefix s'.2 t.
Proof.
  destruct s as [muf w]. cbn [fst snd]. intros Hwf Hw.
  pose proof (Writer_wf prefix muf w Hwf) as (_ & _ & Htree).
  rewrite Hw in Htree. cbn [fst snd] in Htree. specialize (Htree t eq_refl).
  unfold touch. destruct (dirty muf !! prefix) as [t0|] eqn:Hd.
  - rewrite (Writer_dirty _ _ _ _ Hd) in Hw. inversion Hw; subst. cbn [fst].
    rewrite decide_True; [auto|]. apply (wf_listed _ _ Hwf). eexists. exact Hd.
  - rewrite (Writer_first _ _ _ Hd) in Hw.
    destruct (tree prefix (imf muf, w)) as [[t1|e] [imf' w']]; [|discriminate].
    inversion Hw; subst. cbn [fst dirtyPrefixes commitsTree].
    rewrite decide_False; [auto|]. intros Hin.
    apply (wf_listed _ _ Hwf) in Hin as [x Hx]. congruence.
Qed.

(** A call other than Save keeps the forest well formed and appends its
    prefix to the dirty-order list if it is not there yet. *)
Lemma run_op_touch (o : op) (p : bytes) (s s' : MState)
    (r : option (bytes * Z)) :
  forest_wf s.1 s.2 -> op_prefix o = Some p ->
  run_op o s = (Ok r, s') ->
  forest_wf s'.1 s'.2 /\ r = None /\
  dirtyPrefixes s'.1 = touch (dirtyPrefixes s.1) p /\
  commitsTree s'.1 = commitsTree s.1.
Proof.
  destruct s as [muf w]. cbn [fst snd]. intros Hwf Hp.
  pose proof (Writer_wf p muf w Hwf) as (Hwf1 & _ & _).
  destruct o as [q | q key value | q key |]; inversion Hp; subst q;
    cbn [run_op]; unfold bind at 1;
    destruct (Writer p (muf, w)) as [[t|e] [muf1 w1]] eqn:Hw; try discriminate;
    destruct (Writer_touch p (muf, w) (muf1, w1) t Hwf Hw) as (Hd & Hc & _);
    cbn [fst snd] in *.
  - intros Heq. inversion Heq; subst. auto.
  - unfold bind at 1. unfold inWorld.
    pose proof (RWTree_Set_ext t key value w1) as He.
    destruct (RWTree_Set t key value w1) as [[[]|e] w2]; [|discriminate].
    intros Heq. inversion Heq; subst. cbn [fst snd] in *.
    split; [eapply forest_wf_ext; eassumption | auto].
  - unfold bind at 1. unfold inWorld.
    pose proof (RWTree_Delete_ext t key w1) as He.
    destruct (RWTree_Delete t key w1) as [[x|e] w2]; [|discriminate].
    intros Heq. inversion Heq; subst. cbn [fst snd] in *.
    split; [eapply forest_wf_ext; eassumption | auto].
Qed.

Lemma run_ops_touch (ops : list op) :
  forall (s s' : MState) (rs : list (bytes * Z)),
    forest_wf s.1 s.2 ->
    Forall (fun o => o <> OpSave) ops ->
    run_ops ops s = (Ok rs, s') ->
    forest_wf s'.1 s'.2 /\ rs = [] /\
    dirtyPrefixes s'.1 = fold_left touch (omap op_prefix ops) (dirtyPrefixes s.1) /\
    commitsTree s'.1 = commitsTree s.1.
Proof.
  induction ops as [|o ops IH]; intros s s' rs Hwf Hops.
  - intros Heq. inversion Heq; subst. auto.
  - apply Forall_cons in Hops as [Ho Hops].
    assert (Hp : exists p, op_prefix o = Some p).
    { destruct o; try (eexists; reflexivity). contradiction. }
    destruct Hp as [p Hp].
    cbn [run_ops]. unfold bind at 1.
    destruct (run_op o s) as [[r|e] s1] eqn:Hrun; [|discriminate].
    destruct (run_op_touch o p s s1 r Hwf Hp Hrun) as (Hwf1 & -> & Hd1 & Hc1).
    unfold bind at 1.
    destruct (run_ops ops s1) as [[rs1|e] s2] eqn:Hrest; [|discriminate].
    destruct (IH s1 s2 rs1 Hwf1 Hops Hrest) as (Hwf2 & -> & Hd2 & Hc2).
    intros Heq. inversion Heq; subst.
    split; [exact Hwf2|]. split; [reflexivity|].
    cbn [omap list_omap]. rewrite Hp. cbn [fold_left].
    rewrite Hd2, Hd1. split; [reflexivity | congruence].
Qed.

(** Whatever the calls and however they end, the forest stays well
    formed: the hypothesis of the theorems about Save holds of every forest
    that [NewMutableForest] built and that was used through these calls. *)
Lemma run_op_wf (o : op) (s s' : MState) (r : result (option (bytes * Z))) :
  forest_wf s.1 s.2 -> run_op o s = (r, s') -> forest_wf s'.1 s'.2.
Proof.
  destruct s as [muf w]. cbn [fst snd]. intros Hwf.
  destruct o as [p | p key value | p key |]; cbn [run_op]; unfold bind at 1.
  - pose proof (Writer_wf p muf w Hwf) as (Hwf1 & _ & _).
    destruct (Writer p (muf, w)) as [[t|e] [muf1 w1]];
      intros Heq; inversion Heq; subst; exact Hwf1.
  - pose proof (Writer_wf p muf w Hwf) as (Hwf1 & _ & _).
    destruct (Writer p (muf, w)) as [[t|e] [muf1 w1]];
      [|intros Heq; inversion Heq; subst; exact Hwf1].
    cbn [fst snd] in Hwf1. unfold bind at 1. unfold inWorld.
    pose proof (RWTree_Set_ext t key value w1) as He.
    destruct (RWTree_Set t key value w1) as [[[]|e] w2]; cbn [fst snd ret] in *;
      intros Heq; inversion Heq; subst; eapply forest_wf_ext; eassumption.
  - pose proof (Writer_wf p muf w Hwf) as (Hwf1 & _ & _).
    destruct (Writer p (muf, w)) as [[t|e] [muf1 w1]];
      [|intros Heq; inversion Heq; subst; exact Hwf1].
    cbn [fst snd] in Hwf1. unfold bind at 1. unfold inWorld.
    pose proof (RWTree_Delete_ext t key w1) as He.
    destruct (RWTree_Delete t key w1) as [[x|e] w2]; cbn [fst snd ret] in *;
      intros Heq; inversion Heq; subst; eapply forest_wf_ext; eassumption.
  - pose proof (Save_wf muf w Hwf) as (Hwf1 & _ & _).
    destruct (Save (muf, w)) as [[hv|e] [muf1 w1]];
      intros Heq; inversion Heq; subst; exact Hwf1.
Qed.

Lemma run_ops_wf (ops : list op) :
  forall (s s' : MState) (r : result (list (bytes * Z))),
    forest_wf s.1 s.2 -> run_ops ops s = (r, s') -> forest_wf s'.1 s'.2.
Proof.
  induction ops as [|o ops IH]; intros s s' r Hwf.
  - intros Heq. inversion Heq; subst. exact Hwf.
  - cbn [run_ops]. unfold bind at 1.
    destruct (run_op o s) as [[x|e] s1] eqn:Hop;
      pose proof (run_op_wf o s s1 _ Hwf Hop) as Hwf1.
    2:{ intros Heq. inversion Heq; subst. exact Hwf1. }
    unfold bind at 1.
    destruct (run_ops ops s1) as [[rs|e] s2] eqn:Hrest;
      pose proof (IH s1 s2 _ Hwf1 Hrest) as Hwf2;
      intros Heq; inversion Heq; subst; exact Hwf2.
Qed.

End Epoch.
(** * Two runs side by side: the addresses do not matter *)

Section Simulation.
Context {collab : Collab}.
Variables (A1 A2 : Allocator).
Local Open Scope monad_scope.

(** ** The monad *)

Lemma sim_bind {S A B} (RS : renaming -> S -> S -> Prop)
    (RA : renaming -> A -> A -> Prop) (RB : renaming -> B -> B -> Prop)
    (f : renaming) (m1 m2 : M S A) (k1 k2 : A -> M S B) :
  sim RS RA f m1 m2 ->
  (forall f' a1 a2, f ⊆ f' -> RA f' a1 a2 -> sim RS RB f' (k1 a1) (k2 a2)) ->
  sim RS RB f (bind m1 k1) (bind m2 k2).
Proof.
  intros Hm Hk f0 s1 s2 Hsub Hs. unfold bind.
  destruct (Hm f0 s1 s2 Hsub Hs) as (f1 & Hsub1 & Hs1 & Hr1).
  destruct (m1 s1) as [[a1|e1] s1'], (m2 s2) as [[a2|e2] s2'];
    cbn [fst snd sim_result] in *; try contradiction.
  - assert (Hf : f ⊆ f1) by (etrans; eassumption).
    destruct (Hk f1 a1 a2 Hf Hr1 f1 s1' s2' (reflexivity _) Hs1)
      as (f2 & Hsub2 & Hs2 & Hr2).
    exists f2. split; [etrans; eassumption|]. split; assumption.
  - exists f1. split; [exact Hsub1|]. split; assumption.
Qed.

Lemma sim_ret {S A} (RS : renaming -> S -> S -> Prop)
    (RA : renaming -> A -> A -> Prop) (f : renaming) (a1 a2 : A) :
  (forall f0, f ⊆ f0 -> RA f0 a1 a2) -> sim RS RA f (ret a1) (ret a2).
Proof.
  intros Ha f0 s1 s2 Hsub Hs. exists f0. split; [reflexivity|].
  split; [exact Hs | apply Ha, Hsub].
Qed.

Lemma sim_throw {S A} (RS : renaming -> S -> S -> Prop)
    (RA : renaming -> A -> A -> Prop) (f : renaming) (e : error) :
  sim RS RA f (throw e) (throw e).
Proof.
  intros f0 s1 s2 Hsub Hs. exists f0. split; [reflexivity|].
  split; [exact Hs | reflexivity].
Qed.

Lemma sim_get {S} (RS : renaming -> S -> S -> Prop) (f : renaming) :
  sim RS RS f get get.
Proof.
  intros f0 s1 s2 Hsub Hs. exists f0. split; [reflexivity|].
  split; exact Hs.
Qed.

Lemma sim_wrap {S A} (RS : renaming -> S -> S -> Prop)
    (RA : renaming -> A -> A -> Prop) (f : renaming) (context : string)
    (m1 m2 : M S A) :
  sim RS RA f m1 m2 -> sim RS RA f (wrap context m1) (wrap context m2).
Proof.
  intros Hm f0 s1 s2 Hsub Hs. unfold wrap.
  destruct (Hm f0 s1 s2 Hsub Hs) as (f1 & Hsub1 & Hs1 & Hr1).
  exists f1. split; [exact Hsub1|].
  destruct (m1 s1) as [[a1|e1] s1'], (m2 s2) as [[a2|e2] s2'];
    cbn [fst snd sim_result] in *; try contradiction;
    (split; [exact Hs1|]); [exact Hr1 | congruence].
Qed.

Lemma sim_lift_result {S A} (RS : renaming -> S -> S -> Prop) (f : renaming)
    (r : result A) :
  sim RS Req f (lift_result r) (lift_result r).
Proof.
  intros f0 s1 s2 Hsub Hs. exists f0. split; [reflexivity|].
  split; [exact Hs|]. unfold lift_result. cbn [fst]. destruct r; reflexivity.
Qed.

(** ** Worlds *)

Lemma sim_world_update (f : renaming) (w1 w2 : World) (t1 t2 : loc) (x : RWTree)
    (st1 st2 : gmap (bytes * Z) log) (lo1 lo2 : list (bytes * Z * bool)) :
  sim_world f w1 w2 -> f !! t1 = Some t2 -> st1 = st2 -> lo1 = lo2 ->
  sim_world f (mkWorld (<[t1 := x]> (heap w1)) st1 lo1)
              (mkWorld (<[t2 := x]> (heap w2)) st2 lo2).
Proof.
  intros Hw Ht Hst Hlo. split; cbn [heap store loads]; try assumption.
  - intros l1 l2 Hl. destruct (decide (l1 = t1)) as [->|Hne].
    + rewrite Ht in Hl. inversion Hl; subst l2.
      rewrite !lookup_insert_eq. split; [eexists; reflexivity | reflexivity].
    + assert (l2 <> t2).
      { intros ->. apply Hne. eapply (sw_inj _ _ _ Hw); eassumption. }
      rewrite !lookup_insert_ne by congruence. apply (sw_heap _ _ _ Hw), Hl.
  - apply (sw_inj _ _ _ Hw).
Qed.

Lemma sim_world_same_heap (f : renaming) (w1 w2 : World)
    (st1 st2 : gmap (bytes * Z) log) (lo1 lo2 : list (bytes * Z * bool)) :
  sim_world f w1 w2 -> st1 = st2 -> lo1 = lo2 ->
  sim_world f (mkWorld (heap w1) st1 lo1) (mkWorld (heap w2) st2 lo2).
Proof.
  intros Hw Hst Hlo. split; cbn [heap store loads]; try assumption.
  - apply (sw_heap _ _ _ Hw).
  - apply (sw_inj _ _ _ Hw).
Qed.

(** A new tree on each side: the renaming grows by the pair of the two new
    addresses. *)
Lemma sim_world_alloc (f : renaming) (w1 w2 : World) (x : RWTree) :
  sim_world f w1 w2 ->
  let l1 := alloc (Allocator := A1) (dom (heap w1)) in
  let l2 := alloc (Allocator := A2) (dom (heap w2)) in
  f ⊆ <[l1 := l2]> f /\
  sim_world (<[l1 := l2]> f) (set_heap (insert l1 x) w1) (set_heap (insert l2 x) w2).
Proof.
  intros Hw l1 l2.
  assert (Hl1 : heap w1 !! l1 = None) by apply alloc_None.
  assert (Hl2 : heap w2 !! l2 = None) by apply alloc_None.
  assert (Hf1 : f !! l1 = None).
  { destruct (f !! l1) as [l|] eqn:Hf; [|reflexivity].
    destruct (sw_heap _ _ _ Hw l1 l Hf) as [[x1 Hx1] _]. congruence. }
  assert (Hf2 : forall l, f !! l <> Some l2).
  { intros l Hf. destruct (sw_heap _ _ _ Hw l l2 Hf) as [[x1 Hx1] Heq].
    rewrite Hx1, Hl2 in Heq. discriminate. }
  split; [apply insert_subseteq, Hf1|].
  split; cbn [set_heap heap store loads].
  - apply (sw_store _ _ _ Hw).
  - apply (sw_loads _ _ _ Hw).
  - intros a b Hab. destruct (decide (a = l1)) as [->|Hne].
    + rewrite lookup_insert_eq in Hab. inversion Hab; subst b.
      rewrite !lookup_insert_eq. split; [eexists; reflexivity | reflexivity].
    + rewrite lookup_insert_ne in Hab by congruence.
      assert (b <> l2) by (intros ->; apply (Hf2 a Hab)).
      rewrite !lookup_insert_ne by congruence. apply (sw_heap _ _ _ Hw), Hab.
  - intros a a' b Ha Ha'.
    destruct (decide (a = l1)) as [->|Hne], (decide (a' = l1)) as [->|Hne'].
    + reflexivity.
    + rewrite lookup_insert_eq in Ha. inversion Ha; subst b.
      rewrite lookup_insert_ne in Ha' by congruence. destruct (Hf2 a' Ha').
    + rewrite lookup_insert_eq in Ha'. inversion Ha'; subst b.
      rewrite lookup_insert_ne in Ha by congruence. destruct (Hf2 a Ha).
    + rewrite lookup_insert_ne in Ha, Ha' by congruence.
      eapply (sw_inj _ _ _ Hw); eassumption.
Qed.

(** ** The tree primitive *)

Lemma sim_live (f : renaming) (w1 w2 : World) (t1 t2 : loc) :
  sim_world f w1 w2 -> f !! t1 = Some t2 ->
  exists tr, heap w1 !! t1 = Some tr /\ heap w2 !! t2 = Some tr.
Proof.
  intros Hw Ht. destruct (sw_heap _ _ _ Hw t1 t2 Ht) as [[tr Htr] Heq].
  exists tr. split; [exact Htr | congruence].
Qed.

Lemma sim_NewRWTree (f : renaming) (db : bytes) (cacheSize : Z) :
  sim sim_world Rloc f (NewRWTree (allocator := A1) db cacheSize)
                       (NewRWTree (allocator := A2) db cacheSize).
Proof.
  intros f0 w1 w2 Hsub Hw.
  destruct (sim_world_alloc f0 w1 w2 (mkRWTree db [] 0 false) Hw) as [Hs Hw'].
  eexists. split; [exact Hs|]. split; [exact Hw'|].
  cbn [NewRWTree fst sim_result]. apply lookup_insert_eq.
Qed.

Lemma sim_Get (f : renaming) (t1 t2 : loc) (key : bytes) :
  f !! t1 = Some t2 ->
  sim sim_world Req f (RWTree_Get t1 key) (RWTree_Get t2 key).
Proof.
  intros Ht f0 w1 w2 Hsub Hw.
  destruct (sim_live f0 w1 w2 t1 t2 Hw (lookup_weaken _ _ _ _ Ht Hsub))
    as (tr & H1 & H2).
  exists f0. split; [reflexivity|].
  rewrite (RWTree_Get_eq t1 tr key w1 H1), (RWTree_Get_eq t2 tr key w2 H2).
  split; [exact Hw | reflexivity].
Qed.

Lemma sim_Updated (f : renaming) (t1 t2 : loc) :
  f !! t1 = Some t2 ->
  sim sim_world Req f (RWTree_Updated t1) (RWTree_Updated t2).
Proof.
  intros Ht f0 w1 w2 Hsub Hw.
  destruct (sim_live f0 w1 w2 t1 t2 Hw (lookup_weaken _ _ _ _ Ht Hsub))
    as (tr & H1 & H2).
  exists f0. split; [reflexivity|].
  unfold RWTree_Updated. run_monad. rewrite H1, H2.
  split; [exact Hw | reflexivity].
Qed.

Lemma sim_Set (f : renaming) (t1 t2 : loc) (key value : bytes) :
  f !! t1 = Some t2 ->
  sim sim_world Req f (RWTree_Set t1 key value) (RWTree_Set t2 key value).
Proof.
  intros Ht f0 w1 w2 Hsub Hw.
  pose proof (lookup_weaken _ _ _ _ Ht Hsub) as Ht0.
  destruct (sim_live f0 w1 w2 t1 t2 Hw Ht0) as (tr & H1 & H2).
  exists f0. split; [reflexivity|].
  rewrite (RWTree_Set_eq t1 tr key value w1 H1), (RWTree_Set_eq t2 tr key value w2 H2).
  split; [|reflexivity]. cbn [snd]. unfold poke, set_heap.
  apply sim_world_update; [exact Hw | exact Ht0 | |];
    [apply (sw_store _ _ _ Hw) | apply (sw_loads _ _ _ Hw)].
Qed.

Lemma sim_Delete (f : renaming) (t1 t2 : loc) (key : bytes) :
  f !! t1 = Some t2 ->
  sim sim_world Req f (RWTree_Delete t1 key) (RWTree_Delete t2 key).
Proof.
  intros Ht f0 w1 w2 Hsub Hw.
  pose proof (lookup_weaken _ _ _ _ Ht Hsub) as Ht0.
  destruct (sim_live f0 w1 w2 t1 t2 Hw Ht0) as (tr & H1 & H2).
  exists f0. split; [reflexivity|].
  unfold RWTree_Delete. run_monad. rewrite H1, H2.
  destruct (log_get key (tlog tr)); cbn [fst snd].
  - split; [|reflexivity]. unfold set_heap.
    apply sim_world_update; [exact Hw | exact Ht0 | |];
      [apply (sw_store _ _ _ Hw) | apply (sw_loads _ _ _ Hw)].
  - split; [exact Hw | reflexivity].
Qed.

Lemma sim_Save (f : renaming) (t1 t2 : loc) :
  f !! t1 = Some t2 ->
  sim sim_world Req f (RWTree_Save t1) (RWTree_Save t2).
Proof.
  intros Ht f0 w1 w2 Hsub Hw.
  pose proof (lookup_weaken _ _ _ _ Ht Hsub) as Ht0.
  destruct (sim_live f0 w1 w2 t1 t2 Hw Ht0) as (tr & H1 & H2).
  exists f0. split; [reflexivity|].
  unfold RWTree_Save. run_monad. rewrite H1, H2.
  destruct (save_fault (tdb tr) (tversion tr + 1)); cbn [fst snd].
  - split; [exact Hw | reflexivity].
  - split; [|reflexivity]. unfold set_heap, set_store. cbn [heap store loads].
    apply sim_world_update; [exact Hw | exact Ht0 | |].
    + rewrite (sw_store _ _ _ Hw). reflexivity.
    + apply (sw_loads _ _ _ Hw).
Qed.

Lemma sim_Load (f : renaming) (t1 t2 : loc) (version : Z) (overwriting : bool) :
  f !! t1 = Some t2 ->
  sim sim_world Req f (RWTree_Load t1 version overwriting)
                      (RWTree_Load t2 version overwriting).
Proof.
  intros Ht f0 w1 w2 Hsub Hw.
  pose proof (lookup_weaken _ _ _ _ Ht Hsub) as Ht0.
  destruct (sim_live f0 w1 w2 t1 t2 Hw Ht0) as (tr & H1 & H2).
  exists f0. split; [reflexivity|].
  rewrite (RWTree_Load_eq t1 tr version overwriting w1 H1).
  rewrite (RWTree_Load_eq t2 tr version overwriting w2 H2).
  rewrite <- (sw_store _ _ _ Hw).
  destruct (store w1 !! (tdb tr, version)) as [l|]; cbn [fst snd].
  - split; [|reflexivity]. unfold loaded.
    apply sim_world_update; [exact Hw | exact Ht0 | |].
    + rewrite (sw_store _ _ _ Hw). reflexivity.
    + rewrite (sw_loads _ _ _ Hw). reflexivity.
  - split; [|reflexivity]. unfold log_load.
    apply sim_world_same_heap; [exact Hw | apply (sw_store _ _ _ Hw) |].
    rewrite (sw_loads _ _ _ Hw). reflexivity.
Qed.

(** ** Forest structs and the tree cache *)

Lemma sim_entry_mono (f f' : renaming) (e1 e2 : bytes * loc) :
  f ⊆ f' -> sim_entry f e1 e2 -> sim_entry f' e1 e2.
Proof.
  intros Hsub [Hk Hv]. split; [exact Hk | eapply lookup_weaken; eassumption].
Qed.

Lemma sim_imf_mono (f f' : renaming) (i1 i2 : ImmutableForest) :
  f ⊆ f' -> sim_imf f i1 i2 -> sim_imf f' i1 i2.
Proof.
  intros Hsub Hi. destruct Hi. split; try assumption.
  - eapply lookup_weaken; eassumption.
  - eapply Forall2_impl; [exact si_items0|].
    intros e1 e2. apply sim_entry_mono, Hsub.
Qed.

Lemma sim_muf_mono (f f' : renaming) (m1 m2 : MutableForest) :
  f ⊆ f' -> sim_muf f m1 m2 -> sim_muf f' m1 m2.
Proof.
  intros Hsub Hm. destruct Hm. split; try assumption.
  - eapply lookup_weaken; eassumption.
  - eapply sim_imf_mono; eassumption.
  - intros p. specialize (sm_dirty0 p).
    destruct sm_dirty0 as [l1 l2 Hl|]; constructor.
    eapply lookup_weaken; eassumption.
Qed.

Lemma sim_find (f : renaming) (key : bytes) (i1 i2 : list (bytes * loc)) :
  Forall2 (sim_entry f) i1 i2 ->
  option_Forall2 (Rloc f) (lru_find key i1) (lru_find key i2).
Proof.
  induction 1 as [|[k1 v1] [k2 v2] i1 i2 [Hk Hv] _ IH]; [constructor|].
  cbn [fst snd] in *. subst k2. cbn [lru_find].
  destruct (decide (k1 = key)); [constructor; exact Hv | exact IH].
Qed.

Lemma sim_remove (f : renaming) (key : bytes) (i1 i2 : list (bytes * loc)) :
  Forall2 (sim_entry f) i1 i2 ->
  Forall2 (sim_entry f) (lru_remove key i1) (lru_remove key i2).
Proof.
  induction 1 as [|[k1 v1] [k2 v2] i1 i2 [Hk Hv] Hrest IH]; [constructor|].
  cbn [fst snd] in *. subst k2. cbn [lru_remove].
  destruct (decide (k1 = key)); [exact Hrest|].
  constructor; [split; [reflexivity | exact Hv] | exact IH].
Qed.

Lemma sim_removelast {A} (R : A -> A -> Prop) (l1 l2 : list A) :
  Forall2 R l1 l2 -> Forall2 R (removelast l1) (removelast l2).
Proof.
  induction 1 as [|a1 a2 l1 l2 Ha Hl IH]; [constructor|].
  cbn [removelast]. destruct Hl as [|b1 b2 l1 l2 Hb Hl]; [constructor|].
  constructor; [exact Ha | exact IH].
Qed.

Lemma sim_Add (f : renaming) (key : bytes) (t1 t2 : loc)
    (i1 i2 : ImmutableForest) :
  sim_imf f i1 i2 -> f !! t1 = Some t2 ->
  sim_imf f (set_treeCache (lru_Add key t1) i1) (set_treeCache (lru_Add key t2) i2).
Proof.
  intros Hi Ht. destruct Hi.
  pose proof (sim_find f key _ _ si_items0) as Hfind.
  assert (He : sim_entry f (key, t1) (key, t2)) by (split; [reflexivity | exact Ht]).
  split; cbn [set_treeCache imf_commitsTree treeDB cacheSize overwriting treeCache];
    try assumption.
  - unfold lru_Add. destruct Hfind; cbn [lru_size]; [exact si_size0|].
    rewrite si_size0. cbn [length]. rewrite (Forall2_length _ _ _ si_items0).
    destruct (_ <? _); exact si_size0 || reflexivity.
  - unfold lru_Add. destruct Hfind; cbn [lru_items].
    + constructor; [exact He | apply sim_remove, si_items0].
    + rewrite si_size0. cbn [length]. rewrite (Forall2_length _ _ _ si_items0).
      destruct (_ <? _); cbn [lru_items].
      * apply sim_removelast. constructor; assumption.
      * constructor; assumption.
Qed.

(** ** Lifting *)

Lemma sim_inWorld {F A} (RF : renaming -> F -> F -> Prop)
    (RA : renaming -> A -> A -> Prop) (f : renaming) (m1 m2 : M World A) :
  (forall f f' x y, f ⊆ f' -> RF f x y -> RF f' x y) ->
  sim sim_world RA f m1 m2 ->
  sim (fun f (s1 s2 : F * World) => RF f s1.1 s2.1 /\ sim_world f s1.2 s2.2)
      RA f (inWorld m1) (inWorld m2).
Proof.
  intros Hmono Hm f0 [x1 w1] [x2 w2] Hsub [Hx Hw]. cbn [fst snd] in *.
  destruct (Hm f0 w1 w2 Hsub Hw) as (f1 & Hsub1 & Hw1 & Hr1).
  exists f1. split; [exact Hsub1|]. unfold inWorld.
  destruct (m1 w1) as [r1 w1'], (m2 w2) as [r2 w2']. cbn [fst snd] in *.
  split; [|exact Hr1]. split; [eapply Hmono; eassumption | exact Hw1].
Qed.

Lemma sim_inWorld_i {A} (RA : renaming -> A -> A -> Prop) (f : renaming)
    (m1 m2 : M World A) :
  sim sim_world RA f m1 m2 -> sim sim_istate RA f (inWorld m1) (inWorld m2).
Proof. apply (sim_inWorld sim_imf), sim_imf_mono. Qed.

Lemma sim_inWorld_m {A} (RA : renaming -> A -> A -> Prop) (f : renaming)
    (m1 m2 : M World A) :
  sim sim_world RA f m1 m2 -> sim sim_mstate RA f (inWorld m1) (inWorld m2).
Proof. apply (sim_inWorld sim_muf), sim_muf_mono. Qed.

Lemma sim_modify {S} (RS : renaming -> S -> S -> Prop) (f : renaming)
    (g1 g2 : S -> S) :
  (forall f0 s1 s2, f ⊆ f0 -> RS f0 s1 s2 -> RS f0 (g1 s1) (g2 s2)) ->
  sim RS Req f (modify g1) (modify g2).
Proof.
  intros Hg f0 s1 s2 Hsub Hs. exists f0. split; [reflexivity|].
  split; [apply Hg; assumption | reflexivity].
Qed.

Lemma sim_promoted {A} (RA : renaming -> A -> A -> Prop) (f : renaming)
    (m1 m2 : M IState A) :
  sim sim_istate RA f m1 m2 -> sim sim_mstate RA f (promoted m1) (promoted m2).
Proof.
  intros Hm f0 [x1 w1] [x2 w2] Hsub [Hx Hw]. cbn [fst snd] in *.
  destruct (Hm f0 (imf x1, w1) (imf x2, w2) Hsub) as (f1 & Hsub1 & Hs1 & Hr1).
  { split; [apply (sm_imf _ _ _ Hx) | exact Hw]. }
  exists f1. split; [exact Hsub1|]. unfold promoted.
  destruct (m1 (imf x1, w1)) as [r1 [i1 w1']], (m2 (imf x2, w2)) as [r2 [i2 w2']].
  cbn [fst snd] in *. destruct Hs1 as [Hi Hw1].
  split; [|exact Hr1]. split; [|exact Hw1].
  pose proof (sim_muf_mono _ _ _ _ Hsub1 Hx) as Hx1. destruct Hx1.
  split; cbn [set_imf commitsTree imf dirty dirtyPrefixes]; assumption.
Qed.

(** ** Resolving trees *)

Lemma sim_newTree (f : renaming) (prefix : bytes) :
  sim sim_istate Rloc f (newTree (allocator := A1) prefix)
                        (newTree (allocator := A2) prefix).
Proof.
  unfold newTree. eapply sim_bind; [apply sim_get|].
  intros f1 s1 s2 _ [Hi _].
  rewrite (si_treeDB _ _ _ Hi), (si_cacheSize _ _ _ Hi).
  eapply sim_bind; [apply sim_inWorld_i, sim_NewRWTree|].
  intros f2 t1 t2 _ Ht.
  eapply sim_bind.
  - apply sim_modify. intros f0 [i1 w1] [i2 w2] Hsub [Hi0 Hw0]. cbn [fst snd] in *.
    split; [|exact Hw0]. apply sim_Add; [exact Hi0|].
    eapply lookup_weaken; eassumption.
  - intros f3 _ _ Hsub3 _. apply sim_ret. intros f0 Hsub0.
    eapply lookup_weaken; [exact Ht|]. etrans; eassumption.
Qed.

Lemma sim_commitID (f : renaming) (prefix : bytes) :
  sim sim_istate Req f (commitID prefix) (commitID prefix).
Proof.
  unfold commitID. eapply sim_bind; [apply sim_get|].
  intros f1 s1 s2 _ [Hi _].
  eapply sim_bind; [apply sim_inWorld_i, sim_Get, (si_commits _ _ _ Hi)|].
  intros f2 bs1 bs2 _ Heq. unfold Req in Heq. subst bs2.
  destruct bs1 as [bs|].
  - apply sim_wrap, sim_lift_result.
  - apply sim_ret. reflexivity.
Qed.

Lemma sim_loadOrCreateTree (f : renaming) (prefix : bytes) :
  sim sim_istate Rloc f (loadOrCreateTree (allocator := A1) prefix)
                        (loadOrCreateTree (allocator := A2) prefix).
Proof.
  unfold loadOrCreateTree. eapply sim_bind; [apply sim_newTree|].
  intros f1 t1 t2 _ Ht.
  eapply sim_bind; [apply sim_wrap, sim_commitID|].
  intros f2 c1 c2 Hsub2 Heq. unfold Req in Heq. subst c2.
  destruct (Codec.Version c1 =? 0); [apply sim_newTree|].
  eapply sim_bind; [apply sim_get|].
  intros f3 s1 s2 Hsub3 [Hi _]. rewrite (si_overwriting _ _ _ Hi).
  assert (Ht3 : f3 !! t1 = Some t2).
  { eapply lookup_weaken; [exact Ht|]. etrans; eassumption. }
  eapply sim_bind; [apply sim_wrap, sim_inWorld_i, sim_Load, Ht3|].
  intros f4 _ _ Hsub4 _. apply sim_ret. intros f0 Hsub0.
  eapply lookup_weaken; [exact Ht3|]. etrans; eassumption.
Qed.

Lemma sim_tree (f : renaming) (prefix : bytes) :
  sim sim_istate Rloc f (tree (allocator := A1) prefix)
                        (tree (allocator := A2) prefix).
Proof.
  unfold tree. eapply sim_bind; [apply sim_get|].
  intros f1 s1 s2 _ [Hi _]. unfold lru_Get.
  pose proof (sim_find f1 prefix _ _ (si_items _ _ _ Hi)) as Hfind.
  destruct Hfind as [v1 v2 Hv|]; [|apply sim_loadOrCreateTree].
  eapply sim_bind.
  - apply sim_modify. intros f0 [i1 w1] [i2 w2] Hsub [Hi0 Hw0]. cbn [fst snd] in *.
    split; [|exact Hw0].
    pose proof (sim_imf_mono _ _ _ _ Hsub Hi) as Hi'.
    destruct Hi0. split;
      cbn [set_treeCache imf_commitsTree treeDB cacheSize overwriting treeCache
             lru_size lru_items]; try assumption.
    + apply (si_size _ _ _ Hi).
    + constructor.
      * split; [reflexivity | eapply lookup_weaken; eassumption].
      * apply sim_remove, (si_items _ _ _ Hi').
  - intros f2 _ _ Hsub2 _. apply sim_ret. intros f0 Hsub0.
    eapply lookup_weaken; [exact Hv|]. etrans; eassumption.
Qed.

(** ** Writer and Save *)

Lemma sim_Writer (f : renaming) (prefix : bytes) :
  sim sim_mstate Rloc f (Writer (allocator := A1) prefix)
                        (Writer (allocator := A2) prefix).
Proof.
  unfold Writer. eapply sim_bind; [apply sim_get|].
  intros f1 s1 s2 _ [Hm _].
  pose proof (sm_dirty _ _ _ Hm prefix) as Hd.
  destruct Hd as [t1 t2 Ht|].
  - apply sim_ret. intros f0 Hsub0. eapply lookup_weaken; eassumption.
  - eapply sim_bind; [apply sim_promoted, sim_tree|].
    intros f2 t1 t2 _ Ht. eapply sim_bind.
    + apply sim_modify. intros f0 [m1 w1] [m2 w2] Hsub [Hm0 Hw0]. cbn [fst snd] in *.
      split; [|exact Hw0]. destruct Hm0.
      split; unfold set_dirty; cbn [fst snd commitsTree imf dirty dirtyPrefixes]; try assumption.
      * rewrite sm_prefixes0. reflexivity.
      * intros p. destruct (decide (p = prefix)) as [->|Hne].
        -- rewrite !lookup_insert_eq. constructor. eapply lookup_weaken; eassumption.
        -- rewrite !lookup_insert_ne by congruence. apply sm_dirty0.
    + intros f3 _ _ Hsub3 _. apply sim_ret. intros f0 Hsub0.
      eapply lookup_weaken; [exact Ht|]. etrans; eassumption.
Qed.

Lemma sim_setCommit (f : renaming) (prefix hash : bytes) (version : Z) :
  sim sim_mstate Req f (setCommit prefix hash version)
                       (setCommit prefix hash version).
Proof.
  unfold setCommit. destruct (Codec.marshalCommitID hash version) as [[bs|]|e];
    try apply sim_throw.
  eapply sim_bind; [apply sim_get|].
  intros f1 s1 s2 _ [Hm _].
  apply sim_inWorld_m, sim_Set, (sm_commits _ _ _ Hm).
Qed.

Lemma sim_saveTree (f : renaming) (prefix : bytes) (t1 t2 : loc) :
  f !! t1 = Some t2 ->
  sim sim_mstate Req f (saveTree prefix t1) (saveTree prefix t2).
Proof.
  intros Ht. unfold saveTree.
  eapply sim_bind; [apply sim_wrap, sim_inWorld_m, sim_Save, Ht|].
  intros f1 hv1 hv2 _ Heq. unfold Req in Heq. subst hv2. apply sim_setCommit.
Qed.

Lemma sim_Save_loop (prefixes : list bytes) :
  forall f, sim sim_mstate Req f (Save_loop prefixes) (Save_loop prefixes).
Proof.
  induction prefixes as [|p ps IH]; intros f.
  - apply sim_ret. reflexivity.
  - cbn [Save_loop]. eapply sim_bind; [apply sim_get|].
    intros f1 s1 s2 _ [Hm _].
    pose proof (sm_dirty _ _ _ Hm p) as Hd.
    destruct Hd as [t1 t2 Ht|]; [|apply sim_throw].
    eapply sim_bind; [apply sim_inWorld_m, sim_Updated, Ht|].
    intros f2 u1 u2 Hsub2 Heq. unfold Req in Heq. subst u2.
    eapply sim_bind.
    + destruct u1.
      * apply sim_saveTree. eapply lookup_weaken; eassumption.
      * apply sim_ret. reflexivity.
    + intros f3 _ _ _ _. apply IH.
Qed.

Lemma sim_Save_forest (f : renaming) : sim sim_mstate Req f Save Save.
Proof.
  unfold Save. eapply sim_bind; [apply sim_get|].
  intros f1 s1 s2 _ [Hm _]. rewrite (sm_prefixes _ _ _ Hm).
  eapply sim_bind; [apply sim_Save_loop|].
  intros f2 _ _ Hsub2 _. eapply sim_bind.
  - apply sim_modify. intros f0 [m1 w1] [m2 w2] Hsub [Hm0 Hw0]. cbn [fst snd] in *.
    split; [|exact Hw0]. destruct Hm0.
    split; unfold set_dirty; cbn [fst snd commitsTree imf dirty dirtyPrefixes]; try assumption.
    + reflexivity.
    + intros p. rewrite !lookup_empty. constructor.
  - intros f3 _ _ Hsub3 _. apply sim_inWorld_m, sim_Save.
    eapply lookup_weaken; [apply (sm_commits _ _ _ Hm)|]. etrans; eassumption.
Qed.

(** ** Sequences of calls *)

Lemma sim_run_op (f : renaming) (o : op) :
  sim sim_mstate Req f (run_op (allocator := A1) o) (run_op (allocator := A2) o).
Proof.
  destruct o as [p | p key value | p key |]; cbn [run_op].
  - eapply sim_bind; [apply sim_Writer|].
    intros f1 _ _ _ _. apply sim_ret. reflexivity.
  - eapply sim_bind; [apply sim_Writer|].
    intros f1 t1 t2 _ Ht.
    eapply sim_bind; [apply sim_inWorld_m, sim_Set, Ht|].
    intros f2 _ _ _ _. apply sim_ret. reflexivity.
  - eapply sim_bind; [apply sim_Writer|].
    intros f1 t1 t2 _ Ht.
    eapply sim_bind; [apply sim_inWorld_m, sim_Delete, Ht|].
    intros f2 _ _ _ _. apply sim_ret. reflexivity.
  - eapply sim_bind; [apply sim_Save_forest|].
    intros f1 hv1 hv2 _ Heq. unfold Req in Heq. subst hv2.
    apply sim_ret. reflexivity.
Qed.

Lemma sim_run_ops (ops : list op) :
  forall f, sim sim_mstate Req f (run_ops (allocator := A1) ops)
                                 (run_ops (allocator := A2) ops).
Proof.
  induction ops as [|o ops IH]; intros f; cbn [run_ops].
  - apply sim_ret. reflexivity.
  - eapply sim_bind; [apply sim_run_op|].
    intros f1 r1 r2 _ Heq. unfold Req in Heq. subst r2.
    eapply sim_bind; [apply IH|].
    intros f2 rs1 rs2 _ Heq. unfold Req in Heq. subst rs2.
    apply sim_ret. reflexivity.
Qed.

Lemma sim_result_eq {A} (f : renaming) (r1 r2 : result A) :
  sim_result Req f r1 r2 -> r1 = r2.
Proof.
  destruct r1, r2; cbn [sim_result]; unfold Req; intros H; congruence || contradiction.
Qed.

(** Two runs of the same calls on the same store return the same thing,
    whatever addresses the runtime hands out in each. *)
Lemma session_deterministic (db : bytes) (cacheSize : Z) (ops : list op)
    (w1 w2 : World) :
  store w1 = store w2 -> loads w1 = loads w2 ->
  (session (allocator := A1) db cacheSize ops w1).1
  = (session (allocator := A2) db cacheSize ops w2).1.
Proof.
  intros Hst Hlo. unfold session. rewrite !NewMutableForest_eq.
  destruct (cacheSize <=? 0); [reflexivity|].
  set (x := mkRWTree (NewPrefixDB db commitsPrefix) [] 0 false).
  assert (Hw : sim_world ∅ w1 w2).
  { split; [exact Hst | exact Hlo | |]; intros *; rewrite lookup_empty; discriminate. }
  destruct (sim_world_alloc ∅ w1 w2 x Hw) as [Hsub Hw'].
  cbv zeta in Hw'.
  set (l1 := alloc (Allocator := A1) (dom (heap w1))) in *.
  set (l2 := alloc (Allocator := A2) (dom (heap w2))) in *.
  set (f := <[l1 := l2]> (∅ : renaming)) in *.
  assert (Hl : f !! l1 = Some l2) by apply lookup_insert_eq.
  destruct (sim_run_ops ops f f
              (mkMutableForest l1
                 (mkImmutableForest l1 (NewPrefixDB db treePrefix)
                    (mkCache cacheSize []) cacheSize true)
                 ∅ [], set_heap (insert l1 x) w1)
              (mkMutableForest l2
                 (mkImmutableForest l2 (NewPrefixDB db treePrefix)
                    (mkCache cacheSize []) cacheSize true)
                 ∅ [], set_heap (insert l2 x) w2)
              (reflexivity _))
    as (f' & _ & _ & Hr).
  { split; [|exact Hw']. cbn [fst].
    split; cbn [commitsTree imf dirty dirtyPrefixes]; [exact Hl | | reflexivity |].
    - split; cbn [imf_commitsTree treeDB treeCache overwriting lru_items];
        try reflexivity; [exact Hl | constructor].
    - intros p. rewrite !lookup_empty. constructor. }
  apply sim_result_eq in Hr.
  destruct (run_ops ops _) as [r1 s1'], (run_ops ops _) as [r2 s2'].
  exact Hr.
Qed.

End Simulation.
(** * Save is deterministic *)

(** C2. For a fixed initial store and a fixed sequence of Writer
    acquisitions and key mutations: (order) starting from a well-formed
    forest with nothing dirty, the dirty-order list after the calls is the
    list of their prefixes in the order in which they were first acquired,
    and a successful Save then writes the entries of the updated ones into
    the commits tree in that order (the contents of a tree list the most
    recent write first) before hashing it; (determinism) two runs of the
    same calls, Saves included, on worlds with the same store return the
    same global hashes and versions, or the same error, whichever addresses
    the runtime hands out to the tree instances in either run. *)
Theorem Save_deterministic_order {collab : Collab} :
  (forall (allocator : Allocator) (ops : list op) (s s' : MState)
          (rs : list (bytes * Z)),
      forest_wf s.1 s.2 -> dirtyPrefixes s.1 = [] ->
      Forall (fun o => o <> OpSave) ops ->
      run_ops ops s = (Ok rs, s') ->
      dirtyPrefixes s'.1 = first_touched ops /\
      forall (ctr : RWTree) (hash : bytes) (version : Z) (s'' : MState),
        heap s'.2 !! commitsTree s'.1 = Some ctr ->
        Save s' = (Ok (hash, version), s'') ->
        exists ctr',
          heap s''.2 !! commitsTree s'.1 = Some ctr' /\
          tlog ctr' = commit_entries s'.1 s'.2 (first_touched ops) ++ tlog ctr /\
          hash = hashfn (tlog ctr') /\ version = tversion ctr + 1) /\
  (forall (A1 A2 : Allocator) (db : bytes) (cacheSize : Z) (ops : list op)
          (w1 w2 : World),
      store w1 = store w2 -> loads w1 = loads w2 ->
      (session (allocator := A1) db cacheSize ops w1).1
      = (session (allocator := A2) db cacheSize ops w2).1).
Proof.
  split.
  - intros allocator ops s s' rs Hwf Hclean Hops Hrun.
    destruct (run_ops_touch ops s s' rs Hwf Hops Hrun) as (Hwf' & _ & Hd & _).
    rewrite Hclean in Hd. fold (first_touched ops) in Hd.
    split; [exact Hd|].
    intros ctr hash version [muf'' w''] Hct Hsave. destruct s' as [muf' w'].
    cbn [fst snd] in *.
    destruct (Save_ok_inv muf' muf'' w' w'' ctr hash version Hwf' Hct Hsave)
      as (w1 & _ & _ & -> & -> & ->).
    eexists. cbn [heap]. rewrite <- Hd.
    split; [apply lookup_insert_eq|]. repeat split.
  - intros A1 A2 db cacheSize ops w1 w2. apply session_deterministic.
Qed.
(** * Further properties: commit records and the resolution of trees *)

(** X1. Distinct CommitIDs never share an encoding: if [marshalCommitID]
    returns the same buffer for two pairs of an int64 version and a hash,
    the versions and the hashes are the same. *)
Theorem marshalCommitID_injective (h h' : bytes) (v v' : Z) :
  - 2 ^ 63 <= v < 2 ^ 63 -> - 2 ^ 63 <= v' < 2 ^ 63 ->
  Z.of_nat (length h) < 2 ^ 63 -> Z.of_nat (length h') < 2 ^ 63 ->
  Codec.marshalCommitID h v = Codec.marshalCommitID h' v' ->
  v = v' /\ h = h'.
Proof.
  intros Hv Hv' Hh Hh' Heq.
  destruct (unmarshal_marshal v h Hv Hh) as (bs & Hm & Hu).
  destruct (unmarshal_marshal v' h' Hv' Hh') as (bs' & Hm' & Hu').
  rewrite Heq, Hm' in Hm. inversion Hm; subst bs'.
  rewrite Hu in Hu'. inversion Hu'. split; reflexivity.
Qed.

Section CommitRecords.
Context {collab : Collab} {allocator : Allocator}.
Local Open Scope monad_scope.


(** X3. Resolving a committed prefix.  When the commits tree binds the
    prefix to the serialised CommitID of a version [v <> 0] and the tree cache
    does not hold the prefix, Reader issues one Load, of version [v] with the
    forest's overwriting option: if the store holds that version of the
    namespace, Reader returns a new tree with exactly those contents, at
    version [v] and with nothing buffered; if it does not, Reader fails with
    the "could not load tree" error. *)
Theorem Reader_committed (prefix hash : bytes) (v : Z) (bs : bytes)
    (imf : ImmutableForest) (w : World) (ctr : RWTree) :
  heap w !! imf_commitsTree imf = Some ctr ->
  log_get prefix (tlog ctr) = Some bs ->
  Codec.marshalCommitID hash v = Ok (Some bs) ->
  - 2 ^ 63 <= v < 2 ^ 63 -> v <> 0 ->
  Z.of_nat (length hash) < 2 ^ 63 ->
  lru_find prefix (lru_items (treeCache imf)) = None ->
  loads (Reader prefix (imf, w)).2.2
  = (NewPrefixDB (treeDB imf) prefix, v, overwriting imf) :: loads w /\
  match store w !! (NewPrefixDB (treeDB imf) prefix, v) with
  | Some l =>
      exists t,
        (Reader prefix (imf, w)).1 = Ok t /\
        heap w !! t = None /\
        heap (Reader prefix (imf, w)).2.2 !! t
        = Some (mkRWTree (NewPrefixDB (treeDB imf) prefix) l v false) /\
        forall key,
          (RWTree_Get t key (Reader prefix (imf, w)).2.2).1 = Ok (log_get key l)
  | None =>
      (Reader prefix (imf, w)).1
      = Err (Errorf "ImmutableForest.loadOrCreateTree(): could not load tree"
               (ErrVersionMissing (NewPrefixDB (treeDB imf) prefix) v))
  end.
Proof.
  intros Hct Hentry Hm Hv Hnz Hh Hcache.
  destruct (unmarshal_marshal v hash Hv Hh) as (bs' & Hm' & Hu).
  rewrite Hm in Hm'. inversion Hm'; subst bs'. clear Hm'.
  unfold Reader. rewrite (tree_not_cached _ _ _ Hcache).
  rewrite (loadOrCreateTree_eq prefix imf w ctr Hct). cbv zeta.
  rewrite Hentry, Hu. cbn [Codec.Version].
  destruct (Z.eqb_spec v 0) as [->|_]; [contradiction|].
  destruct (store w !! (NewPrefixDB (treeDB imf) prefix, v)) as [l|];
    cbn [fst snd].
  - split; [reflexivity|].
    exists (alloc (dom (heap w))). split; [reflexivity|].
    split; [apply alloc_None|].
    assert (Hl : heap (loaded (alloc (dom (heap w))) (emptyTree (treeDB imf) prefix)
                         l v (overwriting imf)
                         (set_heap (insert (alloc (dom (heap w)))
                                      (emptyTree (treeDB imf) prefix)) w))
                 !! alloc (dom (heap w))
                 = Some (mkRWTree (NewPrefixDB (treeDB imf) prefix) l v false)).
    { unfold loaded. cbn [heap emptyTree tdb]. apply lookup_insert_eq. }
    split; [exact Hl|].
    intros key. rewrite (RWTree_Get_eq _ _ key _ Hl). reflexivity.
  - split; reflexivity.
Qed.

End CommitRecords.
(** * Further properties: what resolving a tree leaves alone *)

Section ReadFrame.
Context {collab : Collab} {allocator : Allocator}.
Local Open Scope monad_scope.

Lemma discard_later_subseteq (db : bytes) (version : Z)
    (st : gmap (bytes * Z) log) :
  discard_later db version st ⊆ st.
Proof. unfold discard_later. apply map_filter_subseteq. Qed.

Lemma discard_later_other (db : bytes) (version : Z)
    (st : gmap (bytes * Z) log) (k : bytes * Z) :
  k.1 <> db \/ k.2 <= version ->
  discard_later db version st !! k = st !! k.
Proof.
  intros Hk. unfold discard_later.
  destruct (st !! k) as [l|] eqn:Hl.
  - apply map_lookup_filter_Some. split; [exact Hl|].
    cbn [fst snd]. intros [Hdb Hlt]. destruct Hk as [Hk|Hk]; [congruence | lia].
  - apply map_lookup_filter_None. left. exact Hl.
Qed.

Lemma discard_later_gone (db : bytes) (version v : Z)
    (st : gmap (bytes * Z) log) :
  version < v -> discard_later db version st !! (db, v) = None.
Proof.
  intros Hlt. unfold discard_later. apply map_lookup_filter_None.
  right. intros l _ Hn. apply Hn. cbn [fst snd]. split; [reflexivity | exact Hlt].
Qed.

(** Resolving a tree leaves every live instance as it is: it only adds
    instances, and removes from the store at most what an overwriting load
    of the prefix's own view discards. *)
Lemma tree_live (prefix : bytes) (imf imf' : ImmutableForest) (w w' : World)
    (ctr : RWTree) (r : result loc) :
  heap w !! imf_commitsTree imf = Some ctr ->
  tree prefix (imf, w) = (r, (imf', w')) ->
  (forall t tr, heap w !! t = Some tr -> heap w' !! t = Some tr) /\
  store w' ⊆ store w /\
  (forall db v, db <> NewPrefixDB (treeDB imf) prefix ->
     store w' !! (db, v) = store w !! (db, v)) /\
  imf_commitsTree imf' = imf_commitsTree imf /\ treeDB imf' = treeDB imf /\
  cacheSize imf' = cacheSize imf /\ overwriting imf' = overwriting imf.
Proof.
  intros Hct Htree.
  destruct (lru_find prefix (lru_items (treeCache imf))) as [t0|] eqn:Hc.
  { rewrite (tree_cached _ _ _ _ Hc) in Htree. inversion Htree; subst.
    repeat split; try reflexivity; try done. }
  rewrite (tree_not_cached _ _ _ Hc) in Htree.
  rewrite (loadOrCreateTree_eq prefix imf w ctr Hct) in Htree. cbv zeta in Htree.
  assert (Hw1 : forall t0 tr, heap w !! t0 = Some tr ->
            heap (set_heap (insert (alloc (dom (heap w)))
                              (emptyTree (treeDB imf) prefix)) w) !! t0 = Some tr).
  { intros t0 tr Ht0. cbn [set_heap heap].
    rewrite lookup_insert_ne by (eapply alloc_ne; exact Ht0). exact Ht0. }
  assert (Hcreate : forall r imf' w',
           newTree prefix
             (set_treeCache (lru_Add prefix (alloc (dom (heap w)))) imf,
              set_heap (insert (alloc (dom (heap w)))
                          (emptyTree (treeDB imf) prefix)) w) = (r, (imf', w')) ->
           (forall t tr, heap w !! t = Some tr -> heap w' !! t = Some tr) /\
           store w' ⊆ store w /\
           (forall db v, db <> NewPrefixDB (treeDB imf) prefix ->
              store w' !! (db, v) = store w !! (db, v)) /\
           imf_commitsTree imf' = imf_commitsTree imf /\ treeDB imf' = treeDB imf /\
           cacheSize imf' = cacheSize imf /\ overwriting imf' = overwriting imf).
  { intros r0 imf0 w0 Hn. rewrite newTree_eq in Hn. inversion Hn; subst r0 imf0 w0.
    split; [|repeat split; try reflexivity].
    intros t0 tr Ht0. cbn [set_heap heap].
    rewrite lookup_insert_ne by (eapply alloc_ne; apply Hw1; exact Ht0).
    apply Hw1. exact Ht0. }
  destruct (log_get prefix (tlog ctr)) as [bs|]; [|exact (Hcreate _ _ _ Htree)].
  destruct (Codec.unmarshalCommitID bs) as [c|e].
  2:{ inversion Htree; subst. split; [exact Hw1|].
      repeat split; reflexivity. }
  destruct (Codec.Version c =? 0); [exact (Hcreate _ _ _ Htree)|].
  destruct (store w !! (NewPrefixDB (treeDB imf) prefix, Codec.Version c)) as [l|].
  - inversion Htree; subst. unfold loaded. cbn [heap store emptyTree tdb set_heap].
    split; [|split; [|split]].
    + intros t0 tr Ht0.
      rewrite lookup_insert_ne by (eapply alloc_ne; exact Ht0).
      rewrite lookup_insert_ne by (eapply alloc_ne; exact Ht0). exact Ht0.
    + destruct (overwriting imf); [apply discard_later_subseteq | reflexivity].
    + intros db v Hdb. destruct (overwriting imf); [|reflexivity].
      apply discard_later_other. left. cbn [fst]. exact Hdb.
    + repeat split; reflexivity.
  - inversion Htree; subst. split; [exact Hw1|].
    repeat split; reflexivity.
Qed.

Lemma promoted_eq {A} (m : M IState A) (muf : MutableForest) (w : World)
    (r : result A) (imf' : ImmutableForest) (w' : World) :
  m (imf muf, w) = (r, (imf', w')) ->
  promoted m (muf, w) = (r, (set_imf (fun _ => imf') muf, w')).
Proof. intros Hm. unfold promoted. rewrite Hm. reflexivity. Qed.

Lemma commitID_same_tree (q : bytes) (imf imf' : ImmutableForest) (w w' : World) :
  imf_commitsTree imf' = imf_commitsTree imf ->
  heap w' !! imf_commitsTree imf = heap w !! imf_commitsTree imf ->
  (commitID q (imf', w')).1 = (commitID q (imf, w)).1.
Proof.
  intros Hc Hh. unfold commitID, RWTree_Get. run_monad. cbn [fst snd].
  rewrite Hc, Hh.
  destruct (heap w !! imf_commitsTree imf) as [ctr|]; [|reflexivity].
  destruct (log_get q (tlog ctr)) as [bs|]; [|reflexivity].
  destruct (Codec.unmarshalCommitID bs); reflexivity.
Qed.

Lemma Version_same_tree (muf muf' : MutableForest) (w w' : World) :
  commitsTree muf' = commitsTree muf ->
  heap w' !! commitsTree muf = heap w !! commitsTree muf ->
  (Version (muf', w')).1 = (Version (muf, w)).1.
Proof.
  intros Hc Hh. unfold Version, RWTree_Version. run_monad. cbn [fst snd].
  rewrite Hc, Hh. destruct (heap w !! commitsTree muf); reflexivity.
Qed.

Lemma Writer_registers (prefix : bytes) (muf : MutableForest) (w : World)
    (t : loc) (s' : MState) :
  Writer prefix (muf, w) = (Ok t, s') -> dirty s'.1 !! prefix = Some t.
Proof.
  intros Hw. destruct (dirty muf !! prefix) as [t0|] eqn:Hd.
  - rewrite (Writer_dirty _ _ _ _ Hd) in Hw. inversion Hw; subst. exact Hd.
  - rewrite (Writer_first _ _ _ Hd) in Hw.
    destruct (tree prefix (imf muf, w)) as [[t1|e] [imf' w']];
      inversion Hw; subst. cbn [fst dirty]. apply lookup_insert_eq.
Qed.

Lemma NewPrefixDB_inj (db p q : bytes) : NewPrefixDB db p = NewPrefixDB db q -> p = q.
Proof. unfold NewPrefixDB. apply app_inv_head. Qed.

(** X4. A read never disturbs the writing side.  [Reader] called on a
    well-formed mutable forest (the method promoted from the embedded
    forest) leaves the dirty map, the dirty-order list and the commits tree
    as they are and changes no live tree instance, so that buffered writes,
    every CommitID and the global version are what they were; it writes
    nothing to the store; and the tree it returns is a live tree of the
    namespace asked for. *)
Theorem Reader_keeps_forest (prefix : bytes) (muf muf' : MutableForest)
    (w w' : World) (r : result loc) :
  forest_wf muf w ->
  promoted (Reader prefix) (muf, w) = (r, (muf', w')) ->
  dirty muf' = dirty muf /\ dirtyPrefixes muf' = dirtyPrefixes muf /\
  commitsTree muf' = commitsTree muf /\
  (forall t tr, heap w !! t = Some tr -> heap w' !! t = Some tr) /\
  (Version (muf', w')).1 = (Version (muf, w)).1 /\
  (forall q, (commitID q (imf muf', w')).1 = (commitID q (imf muf, w)).1) /\
  store w' ⊆ store w /\
  (forall t, r = Ok t -> tree_for (treeDB (imf muf)) prefix w' t).
Proof.
  intros Hwf Hr.
  destruct (Reader prefix (imf muf, w)) as [r0 [imf0 w0]] eqn:Ht.
  rewrite (promoted_eq _ _ _ _ _ _ Ht) in Hr. inversion Hr; subst r0 muf' w0.
  clear Hr. unfold Reader in Ht.
  destruct (wf_commits _ _ Hwf) as (ctr & Hct & _).
  pose proof (wf_embedded _ _ Hwf) as Hemb.
  assert (Hct' : heap w !! imf_commitsTree (imf muf) = Some ctr)
    by (rewrite Hemb; exact Hct).
  destruct (tree_live _ _ _ _ _ _ _ Hct' Ht) as (Hlive & Hsub & _ & Hc & _).
  pose proof (tree_resolved prefix (imf muf) w (forest_wf_cache _ _ Hwf)) as Hres.
  rewrite Ht in Hres. cbn [fst snd] in Hres.
  cbn [set_imf dirty dirtyPrefixes commitsTree imf].
  repeat split; try reflexivity.
  - exact Hlive.
  - apply Version_same_tree; [reflexivity|].
    rewrite Hct. apply Hlive. exact Hct.
  - intros q. apply commitID_same_tree; [exact Hc|].
    rewrite Hct'. apply Hlive. exact Hct'.
  - exact Hsub.
  - intros t ->. apply (rs_tree _ _ _ _ _ _ Hres). reflexivity.
Qed.

(** X5. Namespaces are isolated.  On a well-formed forest, after
    [Writer(p).Set(k, v)] a [Reader(q)] for another prefix [q] resolves as it
    would have without the write, to a tree that is not the one written, and
    every key read through it gives what it would have given without the
    write. *)
Theorem Writer_Set_isolated (p q k v : bytes) (muf : MutableForest) (w : World)
    (t : loc) (s1 : MState) (w2 : World) :
  forest_wf muf w -> p <> q ->
  Writer p (muf, w) = (Ok t, s1) ->
  RWTree_Set t k v s1.2 = (Ok tt, w2) ->
  (Reader q (imf s1.1, w2)).1 = (Reader q (imf s1.1, s1.2)).1 /\
  forall r key,
    (Reader q (imf s1.1, w2)).1 = Ok r ->
    r <> t /\
    (RWTree_Get r key (Reader q (imf s1.1, w2)).2.2).1
    = (RWTree_Get r key (Reader q (imf s1.1, s1.2)).2.2).1.
Proof.
  intros Hwf Hpq Hw Hset.
  pose proof (Writer_wf p muf w Hwf) as (Hwf1 & _ & _).
  pose proof (Writer_registers _ _ _ _ _ Hw) as Hd.
  rewrite Hw in Hwf1. cbn [fst snd] in Hwf1.
  destruct s1 as [muf1 w1]. cbn [fst snd] in *.
  destruct (wf_dirty _ _ Hwf1 _ _ Hd) as (tr & Htr & Hdb).
  destruct (wf_commits _ _ Hwf1) as (ctr & Hct & Hview).
  pose proof (wf_embedded _ _ Hwf1) as Hemb.
  rewrite (RWTree_Set_eq _ _ k v w1 Htr) in Hset. inversion Hset; subst w2.
  clear Hset.
  assert (Hne : imf_commitsTree (imf muf1) <> t).
  { rewrite Hemb. intros Heq. rewrite <- Heq, Hct in Htr. inversion Htr; subst tr.
    exact (Hview _ Hdb). }
  assert (Hcache : lru_find q (lru_items (treeCache (imf muf1))) <> Some t).
  { intros Hf. apply lru_find_Some in Hf.
    destruct (wf_cache _ _ Hwf1 _ _ Hf) as (tr' & Htr' & Hdb').
    rewrite Htr in Htr'. inversion Htr'; subst tr'.
    rewrite Hdb in Hdb'. apply NewPrefixDB_inj in Hdb'. contradiction. }
  rewrite <- Hemb in Hct.
  destruct (tree_poke q (imf muf1) w1 t
              (mkRWTree (tdb tr) ((k, Some v) :: tlog tr) (tversion tr) true)
              tr ctr Htr Hct Hne Hcache) as (Heq & Hfresh).
  unfold Reader. rewrite Heq. cbn [fst snd]. split; [reflexivity|].
  intros r key Hr. split; [exact (Hfresh r Hr)|].
  apply RWTree_Get_poke. exact (Hfresh r Hr).
Qed.

(** X16. The only ways a Reader fails.  With a live commits tree, Reader
    returns an error only for a prefix that the tree cache does not hold and
    that has an entry in the commits tree, and only in two cases: the entry
    does not decode to a CommitID, or it names a version other than 0 that
    the store does not hold for the namespace; the error says which. *)
Theorem Reader_failure (prefix : bytes) (imf : ImmutableForest) (w : World)
    (ctr : RWTree) (e : error) (s' : IState) :
  heap w !! imf_commitsTree imf = Some ctr ->
  Reader prefix (imf, w) = (Err e, s') ->
  lru_find prefix (lru_items (treeCache imf)) = None /\
  exists bs,
    log_get prefix (tlog ctr) = Some bs /\
    match Codec.unmarshalCommitID bs with
    | Err e0 =>
        e = Errorf "ImmutableForest.loadOrCreateTree():"
              (Errorf "could not get commitID for prefix" e0)
    | Ok c =>
        Codec.Version c <> 0 /\
        store w !! (NewPrefixDB (treeDB imf) prefix, Codec.Version c) = None /\
        e = Errorf "ImmutableForest.loadOrCreateTree(): could not load tree"
              (ErrVersionMissing (NewPrefixDB (treeDB imf) prefix) (Codec.Version c))
    end.
Proof.
  intros Hct Hr. unfold Reader in Hr.
  destruct (lru_find prefix (lru_items (treeCache imf))) as [t0|] eqn:Hc.
  { rewrite (tree_cached _ _ _ _ Hc) in Hr. discriminate. }
  split; [reflexivity|].
  rewrite (tree_not_cached _ _ _ Hc) in Hr.
  rewrite (loadOrCreateTree_eq prefix imf w ctr Hct) in Hr. cbv zeta in Hr.
  destruct (log_get prefix (tlog ctr)) as [bs|].
  2:{ rewrite newTree_eq in Hr. discriminate. }
  exists bs. split; [reflexivity|].
  destruct (Codec.unmarshalCommitID bs) as [c|e0].
  - destruct (Z.eqb_spec (Codec.Version c) 0) as [Hz|Hnz].
    { rewrite newTree_eq in Hr. discriminate. }
    split; [exact Hnz|].
    destruct (store w !! (NewPrefixDB (treeDB imf) prefix, Codec.Version c));
      [discriminate|].
    split; [reflexivity|]. inversion Hr. reflexivity.
  - inversion Hr. reflexivity.
Qed.

(** X17. A Writer that fails registers nothing.  On a well-formed forest, if
    Writer returns an error, the prefix was not dirty and is not made dirty:
    the dirty map, the dirty-order list and the commits tree are as before,
    and every live tree instance is unchanged, so that a following Save
    commits exactly what it would have committed without the call. *)
Theorem Writer_failure (prefix : bytes) (muf : MutableForest) (w : World)
    (e : error) (s' : MState) :
  forest_wf muf w ->
  Writer prefix (muf, w) = (Err e, s') ->
  dirty muf !! prefix = None /\
  dirty s'.1 = dirty muf /\ dirtyPrefixes s'.1 = dirtyPrefixes muf /\
  commitsTree s'.1 = commitsTree muf /\
  (forall t tr, heap w !! t = Some tr -> heap s'.2 !! t = Some tr) /\
  (forall p, dirty_tree s'.1 s'.2 p = dirty_tree muf w p).
Proof.
  intros Hwf Hw.
  destruct (dirty muf !! prefix) as [t0|] eqn:Hd.
  { rewrite (Writer_dirty _ _ _ _ Hd) in Hw. discriminate. }
  rewrite (Writer_first _ _ _ Hd) in Hw.
  destruct (tree prefix (imf muf, w)) as [[t1|e1] [imf' w']] eqn:Ht;
    inversion Hw; subst e1 s'. clear Hw.
  destruct (wf_commits _ _ Hwf) as (ctr & Hct & _).
  rewrite <- (wf_embedded _ _ Hwf) in Hct.
  destruct (tree_live _ _ _ _ _ _ _ Hct Ht) as (Hlive & _).
  cbn [fst snd set_imf dirty dirtyPrefixes commitsTree].
  repeat split; try reflexivity; [exact Hlive|].
  intros p. unfold dirty_tree, set_imf. cbn [dirty].
  destruct (dirty muf !! p) as [t|] eqn:Hp; [|reflexivity].
  destruct (wf_dirty _ _ Hwf _ _ Hp) as (tr & Htr & _).
  rewrite Htr. apply Hlive. exact Htr.
Qed.

End ReadFrame.
(** * Further properties: Save, and what survives it *)

Section Durability.
Context {collab : Collab} {allocator : Allocator}.
Local Open Scope monad_scope.

Lemma commit_entries_none (muf : MutableForest) (w : World) (ps : list bytes) :
  (forall p, p ∈ ps -> commit_entry muf w p = None) ->
  commit_entries muf w ps = [].
Proof.
  unfold commit_entries. induction ps as [|p ps IH]; intros Hn; [reflexivity|].
  cbn [omap list_omap]. rewrite (Hn p) by (apply elem_of_cons; left; reflexivity).
  apply IH. intros q Hq. apply Hn. apply elem_of_cons. right. exact Hq.
Qed.

(** The view of the commits tree holds no version of a namespace tree. *)
Lemma commits_view_apart (muf : MutableForest) (w : World) (ctr : RWTree)
    (p : bytes) (v v' : Z) :
  forest_wf muf w -> heap w !! commitsTree muf = Some ctr ->
  (NewPrefixDB (treeDB (imf muf)) p, v) <> (tdb ctr, v').
Proof.
  intros Hwf Hct Heq. destruct (wf_commits _ _ Hwf) as (ctr' & Hct' & Hview).
  rewrite Hct in Hct'. inversion Hct'; subst ctr'.
  inversion Heq as [[Hdb Hv]]. exact (Hview p (eq_sym Hdb)).
Qed.

(** X6. When the commits tree itself cannot be saved.  If the store accepts
    every dirty tree but refuses the commits tree, Save returns the store's
    error with the dirty map and dirty-order list already emptied: every
    updated namespace tree has been saved and persisted, its CommitID is a
    buffered write of the commits tree, no version of the commits tree has
    been written and the global version is what it was. *)
Theorem Save_commits_failure (muf : MutableForest) (w : World) (ctr : RWTree) :
  forest_wf muf w ->
  heap w !! commitsTree muf = Some ctr ->
  (forall p, p ∈ dirtyPrefixes muf -> save_refused muf w p = false) ->
  save_fault (tdb ctr) (tversion ctr + 1) = true ->
  exists w',
    Save (muf, w)
    = (Err (ErrStore (tdb ctr) (tversion ctr + 1)), (set_dirty ∅ [] muf, w')) /\
    heap w' !! commitsTree muf
    = Some (mkRWTree (tdb ctr)
              (commit_entries muf w (dirtyPrefixes muf) ++ tlog ctr) (tversion ctr)
              (touched (commit_entries muf w (dirtyPrefixes muf)) (tupdated ctr))) /\
    (forall p t tr,
        dirty muf !! p = Some t -> heap w !! t = Some tr -> tupdated tr = true ->
        heap w' !! t = Some (saved tr) /\
        store w' !! (tdb tr, tversion tr + 1) = Some (tlog tr)) /\
    (forall v, store w' !! (tdb ctr, v) = store w !! (tdb ctr, v)) /\
    (Version (set_dirty ∅ [] muf, w')).1 = (Version (muf, w)).1.
Proof.
  intros Hwf Hct Hacc Hfault.
  pose proof (forest_wf_listed _ _ Hwf) as Hl.
  destruct (Save_loop_spec muf w ctr (dirtyPrefixes muf) [] w
              (wf_nodup _ _ Hwf) Hl (loop_inv_init muf w ctr Hct))
    as (done & rest & w1 & Hsplit & Hinv & Hrun).
  cbn [app] in Hsplit.
  destruct rest as [|p rest].
  2:{ destruct Hrun as (tr & Hdt & Hup & Hsf & _).
      assert (Hin : p ∈ dirtyPrefixes muf).
      { rewrite Hsplit. apply elem_of_app. right. apply elem_of_cons. left.
        reflexivity. }
      specialize (Hacc p Hin). unfold save_refused in Hacc.
      rewrite Hdt, Hup, Hsf in Hacc. discriminate. }
  rewrite app_nil_r in Hsplit. subst done.
  pose proof (li_commits _ _ _ _ _ Hinv) as Hc1.
  exists w1. split; [|split; [|split; [|split]]].
  - rewrite Save_eq, Hrun. unfold inWorld, RWTree_Save, with_tree.
    cbn [fst snd commitsTree set_dirty]. rewrite Hc1. cbn [tdb tversion].
    rewrite Hfault. reflexivity.
  - exact Hc1.
  - intros p t tr Hd Htr Hup.
    assert (Hin : p ∈ dirtyPrefixes muf)
      by (apply (wf_listed _ _ Hwf); eexists; exact Hd).
    split.
    + rewrite (li_trees _ _ _ _ _ Hinv p t tr Hin Hd Htr), Hup. reflexivity.
    + exact (li_stored _ _ _ _ _ Hinv p t tr Hin Hd Htr Hup).
  - intros v. apply (li_store_frame _ _ _ _ _ Hinv).
    intros p tr _ Hdt _ Heq. unfold dirty_tree in Hdt.
    destruct (dirty muf !! p) as [t|] eqn:Hd; [|discriminate].
    destruct (wf_dirty _ _ Hwf _ _ Hd) as (tr' & Htr' & Hdb).
    rewrite Hdt in Htr'. inversion Htr'; subst tr'.
    rewrite Hdb in Heq.
    exact (commits_view_apart muf w ctr p _ _ Hwf Hct (eq_sym Heq)).
  - unfold Version, RWTree_Version, with_tree. run_monad.
    cbn [fst snd commitsTree set_dirty]. rewrite Hc1, Hct. reflexivity.
Qed.

(** X7. An epoch without changes still makes a version.  When no dirty tree
    reports Updated(), a successful Save persists the commits tree with the
    contents it had, under the next global version: the hash returned is
    that of the unchanged contents, the version is one more than before,
    and no tree instance other than the commits tree has changed. *)
Theorem Save_nothing_updated (muf muf' : MutableForest) (w w' : World)
    (ctr : RWTree) (hash : bytes) (version : Z) :
  forest_wf muf w ->
  heap w !! commitsTree muf = Some ctr ->
  (forall p tr, dirty_tree muf w p = Some tr -> tupdated tr = false) ->
  Save (muf, w) = (Ok (hash, version), (muf', w')) ->
  hash = hashfn (tlog ctr) /\ version = tversion ctr + 1 /\
  (Version (muf', w')).1 = Ok (tversion ctr + 1) /\
  store w' = <[(tdb ctr, tversion ctr + 1) := tlog ctr]> (store w) /\
  heap w' !! commitsTree muf
  = Some (mkRWTree (tdb ctr) (tlog ctr) (tversion ctr + 1) false) /\
  (forall t, t <> commitsTree muf -> heap w' !! t = heap w !! t).
Proof.
  intros Hwf Hct Hclean Hsave.
  destruct (Save_ok_inv _ _ _ _ _ _ _ Hwf Hct Hsave)
    as (w1 & Hinv & -> & -> & -> & ->).
  assert (Hnone : commit_entries muf w (dirtyPrefixes muf) = []).
  { apply commit_entries_none. intros p _. unfold commit_entry.
    destruct (dirty_tree muf w p) as [tr|] eqn:Hdt; [|reflexivity].
    rewrite (Hclean p tr Hdt). reflexivity. }
  rewrite Hnone. cbn [app].
  split; [reflexivity|]. split; [reflexivity|].
  split; [|split; [|split]].
  - unfold Version, RWTree_Version, with_tree. run_monad.
    cbn [fst snd commitsTree set_dirty heap]. rewrite lookup_insert_eq. reflexivity.
  - cbn [store]. f_equal. apply map_eq. intros k.
    apply (li_store_frame _ _ _ _ _ Hinv).
    intros p tr _ Hdt Hup. rewrite (Hclean p tr Hdt) in Hup. discriminate.
  - cbn [heap]. apply lookup_insert_eq.
  - intros t Hne. cbn [heap]. rewrite lookup_insert_ne by congruence.
    destruct (decide (Exists (fun p => dirty muf !! p = Some t) (dirtyPrefixes muf)))
      as [Hex|Hno].
    + apply Exists_exists in Hex. destruct Hex as (p & Hin & Hd).
      destruct (wf_dirty _ _ Hwf _ _ Hd) as (tr & Htr & _).
      rewrite (li_trees _ _ _ _ _ Hinv p t tr Hin Hd Htr).
      assert (Hdt : dirty_tree muf w p = Some tr)
        by (unfold dirty_tree; rewrite Hd; exact Htr).
      rewrite (Hclean p tr Hdt). symmetry. exact Htr.
    + apply (li_frame _ _ _ _ _ Hinv t Hne).
      intros p Hin Hd. apply Hno. apply Exists_exists. exists p. split; assumption.
Qed.

(** Resolving a prefix that is not cached and whose CommitID names a
    version the store holds. *)
Lemma tree_committed (prefix hash : bytes) (v : Z) (bs : bytes)
    (imf : ImmutableForest) (w : World) (ctr : RWTree) (l : log) :
  heap w !! imf_commitsTree imf = Some ctr ->
  log_get prefix (tlog ctr) = Some bs ->
  Codec.marshalCommitID hash v = Ok (Some bs) ->
  - 2 ^ 63 <= v < 2 ^ 63 -> v <> 0 ->
  Z.of_nat (length hash) < 2 ^ 63 ->
  lru_find prefix (lru_items (treeCache imf)) = None ->
  store w !! (NewPrefixDB (treeDB imf) prefix, v) = Some l ->
  tree prefix (imf, w)
  = (Ok (alloc (dom (heap w))),
     (set_treeCache (lru_Add prefix (alloc (dom (heap w)))) imf,
      loaded (alloc (dom (heap w))) (emptyTree (treeDB imf) prefix) l v
        (overwriting imf)
        (set_heap (insert (alloc (dom (heap w))) (emptyTree (treeDB imf) prefix)) w))).
Proof.
  intros Hct Hentry Hm Hv Hnz Hh Hcache Hstore.
  destruct (unmarshal_marshal v hash Hv Hh) as (bs' & Hm' & Hu).
  rewrite Hm in Hm'. inversion Hm'; subst bs'. clear Hm'.
  rewrite (tree_not_cached _ _ _ Hcache).
  rewrite (loadOrCreateTree_eq prefix imf w ctr Hct). cbv zeta.
  rewrite Hentry, Hu. cbn [Codec.Version].
  destruct (Z.eqb_spec v 0) as [->|_]; [contradiction|].
  rewrite Hstore. reflexivity.
Qed.

Lemma loaded_Get (t : loc) (tr : RWTree) (l : log) (v : Z) (ov : bool)
    (w : World) (key : bytes) :
  (RWTree_Get t key (loaded t tr l v ov w)).1 = Ok (log_get key l).
Proof.
  rewrite (RWTree_Get_eq t (mkRWTree (tdb tr) l v false)); [reflexivity|].
  unfold loaded. cbn [heap]. apply lookup_insert_eq.
Qed.

(** What a successful Save leaves of an updated dirty tree: the saved
    instance, its persisted contents and its CommitID in the saved commits
    tree. *)
Lemma Save_persisted (muf muf' : MutableForest) (w w' : World) (ctr : RWTree)
    (hash : bytes) (version : Z) (p : bytes) (t : loc) (tr : RWTree) :
  forest_wf muf w ->
  heap w !! commitsTree muf = Some ctr ->
  Save (muf, w) = (Ok (hash, version), (muf', w')) ->
  dirty muf !! p = Some t -> heap w !! t = Some tr -> tupdated tr = true ->
  0 <= tversion tr < 2 ^ 63 - 1 ->
  Z.of_nat (length (hashfn (tlog tr))) < 2 ^ 63 ->
  exists bs clog,
    muf' = set_dirty ∅ [] muf /\ version = tversion ctr + 1 /\
    heap w' !! commitsTree muf = Some (mkRWTree (tdb ctr) clog version false) /\
    store w' !! (tdb ctr, version) = Some clog /\
    log_get p clog = Some bs /\
    Codec.marshalCommitID (hashfn (tlog tr)) (tversion tr + 1) = Ok (Some bs) /\
    heap w' !! t = Some (saved tr) /\
    store w' !! (NewPrefixDB (treeDB (imf muf)) p, tversion tr + 1)
    = Some (tlog tr).
Proof.
  intros Hwf Hct Hsave Hd Htr Hup Hver Hlen.
  destruct (Save_ok_inv _ _ _ _ _ _ _ Hwf Hct Hsave)
    as (w1 & Hinv & -> & -> & -> & ->).
  assert (Hin : p ∈ dirtyPrefixes muf)
    by (apply (wf_listed _ _ Hwf); eexists; exact Hd).
  destruct (wf_dirty _ _ Hwf _ _ Hd) as (tr' & Htr' & Hdb).
  rewrite Htr in Htr'. inversion Htr'; subst tr'. clear Htr'.
  destruct (unmarshal_marshal (tversion tr + 1) (hashfn (tlog tr))
              ltac:(lia) Hlen) as (bs & Hm & _).
  exists bs, (commit_entries muf w (dirtyPrefixes muf) ++ tlog ctr).
  cbn [heap store].
  split; [reflexivity|]. split; [reflexivity|].
  split; [apply lookup_insert_eq|]. split; [apply lookup_insert_eq|].
  split; [|split; [exact Hm|split]].
  - apply log_get_commit_entries; [exact (wf_nodup _ _ Hwf) | exact Hin |].
    unfold commit_entry, dirty_tree. rewrite Hd, Htr, Hup, Hm. reflexivity.
  - rewrite lookup_insert_ne.
    + rewrite (li_trees _ _ _ _ _ Hinv p t tr Hin Hd Htr), Hup. reflexivity.
    + intros Heq. rewrite <- Heq, Hct in Htr. inversion Htr; subst tr.
      exact (commits_view_apart muf w ctr p 0 0 Hwf Hct
               (f_equal (fun d => (d, 0)) (eq_sym Hdb))).
  - rewrite lookup_insert_ne
      by (intros Heq; exact (commits_view_apart muf w ctr p _ _ Hwf Hct (eq_sym Heq))).
    rewrite <- Hdb. exact (li_stored _ _ _ _ _ Hinv p t tr Hin Hd Htr Hup).
Qed.

(** X8. What Save persists can be read back from the database alone.  After a
    successful Save of a well-formed forest on the database [db], a forest
    newly created on [db] and loaded at the version Save returned is at that
    version, and its Reader for a prefix whose dirty tree was updated returns
    a tree in which every key reads what it read in the saved tree. *)
Theorem Save_then_reopen (db : bytes) (size : Z) (muf muf' : MutableForest)
    (w w' : World) (ctr : RWTree) (hash : bytes) (version : Z)
    (p : bytes) (t : loc) (tr : RWTree) :
  forest_wf muf w ->
  heap w !! commitsTree muf = Some ctr ->
  tdb ctr = NewPrefixDB db commitsPrefix ->
  treeDB (imf muf) = NewPrefixDB db treePrefix ->
  0 < size ->
  Save (muf, w) = (Ok (hash, version), (muf', w')) ->
  dirty muf !! p = Some t -> heap w !! t = Some tr -> tupdated tr = true ->
  0 <= tversion tr < 2 ^ 63 - 1 ->
  Z.of_nat (length (hashfn (tlog tr))) < 2 ^ 63 ->
  exists muf2 w2 w3 r imf4 w4,
    NewMutableForest db size w' = (Ok muf2, w2) /\
    Load version (muf2, w2) = (Ok tt, (muf2, w3)) /\
    (Version (muf2, w3)).1 = Ok version /\
    Reader p (imf muf2, w3) = (Ok r, (imf4, w4)) /\
    forall key, (RWTree_Get r key w4).1 = Ok (log_get key (tlog tr)).
Proof.
  intros Hwf Hct Hcdb Htdb Hsize Hsave Hd Htr Hup Hver Hlen.
  destruct (Save_persisted _ _ _ _ _ _ _ _ _ _ Hwf Hct Hsave Hd Htr Hup Hver Hlen)
    as (bs & clog & _ & -> & _ & Hclog & Hentry & Hm & _ & Hst).
  set (c2 := alloc (dom (heap w'))).
  set (tr0 := mkRWTree (NewPrefixDB db commitsPrefix) [] 0 false).
  set (w2 := set_heap (insert c2 tr0) w').
  set (muf2 := mkMutableForest c2
                 (mkImmutableForest c2 (NewPrefixDB db treePrefix)
                    (mkCache size []) size true) ∅ []).
  set (w3 := loaded c2 tr0 clog (tversion ctr + 1) true w2).
  assert (Hnew : NewMutableForest db size w' = (Ok muf2, w2)).
  { rewrite NewMutableForest_eq.
    destruct (Z.leb_spec size 0) as [Hle|_]; [lia | reflexivity]. }
  assert (Hc2 : heap w2 !! c2 = Some tr0)
    by (subst w2; cbn [set_heap heap]; apply lookup_insert_eq).
  assert (Hs2 : store w2 !! (tdb tr0, tversion ctr + 1) = Some clog).
  { subst w2 tr0. cbn [set_heap store tdb]. rewrite <- Hcdb. exact Hclog. }
  assert (Hload : Load (tversion ctr + 1) (muf2, w2) = (Ok tt, (muf2, w3))).
  { unfold Load, bind, get, inWorld. cbn [fst snd].
    change (commitsTree muf2) with c2.
    rewrite (RWTree_Load_eq c2 tr0 _ true w2 Hc2), Hs2. reflexivity. }
  assert (Hc3 : heap w3 !! imf_commitsTree (imf muf2)
                = Some (mkRWTree (NewPrefixDB db commitsPrefix) clog
                          (tversion ctr + 1) false)).
  { subst w3 muf2. unfold loaded. cbn [heap imf imf_commitsTree].
    apply lookup_insert_eq. }
  assert (Hst3 : store w3 !! (NewPrefixDB (treeDB (imf muf2)) p, tversion tr + 1)
                 = Some (tlog tr)).
  { subst w3 muf2. unfold loaded. cbn [store imf treeDB tdb tr0].
    rewrite <- Htdb, <- Hcdb.
    rewrite discard_later_other
      by (left; cbn [fst]; intros Heq;
          exact (commits_view_apart muf w ctr p 0 0 Hwf Hct
                   (f_equal (fun d => (d, 0)) Heq))).
    subst w2. cbn [set_heap store]. exact Hst. }
  pose proof (tree_committed p (hashfn (tlog tr)) (tversion tr + 1) bs
                (imf muf2) w3 _ (tlog tr) Hc3 Hentry Hm ltac:(lia) ltac:(lia)
                Hlen eq_refl Hst3) as Hread.
  eexists muf2, w2, w3, _, _, _.
  split; [exact Hnew|]. split; [exact Hload|].
  split; [|split; [exact Hread|]].
  - unfold Version, RWTree_Version, with_tree. run_monad. cbn [fst snd].
    change (commitsTree muf2) with (imf_commitsTree (imf muf2)).
    rewrite Hc3. reflexivity.
  - intros key. apply loaded_Get.
Qed.

(** X14. What Save persists is what the same forest reads afterwards.
    After a successful Save of a well-formed forest, if the tree cache holds
    for the prefix the instance that was dirty, or holds none, Reader returns
    a tree in which every key reads what it read in the saved tree: the
    cached instance itself in the first case, a new instance loaded at the
    version just saved in the second. *)
Theorem Save_then_Reader (muf muf' : MutableForest) (w w' : World)
    (ctr : RWTree) (hash : bytes) (version : Z) (p : bytes) (t : loc)
    (tr : RWTree) :
  forest_wf muf w ->
  heap w !! commitsTree muf = Some ctr ->
  Save (muf, w) = (Ok (hash, version), (muf', w')) ->
  dirty muf !! p = Some t -> heap w !! t = Some tr -> tupdated tr = true ->
  0 <= tversion tr < 2 ^ 63 - 1 ->
  Z.of_nat (length (hashfn (tlog tr))) < 2 ^ 63 ->
  lru_find p (lru_items (treeCache (imf muf))) = Some t \/
  lru_find p (lru_items (treeCache (imf muf))) = None ->
  exists r imf2 w2,
    Reader p (imf muf', w') = (Ok r, (imf2, w2)) /\
    (lru_find p (lru_items (treeCache (imf muf))) = Some t -> r = t /\ w2 = w') /\
    (lru_find p (lru_items (treeCache (imf muf))) = None ->
     heap w' !! r = None /\
     loads w2 = (NewPrefixDB (treeDB (imf muf)) p, tversion tr + 1,
                 overwriting (imf muf)) :: loads w') /\
    forall key, (RWTree_Get r key w2).1 = Ok (log_get key (tlog tr)).
Proof.
  intros Hwf Hct Hsave Hd Htr Hup Hver Hlen Hcache.
  destruct (Save_persisted _ _ _ _ _ _ _ _ _ _ Hwf Hct Hsave Hd Htr Hup Hver Hlen)
    as (bs & clog & -> & -> & Hc' & _ & Hentry & Hm & Ht' & Hst).
  cbn [set_dirty imf]. unfold Reader.
  destruct Hcache as [Hc|Hc].
  - rewrite (tree_cached _ _ _ _ Hc). eexists _, _, _. split; [reflexivity|].
    split; [intros _; split; reflexivity|].
    split; [rewrite Hc; discriminate|].
    intros key. rewrite (RWTree_Get_eq _ _ key _ Ht'). reflexivity.
  - rewrite <- (wf_embedded _ _ Hwf) in Hc'.
    rewrite (tree_committed p (hashfn (tlog tr)) (tversion tr + 1) bs
               (imf muf) w' _ (tlog tr) Hc' Hentry Hm ltac:(lia) ltac:(lia)
               Hlen Hc Hst).
    eexists _, _, _. split; [reflexivity|].
    split; [rewrite Hc; discriminate|].
    split; [intros _; split; [apply alloc_None | reflexivity]|].
    intros key. apply loaded_Get.
Qed.

(** X9. A historical view reads the version it is pinned at.  When the store
    holds version [version] of the commits tree, binding the prefix to the
    CommitID of a tree version that the store holds as well, GetImmutable
    returns a forest whose Reader gives a tree with exactly the contents of
    that tree version; obtaining and reading the view changes nothing in the
    store and no tree instance of the live forest. *)
Theorem GetImmutable_reads_version (muf : MutableForest) (w : World)
    (ctr : RWTree) (version : Z) (clog : log) (p bs hash : bytes) (v : Z)
    (l : log) :
  heap w !! commitsTree muf = Some ctr ->
  0 < cacheSize (imf muf) ->
  store w !! (tdb ctr, version) = Some clog ->
  log_get p clog = Some bs ->
  Codec.marshalCommitID hash v = Ok (Some bs) ->
  - 2 ^ 63 <= v < 2 ^ 63 -> v <> 0 ->
  Z.of_nat (length hash) < 2 ^ 63 ->
  store w !! (NewPrefixDB (treeDB (imf muf)) p, v) = Some l ->
  exists imf1 w1 r imf2 w2,
    GetImmutable version (muf, w) = (Ok imf1, (muf, w1)) /\
    Reader p (imf1, w1) = (Ok r, (imf2, w2)) /\
    (forall key, (RWTree_Get r key w2).1 = Ok (log_get key l)) /\
    store w2 = store w /\
    (forall t tr, heap w !! t = Some tr -> heap w2 !! t = Some tr).
Proof.
  intros Hct Hsize Hclog Hentry Hm Hv Hnz Hh Hst.
  set (c1 := alloc (dom (heap w))).
  set (snap := mkRWTree (tdb ctr) clog version false).
  set (w1 := set_heap (insert c1 snap) w).
  set (imf1 := mkImmutableForest c1 (treeDB (imf muf))
                 (mkCache (cacheSize (imf muf)) []) (cacheSize (imf muf)) false).
  assert (Hget : GetImmutable version (muf, w) = (Ok imf1, (muf, w1))).
  { unfold GetImmutable, RWTree_GetImmutable, NewImmutableForest, lru_New.
    run_monad. cbn [fst snd]. rewrite Hct, Hclog. cbn [fst snd fold_left].
    destruct (Z.leb_spec (cacheSize (imf muf)) 0) as [Hle|_]; [lia|].
    reflexivity. }
  assert (Hc1 : heap w1 !! imf_commitsTree imf1 = Some snap)
    by (subst w1 imf1; cbn [set_heap heap imf_commitsTree]; apply lookup_insert_eq).
  pose proof (tree_committed p hash v bs imf1 w1 snap l Hc1 Hentry Hm Hv Hnz Hh
                eq_refl Hst) as Hread.
  eexists imf1, w1, _, _, _.
  split; [exact Hget|]. split; [exact Hread|].
  split; [intros key; apply loaded_Get|].
  split; [reflexivity|].
  intros t tr Ht. unfold loaded. cbn [heap set_heap].
  assert (Ht1 : heap w1 !! t = Some tr).
  { subst w1. cbn [set_heap heap].
    rewrite lookup_insert_ne by (eapply alloc_ne; exact Ht). exact Ht. }
  rewrite lookup_insert_ne by (eapply alloc_ne; exact Ht1).
  rewrite lookup_insert_ne by (eapply alloc_ne; exact Ht1).
  exact Ht1.
Qed.

(** X10. Load moves the forest to a stored global version.  If the store
    holds the version of the commits tree, Load succeeds: the commits tree
    has the contents of that version with nothing buffered, the global
    version is that version, every later version of the commits tree is gone
    from the store (so that GetImmutable of it fails) while everything else
    in the store stays; the dirty map, the tree cache and every other tree
    instance are left as they are.  If the store does not hold the version,
    Load returns the tree's error and changes neither the trees nor the
    store. *)
Theorem Load_version (muf : MutableForest) (w : World) (ctr : RWTree)
    (version : Z) :
  heap w !! commitsTree muf = Some ctr ->
  match store w !! (tdb ctr, version) with
  | Some l =>
      exists w',
        Load version (muf, w) = (Ok tt, (muf, w')) /\
        heap w' !! commitsTree muf = Some (mkRWTree (tdb ctr) l version false) /\
        (Version (muf, w')).1 = Ok version /\
        (forall v', version < v' ->
           store w' !! (tdb ctr, v') = None /\
           (GetImmutable v' (muf, w')).1
           = Err (Errorf "MutableForest.GetImmutable() could not get commits tree"
                    (ErrVersionMissing (tdb ctr) v'))) /\
        (forall k, k.1 <> tdb ctr \/ k.2 <= version -> store w' !! k = store w !! k) /\
        (forall t, t <> commitsTree muf -> heap w' !! t = heap w !! t)
  | None =>
      exists w',
        Load version (muf, w) = (Err (ErrVersionMissing (tdb ctr) version), (muf, w')) /\
        heap w' = heap w /\ store w' = store w
  end.
Proof.
  intros Hct.
  assert (Hload : Load version (muf, w)
                  = ((RWTree_Load (commitsTree muf) version true w).1,
                     (muf, (RWTree_Load (commitsTree muf) version true w).2))).
  { unfold Load, bind, get, inWorld. cbn [fst snd].
    destruct (RWTree_Load (commitsTree muf) version true w). reflexivity. }
  rewrite Hload, (RWTree_Load_eq _ _ version true w Hct).
  destruct (store w !! (tdb ctr, version)) as [l|] eqn:Hst; cbn [fst snd].
  - eexists. split; [reflexivity|].
    assert (Hc : heap (loaded (commitsTree muf) ctr l version true w)
                 !! commitsTree muf
                 = Some (mkRWTree (tdb ctr) l version false))
      by (unfold loaded; cbn [heap]; apply lookup_insert_eq).
    split; [exact Hc|]. split; [|split; [|split]].
    + unfold Version, RWTree_Version, with_tree. run_monad. cbn [fst snd].
      rewrite Hc. reflexivity.
    + intros v' Hlt.
      assert (Hgone : store (loaded (commitsTree muf) ctr l version true w)
                      !! (tdb ctr, v') = None)
        by (unfold loaded; cbn [store]; apply discard_later_gone; exact Hlt).
      split; [exact Hgone|].
      unfold GetImmutable, RWTree_GetImmutable. run_monad. cbn [fst snd].
      rewrite Hc. cbn [tdb]. rewrite Hgone. reflexivity.
    + intros k Hk. unfold loaded. cbn [store]. apply discard_later_other. exact Hk.
    + intros t Hne. unfold loaded. cbn [heap]. apply lookup_insert_ne. congruence.
  - eexists. split; [reflexivity|]. split; reflexivity.
Qed.

Lemma lru_find_Add (key : bytes) (v : loc) (c : Cache) :
  1 <= lru_size c -> lru_find key (lru_items (lru_Add key v c)) = Some v.
Proof.
  intros Hsize. unfold lru_Add.
  destruct (lru_find key (lru_items c)) as [old|].
  - cbn [lru_items lru_find]. rewrite decide_True by reflexivity. reflexivity.
  - cbv zeta. destruct (lru_items c) as [|e items] eqn:Hitems.
    + cbn [length]. destruct (Z.ltb_spec (lru_size c) (Z.of_nat 1)) as [Hlt|_]; [lia|].
      cbn [lru_items lru_find]. rewrite decide_True by reflexivity. reflexivity.
    + destruct (lru_size c <? _); cbn [lru_items removelast lru_find];
        rewrite decide_True by reflexivity; reflexivity.
Qed.

(** X11. A failed load leaves an empty tree behind.  When the CommitID of a
    prefix names a version that the store does not hold, Reader fails with
    the "could not load tree" error; but the tree it had created for the load
    stays in the tree cache (of capacity at least one), so that the next
    Reader for the same prefix succeeds, without any load, with a tree that
    is empty and at version 0. *)
Theorem Reader_after_failed_load (prefix hash : bytes) (v : Z) (bs : bytes)
    (imf : ImmutableForest) (w : World) (ctr : RWTree) :
  heap w !! imf_commitsTree imf = Some ctr ->
  log_get prefix (tlog ctr) = Some bs ->
  Codec.marshalCommitID hash v = Ok (Some bs) ->
  - 2 ^ 63 <= v < 2 ^ 63 -> v <> 0 ->
  Z.of_nat (length hash) < 2 ^ 63 ->
  lru_find prefix (lru_items (treeCache imf)) = None ->
  store w !! (NewPrefixDB (treeDB imf) prefix, v) = None ->
  1 <= lru_size (treeCache imf) ->
  exists imf1 w1 t imf2,
    Reader prefix (imf, w)
    = (Err (Errorf "ImmutableForest.loadOrCreateTree(): could not load tree"
              (ErrVersionMissing (NewPrefixDB (treeDB imf) prefix) v)),
       (imf1, w1)) /\
    Reader prefix (imf1, w1) = (Ok t, (imf2, w1)) /\
    heap w !! t = None /\
    heap w1 !! t = Some (mkRWTree (NewPrefixDB (treeDB imf) prefix) [] 0 false).
Proof.
  intros Hct Hentry Hm Hv Hnz Hh Hcache Hst Hsize.
  destruct (unmarshal_marshal v hash Hv Hh) as (bs' & Hm' & Hu).
  rewrite Hm in Hm'. inversion Hm'; subst bs'. clear Hm'.
  unfold Reader. rewrite (tree_not_cached _ _ _ Hcache).
  rewrite (loadOrCreateTree_eq prefix imf w ctr Hct). cbv zeta.
  rewrite Hentry, Hu. cbn [Codec.Version].
  destruct (Z.eqb_spec v 0) as [->|_]; [contradiction|].
  rewrite Hst.
  eexists _, _, (alloc (dom (heap w))), _.
  split; [reflexivity|]. split; [|split].
  - apply tree_cached. cbn [set_treeCache treeCache]. apply lru_find_Add. exact Hsize.
  - apply alloc_None.
  - cbn [log_load set_heap heap]. apply lookup_insert_eq.
Qed.


End Durability.

(** ** A Save that is tried again *)

Lemma commit_entries_app {collab : Collab} (muf : MutableForest) (w : World)
    (ps qs : list bytes) :
  commit_entries muf w (ps ++ qs)
  = commit_entries muf w qs ++ commit_entries muf w ps.
Proof. unfold commit_entries. rewrite omap_app, rev_app_distr. reflexivity. Qed.

Lemma commit_entries_agree (C1 C2 : Collab) (muf : MutableForest) (w1 w2 : World)
    (ps : list bytes) :
  (forall p, p ∈ ps ->
     commit_entry (collab := C1) muf w1 p = commit_entry (collab := C2) muf w2 p) ->
  commit_entries (collab := C1) muf w1 ps = commit_entries (collab := C2) muf w2 ps.
Proof.
  unfold commit_entries. intros Hag. f_equal.
  induction ps as [|p ps IH]; [reflexivity|]. cbn [omap list_omap].
  rewrite (Hag p) by (apply elem_of_cons; left; reflexivity).
  rewrite IH; [reflexivity|].
  intros q Hq. apply Hag. apply elem_of_cons. right. exact Hq.
Qed.

(** X15. A failed Save is completed by a later one.  If Save fails (a tree
    or the commits tree could not be persisted) and a later Save of the same
    forest goes through, with the same hash function, the later Save returns
    the hash and version, and leaves the commits tree with the contents, that
    a single successful Save of the original forest gives: the CommitIDs
    written before the failure are kept as buffered writes, the trees already
    saved are not saved again. *)
Theorem Save_retry (C1 C2 : Collab) {allocator : Allocator}
    (muf : MutableForest) (w : World) (ctr : RWTree) (e : error) (s1 s2 : MState)
    (hash : bytes) (version : Z) :
  (forall l, hashfn (Collab := C1) l = hashfn (Collab := C2) l) ->
  forest_wf muf w ->
  heap w !! commitsTree muf = Some ctr ->
  Save (collab := C1) (muf, w) = (Err e, s1) ->
  Save (collab := C2) s1 = (Ok (hash, version), s2) ->
  hash = hashfn (Collab := C2)
           (commit_entries (collab := C2) muf w (dirtyPrefixes muf) ++ tlog ctr) /\
  version = tversion ctr + 1 /\
  dirty s2.1 = ∅ /\ dirtyPrefixes s2.1 = [] /\
  heap s2.2 !! commitsTree muf
  = Some (mkRWTree (tdb ctr)
            (commit_entries (collab := C2) muf w (dirtyPrefixes muf) ++ tlog ctr)
            (tversion ctr + 1) false).
Proof.
  intros Hhash Hwf Hct Hfail Hretry.
  assert (Hsame : forall w0 ps,
            commit_entries (collab := C1) muf w0 ps
            = commit_entries (collab := C2) muf w0 ps).
  { intros w0 ps. apply commit_entries_agree. intros p _. unfold commit_entry.
    destruct (dirty_tree muf w0 p) as [tr|]; [|reflexivity].
    rewrite Hhash. reflexivity. }
  pose proof (forest_wf_listed _ _ Hwf) as Hl.
  destruct (Save_loop_spec (collab := C1) muf w ctr (dirtyPrefixes muf) [] w
              (wf_nodup _ _ Hwf) Hl (loop_inv_init muf w ctr Hct))
    as (done & rest & w1 & Hsplit & Hinv & Hrun).
  cbn [app] in Hsplit.
  pose proof (li_commits _ _ _ _ _ Hinv) as Hc1.
  rewrite (Save_eq (collab := C1)) in Hfail.
  destruct rest as [|p rest].
  - rewrite app_nil_r in Hsplit. subst done. rewrite Hrun in Hfail.
    unfold inWorld, RWTree_Save, with_tree in Hfail.
    cbn [fst snd commitsTree set_dirty] in Hfail. rewrite Hc1 in Hfail.
    cbn [tdb tversion tlog] in Hfail.
    destruct (save_fault (tdb ctr) (tversion ctr + 1)); [|discriminate].
    cbv [throw] in Hfail. inversion Hfail; subst e s1. clear Hfail.
    assert (Hext : heap_ext w w1)
      by (exact (proj2 (Save_loop_ext _ _ _ _ _ _ Hrun))).
    pose proof (forest_wf_clean _ _ (forest_wf_ext _ _ _ Hwf Hext)) as Hwf1.
    destruct s2 as [muf2 w2].
    destruct (Save_ok_inv (collab := C2) _ _ _ _ _ _ _ Hwf1 Hc1 Hretry)
      as (w1' & _ & -> & -> & -> & ->).
    cbn [set_dirty dirtyPrefixes dirty commitsTree tlog tversion tdb fst snd heap].
    change (commit_entries (set_dirty ∅ [] muf) w1 []) with (@nil (bytes * option bytes)).
    cbn [app]. rewrite Hsame.
    repeat split; try reflexivity. apply lookup_insert_eq.
  - destruct Hrun as (tr & Hdt & Hup & Hsf & Hrun).
    rewrite Hrun in Hfail. inversion Hfail; subst e s1. clear Hfail.
    assert (Hext : heap_ext w w1)
      by (exact (proj2 (Save_loop_ext _ _ _ _ _ _ Hrun))).
    pose proof (forest_wf_ext _ _ _ Hwf Hext) as Hwf1.
    destruct s2 as [muf2 w2].
    destruct (Save_ok_inv (collab := C2) _ _ _ _ _ _ _ Hwf1 Hc1 Hretry)
      as (w1' & _ & -> & -> & -> & ->).
    cbn [set_dirty dirtyPrefixes dirty commitsTree tlog tversion tdb fst snd heap].
    assert (Hentries :
              commit_entries (collab := C2) muf w1 (dirtyPrefixes muf)
              ++ commit_entries (collab := C1) muf w done ++ tlog ctr
              = commit_entries (collab := C2) muf w (dirtyPrefixes muf) ++ tlog ctr).
    { assert (Hdone : commit_entries (collab := C2) muf w1 done = []).
      { apply commit_entries_none. intros q Hq.
        destruct (Hl q) as (t & trq & Hd & Htr & _ & _).
        { rewrite Hsplit. apply elem_of_app. left. exact Hq. }
        unfold commit_entry, dirty_tree. rewrite Hd.
        rewrite (li_trees _ _ _ _ _ Hinv q t trq Hq Hd Htr).
        destruct (tupdated trq) eqn:Hu; [reflexivity | rewrite Hu; reflexivity]. }
      rewrite Hsplit, !commit_entries_app, Hdone, app_nil_r, Hsame, <- app_assoc.
      f_equal.
      apply commit_entries_agree. intros q Hq. unfold commit_entry, dirty_tree.
      destruct (Hl q) as (t & trq & Hd & Htr & Hdb & Hne).
      { rewrite Hsplit. apply elem_of_app. right. exact Hq. }
      rewrite Hd. rewrite (li_frame _ _ _ _ _ Hinv t Hne); [reflexivity|].
      intros q' Hq' Hd'.
      destruct (Hl q') as (t' & trq' & Hd2 & Htr2 & Hdb2 & _).
      { rewrite Hsplit. apply elem_of_app. left. exact Hq'. }
      rewrite Hd' in Hd2. inversion Hd2; subst t'.
      rewrite Htr in Htr2. inversion Htr2; subst trq'.
      rewrite Hdb in Hdb2. apply NewPrefixDB_inj in Hdb2. subst q'.
      pose proof (wf_nodup _ _ Hwf) as Hnd. rewrite Hsplit in Hnd.
      apply NoDup_app in Hnd. destruct Hnd as (_ & Hdisj & _).
      exact (Hdisj q Hq' Hq). }
    rewrite Hentries.
    repeat split; try reflexivity. apply lookup_insert_eq.
Qed.
(** * Further properties: the forest under any use *)

Section AnyUse.
Context {collab : Collab} {allocator : Allocator}.
Local Open Scope monad_scope.


Lemma run_call_wf (c : call) (s : MState) :
  forest_wf s.1 s.2 -> forest_wf (run_call c s).2.1 (run_call c s).2.2.
Proof.
  destruct s as [muf w]. cbn [fst snd]. intros Hwf.
  destruct c as [o | p | p | v | v | t key value | t key]; cbn [run_call].
  - unfold bind. destruct (run_op o (muf, w)) as [[r|e] s1] eqn:Hrun;
      exact (run_op_wf o (muf, w) s1 _ Hwf Hrun).
  - pose proof (promoted_tree_wf p muf w Hwf) as (Hwf1 & _).
    unfold bind, Reader.
    destruct (promoted (tree p) (muf, w)) as [[r|e] s1]; exact Hwf1.
  - pose proof (Delete_wf p muf w Hwf) as Hwf1.
    unfold bind. destruct (Delete p (muf, w)) as [[r|e] s1]; exact Hwf1.
  - unfold Load, bind, get, inWorld. cbn [fst snd].
    pose proof (RWTree_Load_ext (commitsTree muf) v true w) as He.
    destruct (RWTree_Load (commitsTree muf) v true w) as [r w1].
    cbn [fst snd] in *. exact (forest_wf_ext _ _ _ Hwf He).
  - unfold GetImmutable, RWTree_GetImmutable. run_monad. cbn [fst snd].
    destruct (heap w !! commitsTree muf) as [ctr|]; [|exact Hwf].
    destruct (store w !! (tdb ctr, v)) as [l|]; [|exact Hwf].
    cbn [fst snd].
    assert (He : heap_ext w (set_heap (insert (alloc (dom (heap w)))
                                         (mkRWTree (tdb ctr) l v false)) w))
      by apply heap_ext_alloc.
    destruct (NewImmutableForest _ _ _ _); cbn [fst snd];
      exact (forest_wf_ext _ _ _ Hwf He).
  - unfold inWorld. pose proof (RWTree_Set_ext t key value w) as He.
    destruct (RWTree_Set t key value w) as [r w1]. cbn [fst snd] in *.
    exact (forest_wf_ext _ _ _ Hwf He).
  - unfold bind, inWorld. pose proof (RWTree_Delete_ext t key w) as He.
    destruct (RWTree_Delete t key w) as [[r|e] w1]; cbn [fst snd] in *;
      exact (forest_wf_ext _ _ _ Hwf He).
Qed.

(** X13. The forest stays well formed under any use.  From a forest built
    by NewMutableForest, after any sequence of calls of its methods and of
    writes through tree handles, whichever of them fail: the commits tree is
    a live instance on a view of its own, the dirty-order list enumerates the
    dirty map without repetition, and every tree in the dirty map or in the
    tree cache is a live instance that persists to the view of its own
    prefix. *)
Theorem forest_wf_any_use (db : bytes) (size : Z) (w w0 : World)
    (muf : MutableForest) (calls : list call) :
  NewMutableForest db size w = (Ok muf, w0) ->
  forest_wf (run_calls calls (muf, w0)).1 (run_calls calls (muf, w0)).2.
Proof.
  intros Hnew. destruct (NewMutableForest_wf _ _ _ _ _ Hnew) as (Hwf & _).
  change (forest_wf (muf, w0).1 (muf, w0).2) in Hwf.
  generalize dependent (muf, w0). clear Hnew.
  unfold run_calls. induction calls as [|c calls IH]; intros s Hwf; [exact Hwf|].
  cbn [fold_left]. apply IH. apply run_call_wf. exact Hwf.
Qed.

End AnyUse.

(** * Worked examples

    The theorems above, applied to forests built through the public API with
    the [reliable] store and the [bump] allocator. *)

#[local] Existing Instance reliable.
#[local] Existing Instance bump.

Lemma Writer_same_instance_witness :
  Writer (bz "names") (newForest 1)
  = (Ok 2%nat, exec (Writer (bz "names")) (newForest 1)) /\
  Writer (bz "names")
    (exec (Writer (bz "names")) (newForest 1))
  = (Ok 2%nat, exec (Writer (bz "names")) (newForest 1)).
Proof.
  assert (Hw : Writer (bz "names") (newForest 1)
               = (Ok 2%nat, exec (Writer (bz "names"))
                              (newForest 1)))
    by (vm_compute; reflexivity).
  split; [exact Hw|].
  exact (proj1 (Writer_same_instance (bz "names") _ _ _ Hw)).
Defined.

(** C5 as stated fails: after [Writer("a").Set("k", "v")] on a new forest the
    commits tree has no entry for "a", yet [Reader("a")] returns the cached
    instance, in which "k" is bound to "v": the tree is not empty. *)
Lemma Reader_uncommitted_prefix_not_empty :
  let s := exec (WriterSet (bz "a") (bz "k") (bz "v"))
             (newForest 1) in
  (RWTree_Get (commitsTree s.1) (bz "a") s.2).1 = Ok None /\
  (Reader (bz "a") (imf s.1, s.2)).1 = Ok 2%nat /\
  peek 2%nat (Reader (bz "a") (imf s.1, s.2)).2.2
  = Some (mkRWTree (bz "ta") [(bz "k", Some (bz "v"))] 0 true) /\
  (RWTree_Get 2%nat (bz "k") (Reader (bz "a") (imf s.1, s.2)).2.2).1
  = Ok (Some (bz "v")).
Proof. vm_compute. repeat split; reflexivity. Qed.

Lemma Reader_no_commit_entry_witness :
  heap (newForest 1).2 !! imf_commitsTree (imf (newForest 1).1)
  = Some (mkRWTree (bz "c") [] 0 false) /\
  log_get (bz "a") (tlog (mkRWTree (bz "c") [] 0 false)) = None /\
  exists t imf' w',
    Reader (bz "a") (imf (newForest 1).1, (newForest 1).2)
    = (Ok t, (imf', w')) /\
    heap (newForest 1).2 !! t = None /\
    heap w' !! t = Some (mkRWTree (bz "ta") [] 0 false) /\
    loads w' = loads (newForest 1).2 /\
    store w' = store (newForest 1).2.
Proof.
  split; [reflexivity|]. split; [reflexivity|].
  exact (Reader_no_commit_entry (bz "a") (imf (newForest 1).1)
           (newForest 1).2 (mkRWTree (bz "c") [] 0 false) eq_refl eq_refl).
Defined.

(** [newForest] is what the constructor returns. *)
Example NewMutableForest_newForest :
  NewMutableForest [] 2 emptyWorld = (Ok (newForest 2).1, (newForest 2).2).
Proof. vm_compute. reflexivity. Qed.

(** C1 as stated fails: with "a" and "b" dirty and updated and a store that
    refuses the view of "b", Save returns the error of "b" after the tree of
    "a" was saved and its CommitID written into the commits tree, which was
    pristine before: the commits tree has been touched. *)
Lemma Save_failure_touches_commits_tree :
  dirtyPrefixes twoDirty.1 = [bz "a"; bz "b"] /\
  peek 0%nat twoDirty.2 = Some (mkRWTree (bz "c") [] 0 false) /\
  (Save (collab := failing (bz "tb")) twoDirty).1
  = Err (Errorf "MutableForest.saveTree() could not save tree"
           (ErrStore (bz "tb") 1)) /\
  peek 0%nat (Save (collab := failing (bz "tb")) twoDirty).2.2
  = Some (mkRWTree (bz "c") [(bz "a", Some [8; 1; 18; 2; 107; 118])] 0 true) /\
  peek 2%nat (Save (collab := failing (bz "tb")) twoDirty).2.2
  = Some (mkRWTree (bz "ta") [(bz "k", Some (bz "v"))] 1 false).
Proof. vm_compute. repeat split; reflexivity. Qed.

Lemma Save_tree_failure_witness :
  forest_wf twoDirty.1 twoDirty.2 /\
  heap twoDirty.2 !! commitsTree twoDirty.1 = Some (mkRWTree (bz "c") [] 0 false) /\
  bz "b" ∈ dirtyPrefixes twoDirty.1 /\
  save_refused (collab := failing (bz "tb")) twoDirty.1 twoDirty.2 (bz "b") = true /\
  exists e w',
    Save (collab := failing (bz "tb")) (twoDirty.1, twoDirty.2)
    = (Err e, (twoDirty.1, w')) /\
    (Version (twoDirty.1, w')).1 = (Version (twoDirty.1, twoDirty.2)).1.
Proof.
  assert (Hwf : forest_wf twoDirty.1 twoDirty.2)
    by (apply forest_wfb_sound; vm_compute; reflexivity).
  assert (Hct : heap twoDirty.2 !! commitsTree twoDirty.1
                = Some (mkRWTree (bz "c") [] 0 false))
    by (vm_compute; reflexivity).
  assert (Hin : bz "b" ∈ dirtyPrefixes twoDirty.1)
    by (apply list_elem_of_In; vm_compute; auto).
  assert (Hr : save_refused (collab := failing (bz "tb")) twoDirty.1 twoDirty.2
                 (bz "b") = true)
    by (vm_compute; reflexivity).
  split; [exact Hwf|]. split; [exact Hct|]. split; [exact Hin|].
  split; [exact Hr|].
  destruct (Save_tree_failure (collab := failing (bz "tb")) twoDirty.1 twoDirty.2
              _ (bz "b") Hwf Hct Hin Hr)
    as (done & p & rest & tr & w' & _ & _ & _ & _ & Hsave & _ & _ & _ & Hv).
  eexists. exists w'. split; [exact Hsave | exact Hv].
Defined.

Lemma Save_success_witness :
  forest_wf twoDirty.1 twoDirty.2 /\
  heap twoDirty.2 !! commitsTree twoDirty.1 = Some (mkRWTree (bz "c") [] 0 false) /\
  Save (twoDirty.1, twoDirty.2)
  = (Ok ([98; 8; 1; 18; 2; 107; 119; 97; 8; 1; 18; 2; 107; 118], 1),
     (committed.1, committed.2)) /\
  dirty committed.1 = ∅ /\ dirtyPrefixes committed.1 = [].
Proof.
  assert (Hwf : forest_wf twoDirty.1 twoDirty.2)
    by (apply forest_wfb_sound; vm_compute; reflexivity).
  assert (Hct : heap twoDirty.2 !! commitsTree twoDirty.1
                = Some (mkRWTree (bz "c") [] 0 false))
    by (vm_compute; reflexivity).
  assert (Hsave : Save (twoDirty.1, twoDirty.2)
                  = (Ok ([98; 8; 1; 18; 2; 107; 119; 97; 8; 1; 18; 2; 107; 118], 1),
                     (committed.1, committed.2)))
    by (vm_compute; reflexivity).
  split; [exact Hwf|]. split; [exact Hct|]. split; [exact Hsave|].
  destruct (Save_success _ _ _ _ _ _ _ Hwf Hct Hsave) as (_ & Hd & Hp & _).
  split; [exact Hd | exact Hp].
Defined.

(** C4 as stated fails: with a tree cache of capacity 1, after
    [Writer("a").Set("k", "v")] a [Reader("b")] pushes the tree of "a" out
    of the cache; Writer("a") still returns the instance at address 2, where
    "k" reads "v", but Reader("a") on the same forest resolves a new, empty
    instance, where "k" is absent. *)
Lemma Reader_after_eviction_misses_write :
  (Writer (bz "a") evicted).1 = Ok 2%nat /\
  (RWTree_Get 2%nat (bz "k") evicted.2).1 = Ok (Some (bz "v")) /\
  lru_items (treeCache (imf evicted.1)) = [(bz "b", 4%nat)] /\
  (Reader (bz "a") (imf evicted.1, evicted.2)).1 = Ok 6%nat /\
  (RWTree_Get 6%nat (bz "k") (Reader (bz "a") (imf evicted.1, evicted.2)).2.2).1
  = Ok None.
Proof. vm_compute. repeat split; reflexivity. Qed.

Lemma write_buffering_witness :
  Writer (bz "a") (newForest 1)
  = (Ok 2%nat, exec (Writer (bz "a")) (newForest 1)) /\
  RWTree_Set 2%nat (bz "k") (bz "v") (exec (Writer (bz "a")) (newForest 1)).2
  = (Ok tt, (exec (WriterSet (bz "a") (bz "k") (bz "v")) (newForest 1)).2) /\
  (RWTree_Get 2%nat (bz "k")
     (exec (WriterSet (bz "a") (bz "k") (bz "v")) (newForest 1)).2).1
  = Ok (Some (bz "v")).
Proof.
  assert (Hw : Writer (bz "a") (newForest 1)
               = (Ok 2%nat, exec (Writer (bz "a")) (newForest 1)))
    by (vm_compute; reflexivity).
  assert (Hs : RWTree_Set 2%nat (bz "k") (bz "v")
                 (exec (Writer (bz "a")) (newForest 1)).2
               = (Ok tt, (exec (WriterSet (bz "a") (bz "k") (bz "v"))
                            (newForest 1)).2))
    by (vm_compute; reflexivity).
  split; [exact Hw|]. split; [exact Hs|].
  exact (proj1 (proj2 (write_buffering _ _ _ _ _ _ _ Hw Hs))).
Defined.

Lemma Delete_commit_entry_witness :
  heap committed.2 !! commitsTree committed.1
  = Some (mkRWTree (bz "c")
            [(bz "b", Some [8; 1; 18; 2; 107; 119]);
             (bz "a", Some [8; 1; 18; 2; 107; 118])] 1 false) /\
  0 <= 1 < 2 ^ 63 /\ Z.of_nat (length (bz "kv")) < 2 ^ 63 /\
  Codec.marshalCommitID (bz "kv") 1 = Ok (Some [8; 1; 18; 2; 107; 118]) /\
  exists w',
    Delete (bz "a") (committed.1, committed.2)
    = (Ok (Some (Codec.mkCommitID 1 (bz "kv"))), (committed.1, w')) /\
    (RWTree_Get (commitsTree committed.1) (bz "a") w').1 = Ok None.
Proof.
  assert (Hct : heap committed.2 !! commitsTree committed.1
                = Some (mkRWTree (bz "c")
                          [(bz "b", Some [8; 1; 18; 2; 107; 119]);
                           (bz "a", Some [8; 1; 18; 2; 107; 118])] 1 false))
    by (vm_compute; reflexivity).
  assert (Hv : 0 <= 1 < 2 ^ 63) by lia.
  assert (Hh : Z.of_nat (length (bz "kv")) < 2 ^ 63) by (vm_compute; reflexivity).
  assert (Hm : Codec.marshalCommitID (bz "kv") 1
               = Ok (Some [8; 1; 18; 2; 107; 118]))
    by (vm_compute; reflexivity).
  split; [exact Hct|]. split; [exact Hv|]. split; [exact Hh|]. split; [exact Hm|].
  destruct (proj2 (Delete_commit_entry (bz "a") committed.1 committed.2 _ Hct)
              (bz "kv") 1 _ Hv Hh Hm eq_refl)
    as (w' & Hdel & Hgone & _).
  exists w'. split; [exact Hdel | exact Hgone].
Defined.

Lemma GetImmutable_not_overwriting_witness :
  NewMutableForest [] 2 emptyWorld = (Ok (newForest 2).1, (newForest 2).2) /\
  overwriting (imf (newForest 2).1) = true /\
  (GetImmutable 1 committed).1
  = Ok (mkImmutableForest 5%nat (bz "t") (mkCache 2 []) 2 false) /\
  overwriting (mkImmutableForest 5%nat (bz "t") (mkCache 2 []) 2 false) = false /\
  heap committed.2 !! 5%nat = None.
Proof.
  assert (Hn : NewMutableForest [] 2 emptyWorld
               = (Ok (newForest 2).1, (newForest 2).2))
    by (vm_compute; reflexivity).
  assert (Hg : GetImmutable 1 committed
               = (Ok (mkImmutableForest 5%nat (bz "t") (mkCache 2 []) 2 false),
                  (GetImmutable 1 committed).2))
    by (vm_compute; reflexivity).
  destruct GetImmutable_not_overwriting as (Hnew & Hget & _).
  destruct (Hget 1 committed _ _ Hg) as (Hoff & _ & Hfresh & _).
  split; [exact Hn|]. split; [exact (Hnew _ _ _ _ _ Hn)|].
  split; [rewrite Hg; reflexivity|]. split; [exact Hoff | exact Hfresh].
Defined.

Lemma Save_deterministic_order_witness :
  forest_wf (newForest 2).1 (newForest 2).2 /\
  dirtyPrefixes (newForest 2).1 = [] /\
  Forall (fun o => o <> OpSave) oneEpoch /\
  run_ops oneEpoch (newForest 2) = (Ok [], exec (run_ops oneEpoch) (newForest 2)) /\
  dirtyPrefixes (exec (run_ops oneEpoch) (newForest 2)).1 = [bz "b"; bz "a"] /\
  store emptyWorld = store emptyWorld /\ loads emptyWorld = loads emptyWorld /\
  (session (allocator := bump) [] 2 twoEpochs emptyWorld).1
  = (session (allocator := sparse) [] 2 twoEpochs emptyWorld).1.
Proof.
  assert (Hwf : forest_wf (newForest 2).1 (newForest 2).2)
    by (apply forest_wfb_sound; vm_compute; reflexivity).
  assert (Hclean : dirtyPrefixes (newForest 2).1 = []) by reflexivity.
  assert (Hops : Forall (fun o => o <> OpSave) oneEpoch)
    by (repeat constructor; discriminate).
  assert (Hrun : run_ops oneEpoch (newForest 2)
                 = (Ok [], exec (run_ops oneEpoch) (newForest 2)))
    by (vm_compute; reflexivity).
  destruct (Save_deterministic_order (collab := reliable)) as [Horder Hdet].
  split; [exact Hwf|]. split; [exact Hclean|]. split; [exact Hops|].
  split; [exact Hrun|].
  split; [exact (proj1 (Horder bump oneEpoch _ _ _ Hwf Hclean Hops Hrun))|].
  split; [reflexivity|]. split; [reflexivity|].
  exact (Hdet bump sparse [] 2 twoEpochs emptyWorld emptyWorld eq_refl eq_refl).
Defined.

(** The two runs of the witness do receive different addresses and do
    return the same hashes and versions. *)
Example two_runs :
  dom (heap (session (allocator := bump) [] 2 twoEpochs emptyWorld).2)
  = {[0; 1; 2; 3; 4]}%nat /\
  dom (heap (session (allocator := sparse) [] 2 twoEpochs emptyWorld).2)
  = {[10; 21; 32; 43; 54]}%nat /\
  (session (allocator := sparse) [] 2 twoEpochs emptyWorld).1
  = Ok [([97; 8; 1; 18; 2; 107; 118; 98; 8; 1; 18; 2; 107; 119], 1);
        ([97; 8; 2; 18; 3; 107; 107; 118; 97; 8; 1; 18; 2; 107; 118;
          98; 8; 1; 18; 2; 107; 119], 2)].
Proof. vm_compute. repeat split; reflexivity. Qed.

(** * Worked examples for the further properties *)

(** [reopened] is what a second forest on the database of [committed] is
    after [Load(1)]. *)

Example NewMutableForest_Load_reopened :
  exists muf w,
    NewMutableForest [] 2 committed.2 = (Ok muf, w) /\
    Load 1 (muf, w) = (Ok tt, reopened).
Proof. eexists _, _. split; vm_compute; reflexivity. Qed.

Lemma marshalCommitID_injective_witness :
  Codec.marshalCommitID (bz "kv") 1 = Codec.marshalCommitID (bz "kv") 1 /\
  1 = 1 /\ bz "kv" = bz "kv".
Proof.
  split; [reflexivity|].
  apply (marshalCommitID_injective (bz "kv") (bz "kv") 1 1);
    [lia | lia | vm_compute; reflexivity | vm_compute; reflexivity | reflexivity].
Defined.


Lemma Reader_committed_witness :
  heap reopened.2 !! imf_commitsTree (imf reopened.1)
  = Some (mkRWTree (bz "c") commitsLog 1 false) /\
  Codec.marshalCommitID (bz "kv") 1 = Ok (Some [8; 1; 18; 2; 107; 118]) /\
  store reopened.2 !! (bz "ta", 1) = Some [(bz "k", Some (bz "v"))] /\
  loads (Reader (bz "a") (imf reopened.1, reopened.2)).2.2
  = [(bz "ta", 1, true); (bz "c", 1, true)].
Proof.
  assert (Hct : heap reopened.2 !! imf_commitsTree (imf reopened.1)
                = Some (mkRWTree (bz "c") commitsLog 1 false))
    by (vm_compute; reflexivity).
  assert (Hm : Codec.marshalCommitID (bz "kv") 1 = Ok (Some [8; 1; 18; 2; 107; 118]))
    by (vm_compute; reflexivity).
  split; [exact Hct|]. split; [exact Hm|].
  split; [vm_compute; reflexivity|].
  exact (proj1 (Reader_committed (bz "a") (bz "kv") 1 _ (imf reopened.1) reopened.2
                  _ Hct eq_refl Hm ltac:(lia) ltac:(lia)
                  ltac:(vm_compute; reflexivity) eq_refl)).
Defined.

Lemma Reader_keeps_forest_witness :
  forest_wf twoDirty.1 twoDirty.2 /\
  dirty (promoted (Reader (bz "c")) (twoDirty.1, twoDirty.2)).2.1 = dirty twoDirty.1 /\
  dirtyPrefixes (promoted (Reader (bz "c")) (twoDirty.1, twoDirty.2)).2.1
  = dirtyPrefixes twoDirty.1.
Proof.
  assert (Hwf : forest_wf twoDirty.1 twoDirty.2)
    by (apply forest_wfb_sound; vm_compute; reflexivity).
  split; [exact Hwf|].
  assert (Hr : promoted (Reader (bz "c")) (twoDirty.1, twoDirty.2)
               = ((promoted (Reader (bz "c")) (twoDirty.1, twoDirty.2)).1,
                  ((promoted (Reader (bz "c")) (twoDirty.1, twoDirty.2)).2.1,
                   (promoted (Reader (bz "c")) (twoDirty.1, twoDirty.2)).2.2))).
  { destruct (promoted (Reader (bz "c")) (twoDirty.1, twoDirty.2)) as [r [m w]]. reflexivity. }
  destruct (Reader_keeps_forest (bz "c") twoDirty.1 _ twoDirty.2 _ _ Hwf Hr)
    as (Hd & Hp & _).
  split; [exact Hd | exact Hp].
Defined.

Lemma Writer_Set_isolated_witness :
  forest_wf (newForest 2).1 (newForest 2).2 /\
  bz "a" <> bz "b" /\
  Writer (bz "a") ((newForest 2).1, (newForest 2).2)
  = (Ok 2%nat, (Writer (bz "a") ((newForest 2).1, (newForest 2).2)).2) /\
  (Reader (bz "b")
     (imf (Writer (bz "a") ((newForest 2).1, (newForest 2).2)).2.1,
      (RWTree_Set 2%nat (bz "k") (bz "v")
         (Writer (bz "a") ((newForest 2).1, (newForest 2).2)).2.2).2)).1
  = (Reader (bz "b")
       (imf (Writer (bz "a") ((newForest 2).1, (newForest 2).2)).2.1,
        (Writer (bz "a") ((newForest 2).1, (newForest 2).2)).2.2)).1.
Proof.
  assert (Hwf : forest_wf (newForest 2).1 (newForest 2).2)
    by (apply forest_wfb_sound; vm_compute; reflexivity).
  assert (Hne : bz "a" <> bz "b") by (vm_compute; discriminate).
  assert (Hw : Writer (bz "a") ((newForest 2).1, (newForest 2).2)
               = (Ok 2%nat, (Writer (bz "a") ((newForest 2).1, (newForest 2).2)).2))
    by (vm_compute; reflexivity).
  assert (Hs : RWTree_Set 2%nat (bz "k") (bz "v")
                 (Writer (bz "a") ((newForest 2).1, (newForest 2).2)).2.2
               = (Ok tt, (RWTree_Set 2%nat (bz "k") (bz "v")
                            (Writer (bz "a") ((newForest 2).1, (newForest 2).2)).2.2).2))
    by (vm_compute; reflexivity).
  split; [exact Hwf|]. split; [exact Hne|]. split; [exact Hw|].
  exact (proj1 (Writer_Set_isolated (bz "a") (bz "b") (bz "k") (bz "v")
                  (newForest 2).1 (newForest 2).2 2%nat _ _ Hwf Hne Hw Hs)).
Defined.

Lemma Reader_failure_witness :
  heap orphaned.2 !! imf_commitsTree (imf orphaned.1)
  = Some (mkRWTree (bz "c") commitsLog 1 false) /\
  (Reader (bz "a") (imf orphaned.1, orphaned.2)).1
  = Err (Errorf "ImmutableForest.loadOrCreateTree(): could not load tree"
           (ErrVersionMissing (bz "ta") 1)) /\
  lru_find (bz "a") (lru_items (treeCache (imf orphaned.1))) = None.
Proof.
  assert (Hct : heap orphaned.2 !! imf_commitsTree (imf orphaned.1)
                = Some (mkRWTree (bz "c") commitsLog 1 false))
    by (vm_compute; reflexivity).
  assert (Hr : Reader (bz "a") (imf orphaned.1, orphaned.2)
               = (Err (Errorf "ImmutableForest.loadOrCreateTree(): could not load tree"
                     (ErrVersionMissing (bz "ta") 1)),
                  (Reader (bz "a") (imf orphaned.1, orphaned.2)).2))
    by (vm_compute; reflexivity).
  split; [exact Hct|]. split; [rewrite Hr; reflexivity|].
  exact (proj1 (Reader_failure (bz "a") (imf orphaned.1) orphaned.2 _ _ _ Hct Hr)).
Defined.

Lemma Writer_failure_witness :
  forest_wf orphaned.1 orphaned.2 /\
  Writer (bz "a") (orphaned.1, orphaned.2)
  = (Err (Errorf "ImmutableForest.loadOrCreateTree(): could not load tree"
            (ErrVersionMissing (bz "ta") 1)),
     (Writer (bz "a") (orphaned.1, orphaned.2)).2) /\
  dirty (Writer (bz "a") (orphaned.1, orphaned.2)).2.1 = dirty orphaned.1 /\
  dirtyPrefixes (Writer (bz "a") (orphaned.1, orphaned.2)).2.1
  = dirtyPrefixes orphaned.1.
Proof.
  assert (Hwf : forest_wf orphaned.1 orphaned.2)
    by (apply forest_wfb_sound; vm_compute; reflexivity).
  assert (Hw : Writer (bz "a") (orphaned.1, orphaned.2)
               = (Err (Errorf "ImmutableForest.loadOrCreateTree(): could not load tree"
                         (ErrVersionMissing (bz "ta") 1)),
                  (Writer (bz "a") (orphaned.1, orphaned.2)).2))
    by (vm_compute; reflexivity).
  split; [exact Hwf|]. split; [exact Hw|].
  destruct (Writer_failure (bz "a") orphaned.1 orphaned.2 _ _ Hwf Hw)
    as (_ & Hd & Hp & _).
  split; [exact Hd | exact Hp].
Defined.

Lemma Save_commits_failure_witness :
  forest_wf twoDirty.1 twoDirty.2 /\
  heap twoDirty.2 !! commitsTree twoDirty.1 = Some (mkRWTree (bz "c") [] 0 false) /\
  save_fault (Collab := failing (bz "c")) (bz "c") 1 = true /\
  exists w',
    Save (collab := failing (bz "c")) (twoDirty.1, twoDirty.2)
    = (Err (ErrStore (bz "c") 1), (set_dirty ∅ [] twoDirty.1, w')) /\
    (Version (set_dirty ∅ [] twoDirty.1, w')).1 = (Version (twoDirty.1, twoDirty.2)).1.
Proof.
  assert (Hwf : forest_wf twoDirty.1 twoDirty.2)
    by (apply forest_wfb_sound; vm_compute; reflexivity).
  assert (Hct : heap twoDirty.2 !! commitsTree twoDirty.1
                = Some (mkRWTree (bz "c") [] 0 false))
    by (vm_compute; reflexivity).
  assert (Hacc : forall p, p ∈ dirtyPrefixes twoDirty.1 ->
                   save_refused (collab := failing (bz "c")) twoDirty.1 twoDirty.2 p
                   = false).
  { intros p Hp. change (dirtyPrefixes twoDirty.1) with [bz "a"; bz "b"] in Hp.
    apply elem_of_cons in Hp. destruct Hp as [->|Hp]; [vm_compute; reflexivity|].
    apply list_elem_of_singleton in Hp. subst p. vm_compute. reflexivity. }
  split; [exact Hwf|]. split; [exact Hct|]. split; [reflexivity|].
  destruct (Save_commits_failure (collab := failing (bz "c")) twoDirty.1 twoDirty.2
              _ Hwf Hct Hacc eq_refl)
    as (w' & Hsave & _ & _ & _ & Hv).
  exists w'. split; [exact Hsave | exact Hv].
Defined.

Lemma Save_nothing_updated_witness :
  forest_wf committed.1 committed.2 /\
  heap committed.2 !! commitsTree committed.1
  = Some (mkRWTree (bz "c") commitsLog 1 false) /\
  dirty committed.1 = ∅ /\
  Save (committed.1, committed.2)
  = (Ok (example_hash commitsLog, 2),
     ((Save (committed.1, committed.2)).2.1, (Save (committed.1, committed.2)).2.2)) /\
  (Version ((Save (committed.1, committed.2)).2.1,
            (Save (committed.1, committed.2)).2.2)).1 = Ok 2.
Proof.
  assert (Hwf : forest_wf committed.1 committed.2)
    by (apply forest_wfb_sound; vm_compute; reflexivity).
  assert (Hct : heap committed.2 !! commitsTree committed.1
                = Some (mkRWTree (bz "c") commitsLog 1 false))
    by (vm_compute; reflexivity).
  assert (Hd : dirty committed.1 = ∅) by (vm_compute; reflexivity).
  assert (Hclean : forall p tr,
            dirty_tree committed.1 committed.2 p = Some tr -> tupdated tr = false).
  { intros p tr Hdt. unfold dirty_tree in Hdt. rewrite Hd, lookup_empty in Hdt.
    discriminate. }
  assert (Hsave : Save (committed.1, committed.2)
                  = (Ok (example_hash commitsLog, 2),
                     ((Save (committed.1, committed.2)).2.1,
                      (Save (committed.1, committed.2)).2.2)))
    by (vm_compute; reflexivity).
  split; [exact Hwf|]. split; [exact Hct|]. split; [exact Hd|]. split; [exact Hsave|].
  exact (proj1 (proj2 (proj2 (Save_nothing_updated _ _ _ _ _ _ _
                                Hwf Hct Hclean Hsave)))).
Defined.

Lemma Save_then_reopen_witness :
  forest_wf twoDirty.1 twoDirty.2 /\
  Save (twoDirty.1, twoDirty.2)
  = (Ok (example_hash commitsLog, 1), (committed.1, committed.2)) /\
  exists muf2 w2 w3 r imf4 w4,
    NewMutableForest [] 2 committed.2 = (Ok muf2, w2) /\
    Load 1 (muf2, w2) = (Ok tt, (muf2, w3)) /\
    Reader (bz "a") (imf muf2, w3) = (Ok r, (imf4, w4)) /\
    (RWTree_Get r (bz "k") w4).1 = Ok (Some (bz "v")).
Proof.
  assert (Hwf : forest_wf twoDirty.1 twoDirty.2)
    by (apply forest_wfb_sound; vm_compute; reflexivity).
  assert (Hsave : Save (twoDirty.1, twoDirty.2)
                  = (Ok (example_hash commitsLog, 1), (committed.1, committed.2)))
    by (vm_compute; reflexivity).
  split; [exact Hwf|]. split; [exact Hsave|].
  destruct (Save_then_reopen [] 2 twoDirty.1 committed.1 twoDirty.2 committed.2
              (mkRWTree (bz "c") [] 0 false) _ 1 (bz "a") 2%nat
              (mkRWTree (bz "ta") [(bz "k", Some (bz "v"))] 0 true)
              Hwf ltac:(vm_compute; reflexivity) eq_refl eq_refl ltac:(lia) Hsave
              ltac:(vm_compute; reflexivity) ltac:(vm_compute; reflexivity)
              eq_refl ltac:(cbn; lia) ltac:(vm_compute; reflexivity))
    as (muf2 & w2 & w3 & r & imf4 & w4 & Hnew & Hload & _ & Hread & Hget).
  exists muf2, w2, w3, r, imf4, w4.
  split; [exact Hnew|]. split; [exact Hload|]. split; [exact Hread|].
  exact (Hget (bz "k")).
Defined.

Lemma Save_then_Reader_witness :
  forest_wf twoDirty.1 twoDirty.2 /\
  lru_find (bz "a") (lru_items (treeCache (imf twoDirty.1))) = Some 2%nat /\
  exists r imf2 w2,
    Reader (bz "a") (imf committed.1, committed.2) = (Ok r, (imf2, w2)) /\
    (RWTree_Get r (bz "k") w2).1 = Ok (Some (bz "v")).
Proof.
  assert (Hwf : forest_wf twoDirty.1 twoDirty.2)
    by (apply forest_wfb_sound; vm_compute; reflexivity).
  assert (Hc : lru_find (bz "a") (lru_items (treeCache (imf twoDirty.1))) = Some 2%nat)
    by (vm_compute; reflexivity).
  split; [exact Hwf|]. split; [exact Hc|].
  destruct (Save_then_Reader twoDirty.1 committed.1 twoDirty.2 committed.2
              (mkRWTree (bz "c") [] 0 false) (example_hash commitsLog) 1 (bz "a") 2%nat
              (mkRWTree (bz "ta") [(bz "k", Some (bz "v"))] 0 true)
              Hwf ltac:(vm_compute; reflexivity) ltac:(vm_compute; reflexivity)
              ltac:(vm_compute; reflexivity) ltac:(vm_compute; reflexivity)
              eq_refl ltac:(cbn; lia) ltac:(vm_compute; reflexivity) (or_introl Hc))
    as (r & imf2 & w2 & Hread & _ & _ & Hget).
  exists r, imf2, w2. split; [exact Hread | exact (Hget (bz "k"))].
Defined.

Lemma GetImmutable_reads_version_witness :
  heap committed.2 !! commitsTree committed.1
  = Some (mkRWTree (bz "c") commitsLog 1 false) /\
  store committed.2 !! (bz "c", 1) = Some commitsLog /\
  store committed.2 !! (bz "ta", 1) = Some [(bz "k", Some (bz "v"))] /\
  exists imf1 w1 r imf2 w2,
    GetImmutable 1 (committed.1, committed.2) = (Ok imf1, (committed.1, w1)) /\
    Reader (bz "a") (imf1, w1) = (Ok r, (imf2, w2)) /\
    (RWTree_Get r (bz "k") w2).1 = Ok (Some (bz "v")) /\
    store w2 = store committed.2.
Proof.
  assert (Hct : heap committed.2 !! commitsTree committed.1
                = Some (mkRWTree (bz "c") commitsLog 1 false))
    by (vm_compute; reflexivity).
  assert (Hc : store committed.2 !! (bz "c", 1) = Some commitsLog)
    by (vm_compute; reflexivity).
  assert (Ht : store committed.2 !! (bz "ta", 1) = Some [(bz "k", Some (bz "v"))])
    by (vm_compute; reflexivity).
  split; [exact Hct|]. split; [exact Hc|]. split; [exact Ht|].
  destruct (GetImmutable_reads_version committed.1 committed.2 _ 1 commitsLog
              (bz "a") [8; 1; 18; 2; 107; 118] (bz "kv") 1 _
              Hct ltac:(vm_compute; reflexivity) Hc eq_refl
              ltac:(vm_compute; reflexivity) ltac:(lia) ltac:(lia)
              ltac:(vm_compute; reflexivity) Ht)
    as (imf1 & w1 & r & imf2 & w2 & Hget & Hread & Hk & Hst & _).
  exists imf1, w1, r, imf2, w2.
  split; [exact Hget|]. split; [exact Hread|]. split; [exact (Hk (bz "k")) | exact Hst].
Defined.

Lemma Load_version_witness :
  heap committed.2 !! commitsTree committed.1
  = Some (mkRWTree (bz "c") commitsLog 1 false) /\
  store committed.2 !! (bz "c", 1) = Some commitsLog /\
  exists w',
    Load 1 (committed.1, committed.2) = (Ok tt, (committed.1, w')) /\
    (Version (committed.1, w')).1 = Ok 1.
Proof.
  assert (Hct : heap committed.2 !! commitsTree committed.1
                = Some (mkRWTree (bz "c") commitsLog 1 false))
    by (vm_compute; reflexivity).
  assert (Hc : store committed.2 !! (bz "c", 1) = Some commitsLog)
    by (vm_compute; reflexivity).
  split; [exact Hct|]. split; [exact Hc|].
  pose proof (Load_version committed.1 committed.2 _ 1 Hct) as Hload.
  cbn [tdb] in Hload. rewrite Hc in Hload.
  destruct Hload as (w' & Hl & _ & Hv & _).
  exists w'. split; [exact Hl | exact Hv].
Defined.

Lemma Reader_after_failed_load_witness :
  heap orphaned.2 !! imf_commitsTree (imf orphaned.1)
  = Some (mkRWTree (bz "c") commitsLog 1 false) /\
  store orphaned.2 !! (bz "ta", 1) = None /\
  exists imf1 w1 t imf2,
    Reader (bz "a") (imf orphaned.1, orphaned.2)
    = (Err (Errorf "ImmutableForest.loadOrCreateTree(): could not load tree"
              (ErrVersionMissing (bz "ta") 1)), (imf1, w1)) /\
    Reader (bz "a") (imf1, w1) = (Ok t, (imf2, w1)) /\
    heap w1 !! t = Some (mkRWTree (bz "ta") [] 0 false).
Proof.
  assert (Hct : heap orphaned.2 !! imf_commitsTree (imf orphaned.1)
                = Some (mkRWTree (bz "c") commitsLog 1 false))
    by (vm_compute; reflexivity).
  assert (Hst : store orphaned.2 !! (bz "ta", 1) = None)
    by (vm_compute; reflexivity).
  split; [exact Hct|]. split; [exact Hst|].
  destruct (Reader_after_failed_load (bz "a") (bz "kv") 1 [8; 1; 18; 2; 107; 118]
              (imf orphaned.1) orphaned.2 _ Hct eq_refl
              ltac:(vm_compute; reflexivity) ltac:(lia) ltac:(lia)
              ltac:(vm_compute; reflexivity) eq_refl Hst ltac:(cbn; lia))
    as (imf1 & w1 & t & imf2 & Hfail & Hagain & _ & Hempty).
  exists imf1, w1, t, imf2.
  split; [exact Hfail|]. split; [exact Hagain | exact Hempty].
Defined.

Lemma forest_wf_any_use_witness :
  NewMutableForest [] 2 emptyWorld = (Ok (newForest 2).1, (newForest 2).2) /\
  forest_wf (run_calls anyUse ((newForest 2).1, (newForest 2).2)).1
            (run_calls anyUse ((newForest 2).1, (newForest 2).2)).2.
Proof.
  assert (Hn : NewMutableForest [] 2 emptyWorld
               = (Ok (newForest 2).1, (newForest 2).2))
    by (vm_compute; reflexivity).
  split; [exact Hn|].
  exact (forest_wf_any_use [] 2 emptyWorld _ _ anyUse Hn).
Defined.

Lemma Save_retry_witness :
  forest_wf twoDirty.1 twoDirty.2 /\
  (Save (collab := failing (bz "tb")) twoDirty).1
  = Err (Errorf "MutableForest.saveTree() could not save tree" (ErrStore (bz "tb") 1)) /\
  (Save (collab := reliable) (exec (Save (collab := failing (bz "tb"))) twoDirty)).1
  = Ok (example_hash commitsLog, 1) /\
  example_hash commitsLog
  = hashfn (commit_entries twoDirty.1 twoDirty.2 (dirtyPrefixes twoDirty.1) ++ []) /\
  (Save (collab := reliable) twoDirty).1 = Ok (example_hash commitsLog, 1).
Proof.
  assert (Hwf : forest_wf twoDirty.1 twoDirty.2)
    by (apply forest_wfb_sound; vm_compute; reflexivity).
  split; [exact Hwf|]. split; [vm_compute; reflexivity|].
  split; [vm_compute; reflexivity|].
  split; [|vm_compute; reflexivity].
  exact (proj1 (Save_retry (failing (bz "tb")) reliable twoDirty.1 twoDirty.2
                  (mkRWTree (bz "c") [] 0 false)
                  (Errorf "MutableForest.saveTree() could not save tree"
                     (ErrStore (bz "tb") 1))
                  (exec (Save (collab := failing (bz "tb"))) twoDirty)
                  (exec (Save (collab := reliable))
                     (exec (Save (collab := failing (bz "tb"))) twoDirty))
                  (example_hash commitsLog) 1
                  (fun l => eq_refl) Hwf ltac:(vm_compute; reflexivity)
                  ltac:(vm_compute; reflexivity) ltac:(vm_compute; reflexivity))).
Defined.
